(** * otslib: the fetch / pace pipeline of [AbstractMediaItem]

    A shallow embedding of [src/otslib/core/__base__.py]: the metadata
    of [SpotifyMediaProperty] ([set_partial_meta], [get_meta],
    [get_meta_keys], [__getattribute__], [get_thumbnail]), and of
    [AbstractMediaItem] the stream access ([media_stream_as_user], the
    property [media_stream], [reset_stream]), [get_media], and [play]
    with its nested [fetch_thread_worker]; and of [pick_thumbnail],
    [flatten_dictionary] and [MutableBool] from
    [src/otslib/common/utils.py].

    Conventions.
    - Python [int]s are [Z]; [len(b)] is [len b : Z].
    - [bytes] are [list byte]; [b''] is [[]].
    - Wall-clock times and audio durations are Python floats (seconds) in
      the source.  They are kept here as exact integers counted in
      milliseconds, so [0.03] is [30], [0.1] is [100] and [int(t)]
      (truncation to whole seconds) is [t ÷ 1000].
    - The network stream, the Ogg prober ([mutagen]), the content
      feeder, the child's [_fetch_metadata], the clock, the player
      process, the caller's callback and the other thread are
      collaborators outside the repository: they appear as interfaces
      (type classes), parameters and oracles. *)

From Stdlib Require Import ZArith List Bool Lia Sorting.Sorted.
From Stdlib Require Import Strings.String Strings.Byte.
Import ListNotations.
Open Scope Z_scope.

Definition bytes := list byte.

Definition len {A : Type} (l : list A) : Z := Z.of_nat (List.length l).

(** A [(duration, payload)] tuple of the hand-off list. *)
Definition segment := (Z * bytes)%type.

(** The tuple [(0.0, b'')] appended when the worker stops. *)
Definition sentinel : segment := (0, []).

(** What the consumer takes for the end marker: a zero duration with an
    empty payload. *)
Definition is_sentinel (s : segment) : bool :=
  (fst s =? 0) && (len (snd s) =? 0).
(** ** Python values and dicts with string keys *)
Module Py.

(** The values the metadata of an item holds. *)
#[local] Unset Elimination Schemes.
Inductive value :=
| VNone
| VBool (b : bool)
| VInt (z : Z)
| VStr (s : string)
| VList (l : list value)
| VDict (d : list (string * value)).
#[local] Set Elimination Schemes.

(** A dict, its items in insertion order. *)
Definition dict := list (string * value).

(** [d[k] = v]: an existing key keeps its place. *)
Fixpoint set_item (k : string) (v : value) (d : dict) : dict :=
  match d with
  | [] => [(k, v)]
  | (k', v') :: rest =>
      if String.eqb k' k then (k, v) :: rest else (k', v') :: set_item k v rest
  end.

(** [d.get(k)] *)
Fixpoint get_item (k : string) (d : dict) : option value :=
  match d with
  | [] => None
  | (k', v') :: rest => if String.eqb k' k then Some v' else get_item k rest
  end.

(** [k in d] *)
Definition has_key (k : string) (d : dict) : bool :=
  match get_item k d with Some _ => true | None => false end.

(** [d.update(other)] *)
Definition update (d other : dict) : dict :=
  fold_left (fun acc kv => set_item (fst kv) (snd kv) acc) other d.

(** [isinstance(v, dict)] *)
Definition is_dict (v : value) : bool :=
  match v with VDict _ => true | _ => false end.

End Py.

(** ** The metadata of [SpotifyMediaProperty] ([core/__base__.py]) *)
Module Meta.
Import Py.

Inductive error := TypeError | AttributeError.

Inductive result (A : Type) :=
| Ok (a : A)
| Fail (e : error).

Arguments Ok {A} a.
Arguments Fail {A} e.

(** [self._metadata] (which may be [None]), the flag, and a ghost count
    of the calls of [_fetch_metadata]. *)
Record property := {
  _metadata : option dict;
  _FULL_METADATA_ACQUIRED : bool;
  fetches : nat
}.

(** [isinstance]-free test of [get_meta_keys]: the type is [bool], [int]
    or [str]. *)
Definition plain (v : value) : bool :=
  match v with
  | VBool _ | VInt _ | VStr _ => true
  | _ => false
  end.

(** What [__getattribute__] comes to: the outcome of a metadata access,
    or the ordinary attribute lookup of [object], which is not modelled
    any further. *)
Inductive attribute :=
| Metadata (r : result value)
| Ordinary.

(** [name.startswith('meta_') and name != 'meta_'], and then [name[5:]]. *)
Definition meta_key_of (name : string) : option string :=
  if String.prefix "meta_" name && negb (String.eqb name "meta_")
  then Some (String.substring 5 (String.length name - 5) name)
  else None.

Section Model.

(** What the [_fetch_metadata] of the child class leaves in
    [_metadata] and in the flag (in the base class it is [pass]). *)
Variable fetch : option dict -> bool -> option dict * bool.

Definition _fetch_metadata (o : property) : property :=
  let '(m, f) := fetch (_metadata o) (_FULL_METADATA_ACQUIRED o) in
  {| _metadata := m; _FULL_METADATA_ACQUIRED := f; fetches := S (fetches o) |}.

(** The loop of [set_partial_meta]: [for key in meta_dict:
    self._metadata[key] = meta_dict[key]]. *)
Definition copy_items (meta_dict d : dict) : dict :=
  fold_left (fun acc key =>
               match get_item key meta_dict with
               | Some v => set_item key v acc
               | None => acc
               end) (map fst meta_dict) d.

(** [set_partial_meta] *)
Definition set_partial_meta (meta_dict : dict) (o : property) : property :=
  let d := match _metadata o with Some d => d | None => [] end in
  {| _metadata := Some (copy_items meta_dict d);
     _FULL_METADATA_ACQUIRED := false;
     fetches := fetches o |}.

(** [get_meta_keys]; on a [None] metadata [.keys()] fails. *)
Definition get_meta_keys (disable_filters : bool) (o : property) : result (list string) :=
  match _metadata o with
  | None => Fail AttributeError
  | Some d =>
      Ok (map fst (filter (fun kv => plain (snd kv) || disable_filters) d))
  end.

(** [get_meta]; [key not in None] is a [TypeError], [None.get] an
    [AttributeError]. *)
Definition get_meta (key : string) (default : value) (o : property)
  : result value * property :=
  match _metadata o with
  | None => (Fail TypeError, o)
  | Some d =>
      let o' :=
        if negb (has_key key d) && negb (_FULL_METADATA_ACQUIRED o)
        then _fetch_metadata o else o in
      match _metadata o' with
      | None => (Fail AttributeError, o')
      | Some d' =>
          (Ok (match get_item key d' with Some v => v | None => default end), o')
      end
  end.

(** The [meta_] branch of [__getattribute__], [meta_key] being
    [name[5:]]. *)
Definition meta_attribute (meta_key : string) (o : property)
  : result value * property :=
  let metadata := match _metadata o with Some d => d | None => [] end in
  let empty := match metadata with [] => true | _ => false end in
  if empty || (negb (has_key meta_key metadata) && negb (_FULL_METADATA_ACQUIRED o))
  then
    let o1 := _fetch_metadata o in
    let o2 := {| _metadata := _metadata o1;
                 _FULL_METADATA_ACQUIRED := true;
                 fetches := fetches o1 |} in
    match _metadata o2 with
    | None => (Fail TypeError, o2)
    | Some d =>
        match get_item meta_key d with
        | Some v => (Ok v, o2)
        | None => (Fail AttributeError, o2)
        end
    end
  else
    match get_item meta_key metadata with
    | Some v => (Ok v, o)
    | None => (Fail AttributeError, o)
    end.

(** [__getattribute__]: a name that starts with ["meta_"] and is not
    ["meta_"] itself goes to the metadata; any other name is left to
    [object.__getattribute__(self, name)]. *)
Definition __getattribute__ (name : string) (o : property)
  : attribute * property :=
  match meta_key_of name with
  | Some meta_key =>
      let '(r, o') := meta_attribute meta_key o in (Metadata r, o')
  | None => (Ordinary, o)
  end.

End Model.

End Meta.

(** ** [media_stream_as_user], [reset_stream], [set_media_quality] *)
Module Access.
Import Py.

(** [librespot.audio.decoders.AudioQuality] *)
Inductive quality := NORMAL | HIGH | VERY_HIGH.

(** The ways [media_stream_as_user] fails: the three exceptions it
    raises itself, an error of a [meta_] attribute it reads, and a
    [RuntimeError] of the content feeder that it raises again. *)
Inductive failure :=
| PremiumRequiredException
| UnknownMediaTypeException
| UnplayableMediaException
| MetaError (e : Meta.error)
| OtherRuntimeError.

(** What [content_feeder().load] does: a stream, the [RuntimeError] whose
    text has ['Cannot get alternative track'], or another one. *)
Inductive loading (T : Type) :=
| Loaded (s : T)
| CannotGetAlternativeTrack
| OtherError.

Arguments Loaded {T} s.
Arguments CannotGetAlternativeTrack {T}.
Arguments OtherError {T}.

(** [user.is_premium] and [user.session.get_user_attribute("type") ==
    "premium"]. *)
Record user := {
  is_premium : bool;
  type_premium : bool
}.

(** The item: its metadata, [__media_type], [__use_audio_quality],
    [__stream], and a ghost count of the calls of [load]. *)
Record item (T : Type) := {
  meta : Meta.property;
  media_type : Z;
  use_audio_quality : option quality;
  stream : option T;
  loads : nat
}.

Arguments meta {T} i.
Arguments media_type {T} i.
Arguments use_audio_quality {T} i.
Arguments stream {T} i.
Arguments loads {T} i.

(** Truth value of a Python value ([not v] is its negation). *)
Definition truthy (v : value) : bool :=
  match v with
  | VNone => false
  | VBool b => b
  | VInt z => negb (z =? 0)
  | VStr s => negb (String.eqb s EmptyString)
  | VList l => match l with [] => false | _ => true end
  | VDict d => match d with [] => false | _ => true end
  end.

Section Model.
Context {T : Type}.

(** The child's [_fetch_metadata]. *)
Variable fetch : option dict -> bool -> option dict * bool.

(** [int(os.environ.get('OTSLIB_DEBUG_MSTREAM', 0))] *)
Variable debug_mstream : Z.

(** [content_feeder().load(media_id, VorbisOnlyAudioQuality(quality),
    False, None)], the id being made from [meta_scraped_id] as a track
    ([true]) or an episode. *)
Variable load : value -> bool -> quality -> loading T.

Definition with_meta (m : Meta.property) (i : item T) : item T :=
  {| meta := m; media_type := media_type i;
     use_audio_quality := use_audio_quality i; stream := stream i;
     loads := loads i |}.

(** [set_media_quality] *)
Definition set_media_quality (q : option quality) (i : item T) : item T :=
  {| meta := meta i; media_type := media_type i;
     use_audio_quality := q; stream := stream i; loads := loads i |}.

(** [reset_stream] *)
Definition reset_stream (i : item T) : item T :=
  {| meta := meta i; media_type := media_type i;
     use_audio_quality := use_audio_quality i; stream := None;
     loads := loads i |}.

(** Lines 301-308. *)
Definition pick_quality (u : user) (i : item T) : quality :=
  match use_audio_quality i with
  | None => if type_premium u then VERY_HIGH else HIGH
  | Some q => q
  end.

(** Lines 314-334: the id is read from [meta_scraped_id] and the stream
    loaded. *)
Definition load_stream (u : user) (i : item T) : (T + failure) * item T :=
  match Meta.meta_attribute fetch "scraped_id" (meta i) with
  | (Meta.Fail e, m) => (inr (MetaError e), with_meta m i)
  | (Meta.Ok scraped_id, m) =>
      let i := with_meta m i in
      let i := {| meta := meta i; media_type := media_type i;
                  use_audio_quality := use_audio_quality i; stream := stream i;
                  loads := S (loads i) |} in
      match load scraped_id (media_type i =? 0) (pick_quality u i) with
      | Loaded s =>
          (inl s,
           {| meta := meta i; media_type := media_type i;
              use_audio_quality := use_audio_quality i; stream := Some s;
              loads := loads i |})
      | CannotGetAlternativeTrack =>
          if negb (Meta._FULL_METADATA_ACQUIRED (meta i)) then
            (inr UnplayableMediaException,
             with_meta (Meta.set_partial_meta [("is_playable"%string, VBool false)] (meta i)) i)
          else (inr UnplayableMediaException, i)
      | OtherError => (inr OtherRuntimeError, i)
      end
  end.

(** [media_stream_as_user] *)
Definition media_stream_as_user (u : user) (i : item T) : (T + failure) * item T :=
  if negb (is_premium u) && (debug_mstream =? 0) then
    (inr PremiumRequiredException, i)
  else
    match stream i with
    | Some s => (inl s, i)
    | None =>
        if negb ((media_type i =? 0) || (media_type i =? 1)) then
          (inr UnknownMediaTypeException, i)
        else if Meta._FULL_METADATA_ACQUIRED (meta i) then
          match Meta.meta_attribute fetch "is_playable" (meta i) with
          | (Meta.Fail e, m) => (inr (MetaError e), with_meta m i)
          | (Meta.Ok playable, m) =>
              if negb (truthy playable) then
                (inr UnplayableMediaException, with_meta m i)
              else load_stream u (with_meta m i)
          end
        else load_stream u i
    end.

End Model.

End Access.


(** Exceptions that leave the modelled code: those of [otslib.exceptions]
    raised by [get_media] and the worker; the [RuntimeError] of the stall
    watchdog; the [ValueError] of [time.sleep] on a negative length; the
    [TypeError] of calling a [pg_notify] that is [None]; the
    [AttributeError] of [user.is_premium] when [self._user] is [None];
    the [OSError] of a [subprocess.Popen] that cannot start the player;
    and whatever [media_stream_as_user] raises ([Access.failure], which
    has the [RuntimeError] of the content feeder). *)
Inductive exn :=
| StreamReadException
| MediaFetchInterruptedException
| RuntimeError
| ValueError
| TypeError
| AttributeError
| OSError
| StreamUnavailable (f : Access.failure).

(** How a call ends: it returns, or an exception leaves it. *)
Inductive exit := Returned | Raised (e : exn).

(** ** The property [media_stream] of [AbstractMediaItem] *)
Module Item.

Section Model.
Context {T : Type}.

Variable fetch : option Py.dict -> bool -> option Py.dict * bool.
Variable debug_mstream : Z.
Variable load : Py.value -> bool -> Access.quality -> Access.loading T.

(** [self._user], which is [None] until a user is set. *)
Variable _user : option Access.user.

(** [self.media_stream], that is [self.media_stream_as_user(user=self._user)]. *)
Definition media_stream (i : Access.item T) : (T + exn) * Access.item T :=
  match _user with
  | None => (inr AttributeError, i)
  | Some user =>
      match Access.media_stream_as_user fetch debug_mstream load user i with
      | (inl s, i') => (inl s, i')
      | (inr f, i') => (inr (StreamUnavailable f), i')
      end
  end.

End Model.

(** The stream object the item holds, after a read has left it as [s]. *)
Definition holding {T : Type} (s : T) (i : Access.item T) : Access.item T :=
  {| Access.meta := Access.meta i; Access.media_type := Access.media_type i;
     Access.use_audio_quality := Access.use_audio_quality i;
     Access.stream := Some s; Access.loads := Access.loads i |}.

End Item.

(** [media_stream.input_stream]: its declared [size] and
    [stream().read(n)], which returns the bytes delivered and leaves the
    stream in a new state. *)
Class InputStream (T : Type) := {
  size : T -> Z;
  read : Z -> T -> bytes * T
}.

(** [mutagen.oggvorbis.OggVorbis(BytesIO(b)).info.length]; [None] stands
    for [OggVorbisHeaderError]. *)
Class OggProbe := { ogg_length : bytes -> option Z }.

(** ** [MutableBool] ([common/utils.py]) *)
Module Utils.

Record MutableBool := { value : bool }.

(** [MutableBool.__init__] followed by [set(bool(value))]. *)
Definition new (v : bool) : MutableBool := {| value := v |}.

(** [MutableBool.set] *)
Definition set (v : bool) (_ : MutableBool) : MutableBool := {| value := v |}.

(** [MutableBool.__bool__] *)
Definition to_bool (m : MutableBool) : bool := value m.

(** [MutableBool.__int__] *)
Definition to_int (m : MutableBool) : Z := if value m then 1 else 0.

End Utils.

(** ** [fetch_thread_worker] (nested in [AbstractMediaItem.play]) *)
Module Worker.

Section Model.
Context {T : Type} `{InputStream T} `{OggProbe}.

(** [halt k] is [bool(halt_marker)] as the worker sees it the [k]-th
    time it evaluates the loop condition (the flag is written by the
    other thread). *)
Variable halt : nat -> bool.

Variable total_size : Z.
Variable skip_at_end : Z.

(** The worker's local variables, the list it appends to, and two
    ghost fields: [requests], the sizes it has passed to [read], and
    [checks], how often it has evaluated the loop condition. *)
Record state := {
  stream : T;
  chunk : Z;
  size_fetched : Z;
  pending_data : bytes;
  full_data : bytes;
  length_till_last_segment : Z;
  media_container : list segment;
  requests : list Z;
  checks : nat
}.

Definition init (s : T) (chunk0 : Z) (container : list segment) : state :=
  {| stream := s; chunk := chunk0; size_fetched := 0;
     pending_data := []; full_data := [];
     length_till_last_segment := 0;
     media_container := container; requests := []; checks := 0 |}.

(** [media_container.append(seg)] *)
Definition append (seg : segment) (w : state) : state :=
  {| stream := stream w; chunk := chunk w; size_fetched := size_fetched w;
     pending_data := pending_data w; full_data := full_data w;
     length_till_last_segment := length_till_last_segment w;
     media_container := media_container w ++ [seg];
     requests := requests w; checks := checks w |}.

(** Lines 366-367: the read and [pending_data += data]. *)
Definition do_read (w : state) : bytes * state :=
  let '(data, s') := read (chunk w) (stream w) in
  (data,
   {| stream := s'; chunk := chunk w; size_fetched := size_fetched w;
      pending_data := pending_data w ++ data; full_data := full_data w;
      length_till_last_segment := length_till_last_segment w;
      media_container := media_container w;
      requests := requests w ++ [chunk w]; checks := checks w |}).

(** Lines 370-371: the chunk is cut down to [total_size - size_fetched],
    with [size_fetched] not yet counting the bytes just read. *)
Definition shrink (w : state) : state :=
  if total_size - size_fetched w <? chunk w then
    {| stream := stream w; chunk := total_size - size_fetched w;
       size_fetched := size_fetched w;
       pending_data := pending_data w; full_data := full_data w;
       length_till_last_segment := length_till_last_segment w;
       media_container := media_container w;
       requests := requests w; checks := checks w |}
  else w.

(** Lines 378-388: count the bytes, extend [full_data], probe it and,
    when the probe succeeds, publish the pending bytes. *)
Definition account (data : bytes) (w : state) : state :=
  let full := full_data w ++ data in
  match ogg_length full with
  | Some length_till_now =>
      {| stream := stream w; chunk := chunk w;
         size_fetched := size_fetched w + len data;
         pending_data := []; full_data := full;
         length_till_last_segment := length_till_now;
         media_container :=
           media_container w
             ++ [(length_till_now - length_till_last_segment w, pending_data w)];
         requests := requests w; checks := checks w |}
  | None =>
      {| stream := stream w; chunk := chunk w;
         size_fetched := size_fetched w + len data;
         pending_data := pending_data w; full_data := full;
         length_till_last_segment := length_till_last_segment w;
         media_container := media_container w;
         requests := requests w; checks := checks w |}
  end.

Definition tick (w : state) : state :=
  {| stream := stream w; chunk := chunk w; size_fetched := size_fetched w;
     pending_data := pending_data w; full_data := full_data w;
     length_till_last_segment := length_till_last_segment w;
     media_container := media_container w;
     requests := requests w; checks := S (checks w) |}.

(** The loop condition of line 365. *)
Definition running (w : state) : bool :=
  (size_fetched w <? total_size) && negb (halt (checks w)).

(** What one pass through the loop head leads to. *)
Inductive next := Again (w : state) | Stop (e : exit) (w : state).

(** The loop condition and one pass of the body (lines 365-388); when
    the loop is left by the condition or by [break], the append of
    line 389 follows. *)
Definition pass (w : state) : next :=
  if running w then
    let '(data, w1) := do_read (tick w) in
    if (len data =? 0) && (chunk w1 <=? skip_at_end) then
      Stop Returned (append sentinel w1)
    else
      let w2 := shrink w1 in
      if (len data =? 0) && (chunk w2 >? skip_at_end) then
        Stop (Raised StreamReadException) (append sentinel w2)
      else
        Again (account data w2)
  else Stop Returned (append sentinel (tick w)).

(** The [while] loop; [None] means the fuel ran out. *)
Fixpoint loop (fuel : nat) (w : state) : option (exit * state) :=
  match fuel with
  | O => None
  | S fuel' =>
      match pass w with
      | Again w' => loop fuel' w'
      | Stop e w' => Some (e, w')
      end
  end.

(** Iterations still possible from [w]: every pass that neither leaves
    the loop nor reads a byte lowers the chunk from above the tolerance
    to at most the tolerance. *)
Definition measure (w : state) : nat :=
  (2 * Z.to_nat (total_size - size_fetched w)
   + (if chunk w >? skip_at_end then 1 else 0))%nat.

End Model.

Arguments state T : clear implicits.
Arguments next T : clear implicits.

(** [fetch_thread_worker(media_container, media_stream, chunk, skip_at_end,
    halt_marker)], the flag being given by what the worker comes to see
    of it. *)
Definition fetch_thread_worker {T : Type} `{InputStream T} `{OggProbe}
           (halt : nat -> bool) (media_container0 : list segment) (media_stream : T)
           (chunk0 skip_at_end : Z) : option (exit * state T) :=
  let total_size := size media_stream in
  let w := init media_stream chunk0 media_container0 in
  loop halt total_size skip_at_end (S (measure total_size skip_at_end w)) w.

End Worker.

(** ** [AbstractMediaItem.get_media] *)
Module Bulk.

(** The progress texts passed to [pg_notify]. *)
Inductive phase := Downloading | ReadError | Cancelled.

(** [self.id not in stop_check_list] is [negb (mem id l)]. *)
Definition mem (id : string) (l : list string) : bool :=
  existsb (String.eqb id) l.

(** [l.pop(l.index(id))]: the first occurrence goes. *)
Fixpoint pop_index (id : string) (l : list string) : list string :=
  match l with
  | [] => []
  | x :: r => if String.eqb id x then r else x :: pop_index id r
  end.

Section Model.
Context {T : Type} `{InputStream T}.

(** What [media_stream_as_user] depends on: the child's
    [_fetch_metadata], [OTSLIB_DEBUG_MSTREAM], the content feeder, and
    [self._user]. *)
Variable fetch : option Py.dict -> bool -> option Py.dict * bool.
Variable debug_mstream : Z.
Variable load : Py.value -> bool -> Access.quality -> Access.loading T.
Variable _user : option Access.user.

(** [self.id] *)
Variable id : string.

(** The caller's callback, or [None]: line 269 tests for it.  A callback
    is taken to return.  The stop list is shared with the caller, whose
    code runs here only inside the callback, so the callback is where the
    list can change. *)
Variable pg_notify : option (Z -> Z -> phase -> list string -> list string).

Variable skip_at_end_bytes : Z.

(** The item, the locals of [get_media], the shared list, and two ghost
    fields: the calls of [pg_notify] and the sizes passed to [read]. *)
Record state := {
  item : Access.item T;
  raw_media : bytes;
  chunk_size : Z;
  stop_check_list : list string;
  progress : list (Z * Z * phase);
  requests : list Z
}.

(** [self.__stream] *)
Definition stream (g : state) : option T := Access.stream (item g).

Definition with_item (i : Access.item T) (g : state) : state :=
  {| item := i; raw_media := raw_media g; chunk_size := chunk_size g;
     stop_check_list := stop_check_list g; progress := progress g;
     requests := requests g |}.

(** The property [media_stream], read on the item of [g]. *)
Definition media_stream (g : state) : (T + exn) * state :=
  let '(r, i) := Item.media_stream fetch debug_mstream load _user (item g) in
  (r, with_item i g).

(** [AbstractMediaItem.reset_stream] *)
Definition reset_stream (g : state) : state :=
  with_item (Access.reset_stream (item g)) g.

(** [pg_notify(a, b, text)]; calling [None] is a [TypeError], which is
    the [None] here. *)
Definition call (a b : Z) (ph : phase) (g : state) : option state :=
  match pg_notify with
  | None => None
  | Some callback =>
      Some {| item := item g; raw_media := raw_media g; chunk_size := chunk_size g;
              stop_check_list := callback a b ph (stop_check_list g);
              progress := progress g ++ [(a, b, ph)];
              requests := requests g |}
  end.

(** Lines 269-270: the call under [if pg_notify is not None]. *)
Definition notify (a b : Z) (ph : phase) (g : state) : state :=
  match call a b ph g with
  | Some g' => g'
  | None => g
  end.

(** Lines 266-268. *)
Definition do_read (g : state) : (bytes + exn) * state :=
  match media_stream g with
  | (inr e, g1) => (inr e, g1)
  | (inl s, g1) =>
      let '(data, s') := read (chunk_size g1) s in
      (inl data,
       {| item := Item.holding s' (item g1);
          raw_media := if negb (len data =? 0) then raw_media g1 ++ data
                       else raw_media g1;
          chunk_size := chunk_size g1;
          stop_check_list := stop_check_list g1; progress := progress g1;
          requests := requests g1 ++ [chunk_size g1] |})
  end.

(** Lines 273-274: [raw_media] already holds the bytes just read. *)
Definition shrink (total_size : Z) (g : state) : state :=
  if total_size - len (raw_media g) <? chunk_size g then
    {| item := item g; raw_media := raw_media g;
       chunk_size := total_size - len (raw_media g);
       stop_check_list := stop_check_list g; progress := progress g;
       requests := requests g |}
  else g.

Definition running (total_size : Z) (g : state) : bool :=
  (len (raw_media g) <? total_size) && negb (mem id (stop_check_list g)).

(** What one pass through the loop head leads to. *)
Inductive next := Again (g : state) | Stop (e : exit) (g : state).

(** The loop condition and one pass of the body (lines 265-281);
    [Stop Returned] is leaving the loop by the condition or by
    [break].  The call of line 276 is not under the test of line 269. *)
Definition pass (total_size : Z) (g : state) : next :=
  if running total_size g then
    match do_read g with
    | (inr e, g1) => Stop (Raised e) g1
    | (inl data, g1) =>
        let g2 := notify (len (raw_media g1)) total_size Downloading g1 in
        if (len data =? 0) && (chunk_size g2 <=? skip_at_end_bytes) then
          Stop Returned g2
        else
          let g3 := shrink total_size g2 in
          if (len data =? 0) && (chunk_size g3 >? skip_at_end_bytes) then
            match call 0 1 ReadError g3 with
            | None => Stop (Raised TypeError) g3
            | Some g4 => Stop (Raised StreamReadException) (reset_stream g4)
            end
          else Again g3
    end
  else Stop Returned g.

(** The [while] loop; [None] means the fuel ran out. *)
Fixpoint loop (fuel : nat) (total_size : Z) (g : state) : option (exit * state) :=
  match fuel with
  | O => None
  | S fuel' =>
      match pass total_size g with
      | Again g' => loop fuel' total_size g'
      | Stop e g' => Some (e, g')
      end
  end.

(** Lines 282-288.  The call of line 284 is not under the test of line
    269 either; it comes after the [pop] and before [reset_stream]. *)
Definition conclude (g : state) : exit * state :=
  if mem id (stop_check_list g) then
    let g1 :=
      {| item := item g; raw_media := raw_media g; chunk_size := chunk_size g;
         stop_check_list := pop_index id (stop_check_list g);
         progress := progress g; requests := requests g |} in
    match call 0 1 Cancelled g1 with
    | None => (Raised TypeError, g1)
    | Some g2 => (Raised MediaFetchInterruptedException, reset_stream g2)
    end
  else (Returned, reset_stream g).

Definition measure (total_size : Z) (g : state) : nat :=
  (2 * Z.to_nat (total_size - len (raw_media g))
   + (if chunk_size g >? skip_at_end_bytes then 1 else 0))%nat.

(** Lines 261-263; [i] is the item at the call. *)
Definition init (i : Access.item T) (chunk_size0 : Z)
           (stop_check_list0 : option (list string)) : state :=
  {| item := i;
     raw_media := []; chunk_size := chunk_size0;
     stop_check_list := match stop_check_list0 with Some l => l | None => [] end;
     progress := []; requests := [] |}.

(** [get_media].  Line 264 reads [self.media_stream] for the size, which
    may raise; after it the item holds the stream.  On [Returned] the
    value returned is the final [raw_media]. *)
Definition get_media (i : Access.item T) (chunk_size0 : Z)
           (stop_check_list0 : option (list string)) : option (exit * state) :=
  match media_stream (init i chunk_size0 stop_check_list0) with
  | (inr e, g0) => Some (Raised e, g0)
  | (inl s, g0) =>
      let total_size := size s in
      match loop (S (measure total_size g0)) total_size g0 with
      | Some (Returned, g) => Some (conclude g)
      | r => r
      end
  end.

End Model.

Arguments state T : clear implicits.
Arguments next T : clear implicits.

End Bulk.

(** ** The scheduling loop of [AbstractMediaItem.play] *)
Module Player.

(** The two exceptions the loop catches. *)
Inductive signal := KeyboardInterrupt | BrokenPipeError.

(** How the [while True] loop is left: [break] on the empty payload, the
    [except] branch, or the [RuntimeError] of the watchdog. *)
Inductive leave := Break | Interrupted | Stalled.

Inductive flow := Continue | Leave (l : leave).

Section Model.
Context {T : Type}.

(** [clock k] is what the [k]-th call of [time.time()] returns. *)
Variable clock : nat -> Z.

(** [arrivals i]: what the worker thread has appended to [container]
    since the previous look, when pass [i] of the loop tests
    [len(container) > 0]. *)
Variable arrivals : nat -> list segment.

(** [signals i]: a [KeyboardInterrupt] delivered as pass [i] starts, or
    a [BrokenPipeError] raised by the write of pass [i]. *)
Variable signals : nat -> option signal.

(** The item, the locals of [play], and effects: [stdin], the bytes
    written to the player; [slept], the arguments of [time.sleep];
    ghost counters of clock reads and of passes. *)
Record state := {
  item : Access.item T;
  container : list segment;
  stop_marker : Utils.MutableBool;
  estimated_playback_end_on : Z;
  next_frame_critical_time : Z;
  last_frame_on : Z;
  stdin : bytes;
  slept : list Z;
  ticks : nat;
  rounds : nat
}.

(** [self.__stream] *)
Definition stream (p : state) : option T := Access.stream (item p).

Definition upd_item (v : Access.item T) (p : state) : state :=
  {| item := v; container := container p; stop_marker := stop_marker p;
     estimated_playback_end_on := estimated_playback_end_on p;
     next_frame_critical_time := next_frame_critical_time p;
     last_frame_on := last_frame_on p; stdin := stdin p; slept := slept p;
     ticks := ticks p; rounds := rounds p |}.

Definition upd_container (v : list segment) (p : state) : state :=
  {| item := item p; container := v; stop_marker := stop_marker p;
     estimated_playback_end_on := estimated_playback_end_on p;
     next_frame_critical_time := next_frame_critical_time p;
     last_frame_on := last_frame_on p; stdin := stdin p; slept := slept p;
     ticks := ticks p; rounds := rounds p |}.

Definition upd_stop_marker (v : Utils.MutableBool) (p : state) : state :=
  {| item := item p; container := container p; stop_marker := v;
     estimated_playback_end_on := estimated_playback_end_on p;
     next_frame_critical_time := next_frame_critical_time p;
     last_frame_on := last_frame_on p; stdin := stdin p; slept := slept p;
     ticks := ticks p; rounds := rounds p |}.

Definition upd_end_on (v : Z) (p : state) : state :=
  {| item := item p; container := container p; stop_marker := stop_marker p;
     estimated_playback_end_on := v;
     next_frame_critical_time := next_frame_critical_time p;
     last_frame_on := last_frame_on p; stdin := stdin p; slept := slept p;
     ticks := ticks p; rounds := rounds p |}.

Definition upd_critical (v : Z) (p : state) : state :=
  {| item := item p; container := container p; stop_marker := stop_marker p;
     estimated_playback_end_on := estimated_playback_end_on p;
     next_frame_critical_time := v;
     last_frame_on := last_frame_on p; stdin := stdin p; slept := slept p;
     ticks := ticks p; rounds := rounds p |}.

Definition upd_last_frame (v : Z) (p : state) : state :=
  {| item := item p; container := container p; stop_marker := stop_marker p;
     estimated_playback_end_on := estimated_playback_end_on p;
     next_frame_critical_time := next_frame_critical_time p;
     last_frame_on := v; stdin := stdin p; slept := slept p;
     ticks := ticks p; rounds := rounds p |}.

Definition upd_stdin (v : bytes) (p : state) : state :=
  {| item := item p; container := container p; stop_marker := stop_marker p;
     estimated_playback_end_on := estimated_playback_end_on p;
     next_frame_critical_time := next_frame_critical_time p;
     last_frame_on := last_frame_on p; stdin := v; slept := slept p;
     ticks := ticks p; rounds := rounds p |}.

(** [time.sleep(d)], [d] in milliseconds. *)
Definition sleep (d : Z) (p : state) : state :=
  {| item := item p; container := container p; stop_marker := stop_marker p;
     estimated_playback_end_on := estimated_playback_end_on p;
     next_frame_critical_time := next_frame_critical_time p;
     last_frame_on := last_frame_on p; stdin := stdin p;
     slept := slept p ++ [d];
     ticks := ticks p; rounds := rounds p |}.

(** [time.time()] *)
Definition now (p : state) : Z * state :=
  (clock (ticks p),
   {| item := item p; container := container p; stop_marker := stop_marker p;
      estimated_playback_end_on := estimated_playback_end_on p;
      next_frame_critical_time := next_frame_critical_time p;
      last_frame_on := last_frame_on p; stdin := stdin p; slept := slept p;
      ticks := S (ticks p); rounds := rounds p |}).

Definition next_round (p : state) : state :=
  {| item := item p; container := container p; stop_marker := stop_marker p;
     estimated_playback_end_on := estimated_playback_end_on p;
     next_frame_critical_time := next_frame_critical_time p;
     last_frame_on := last_frame_on p; stdin := stdin p; slept := slept p;
     ticks := ticks p; rounds := S (rounds p) |}.

(** [AbstractMediaItem.reset_stream] *)
Definition reset_stream (p : state) : state :=
  upd_item (Access.reset_stream (item p)) p.

(** [stop_marker.set(True)] and [thread.join(timeout=2)]; the join
    changes nothing the loop looks at (the time it takes is the
    clock's business). *)
Definition halt_thread (p : state) : state :=
  upd_stop_marker (Utils.set true (stop_marker p)) p.

(** Lines 426-429: the deadline missed by more than 30 ms. *)
Definition lag_compensation (p : state) : state :=
  if next_frame_critical_time p =? 0 then p
  else
    let '(t1, p1) := now p in
    if t1 >? next_frame_critical_time p1 + 30 then
      let '(t2, p2) := now p1 in
      let p3 :=
        upd_end_on (estimated_playback_end_on p2
                    + (t2 - next_frame_critical_time p2)) p2 in
      (* the clock read of the [print] *)
      snd (now p3)
    else p1.

(** Lines 430-432. *)
Definition start_playback (p : state) : state :=
  if estimated_playback_end_on p =? 0 then
    let '(t, p1) := now p in upd_end_on t p1
  else p.

(** Lines 425-433, a segment being there: the time is noted, the lag
    made up for, the playback start fixed and the segment popped, which
    leaves [rest]. *)
Definition receive (rest : list segment) (p : state) : state :=
  let '(t, p) := now p in
  let p := upd_last_frame (t ÷ 1000) p in
  let p := lag_compensation p in
  let p := start_playback p in
  upd_container rest p.

(** Lines 438-439: the write that went through, and the next deadline. *)
Definition deliver (segment : segment) (p : state) : state :=
  let p := upd_stdin (stdin p ++ snd segment) p in
  let '(t, p) := now p in
  upd_critical (t + fst segment) p.

(** One pass of the body of [while True] (lines 418-447). *)
Definition step (p : state) : flow * state :=
  let i := rounds p in
  let p := next_round p in
  match signals i with
  | Some KeyboardInterrupt => (Leave Interrupted, halt_thread p)
  | _ =>
      let '(t, p) := now p in
      if t ÷ 1000 - last_frame_on p >? 15 then
        (Leave Stalled, halt_thread p)
      else
        let p := upd_container (container p ++ arrivals i) p in
        match container p with
        | [] => (Continue, sleep 100 p)
        | segment :: rest =>
            let p := receive rest p in
            let playable_bytes := snd segment in
            if len playable_bytes =? 0 then (Leave Break, p)
            else
              let p := upd_end_on (estimated_playback_end_on p + fst segment) p in
              match signals i with
              | Some BrokenPipeError => (Leave Interrupted, halt_thread p)
              | _ => (Continue, deliver segment p)
              end
        end
  end.

(** The state reached after at most [n] passes, and whether the loop
    has been left by then. *)
Fixpoint run (n : nat) (p : state) : flow * state :=
  match n with
  | O => (Continue, p)
  | S n' =>
      match step p with
      | (Continue, p') => run n' p'
      | r => r
      end
  end.

Fixpoint loop (fuel : nat) (p : state) : option (leave * state) :=
  match fuel with
  | O => None
  | S fuel' =>
      match step p with
      | (Continue, p') => loop fuel' p'
      | (Leave l, p') => Some (l, p')
      end
  end.

(** Lines 448-460.  A [BrokenPipeError] while closing is swallowed. *)
Definition finish (p : state) : exit * state :=
  let '(t1, p) := now p in
  let '(time_to_wait, p) :=
    if estimated_playback_end_on p >? t1 then
      let '(t2, p) := now p in ((estimated_playback_end_on p - t2) ÷ 1000, p)
    else (0, p) in
  (* the clock read of the [print] *)
  let p := snd (now p) in
  if negb (Utils.to_bool (stop_marker p)) then
    if time_to_wait <? 0 then (Raised ValueError, p)
    else (Returned, reset_stream (sleep (1000 * time_to_wait) p))
  else (Returned, reset_stream p).

(** Lines 391-392 and 414-415: the locals before the loop, the item
    being [i]. *)
Definition idle (i : Access.item T) (stop_marker0 : option Utils.MutableBool) : state :=
  let marker :=
    match stop_marker0 with Some m => m | None => Utils.new false end in
  {| item := i; container := []; stop_marker := marker;
     estimated_playback_end_on := 0; next_frame_critical_time := 0;
     last_frame_on := 0; stdin := []; slept := []; ticks := 0; rounds := 0 |}.

(** Line 416: the state in which the loop is entered, [i] being the
    item once line 406 has obtained the stream. *)
Definition enter (i : Access.item T) (stop_marker0 : option Utils.MutableBool) : state :=
  let '(t, p) := now (idle i stop_marker0) in
  upd_last_frame (t ÷ 1000) p.

(** What [media_stream_as_user] depends on, and [self._user]. *)
Variable fetch : option Py.dict -> bool -> option Py.dict * bool.
Variable debug_mstream : Z.
Variable load : Py.value -> bool -> Access.quality -> Access.loading T.
Variable _user : option Access.user.

(** Lines 393-406, [i] being the item at the call.  [popen] tells
    whether [subprocess.Popen] starts the player; when it cannot, its
    [OSError] leaves [play] at once.  Then the stream is reset and
    [self.media_stream] read for the worker thread, which may raise. *)
Definition start (popen : bool) (i : Access.item T) : (T + exn) * Access.item T :=
  if popen then
    Item.media_stream fetch debug_mstream load _user (Access.reset_stream i)
  else (inr OSError, i).

(** [play], seen from the calling thread. *)
Definition play (fuel : nat) (popen : bool) (i : Access.item T)
           (stop_marker0 : option Utils.MutableBool) : option (exit * state) :=
  match start popen i with
  | (inr e, i1) => Some (Raised e, idle i1 stop_marker0)
  | (inl _, i1) =>
      match loop fuel (enter i1 stop_marker0) with
      | None => None
      | Some (Stalled, p) => Some (Raised RuntimeError, p)
      | Some (_, p) => Some (finish p)
      end
  end.

End Model.

Arguments state T : clear implicits.

End Player.

(** ** A scripted transport, a toy prober *)

(** A stream whose transport hands out [content] in the portions of
    [script]: the [k]-th call of [read n] delivers at most [n] and at most
    the [k]-th script entry bytes; once the script is used up nothing
    arrives any more. *)
Record Scripted := {
  declared : Z;
  content : bytes;
  script : list Z
}.

Definition scripted_read (n : Z) (s : Scripted) : bytes * Scripted :=
  match script s with
  | [] => ([], s)
  | a :: rest =>
      let k := Z.to_nat (Z.min n a) in
      (firstn k (content s),
       {| declared := declared s; content := skipn k (content s); script := rest |})
  end.

#[export] Instance Scripted_stream : InputStream Scripted :=
  {| size := declared; read := scripted_read |}.

(** A prober that needs [header] bytes and then reports [rate] ms per byte. *)
Definition toy_probe (header rate : Z) : OggProbe :=
  {| ogg_length := fun b => if len b <? header then None else Some (rate * len b) |}.

Definition blob (n : nat) : bytes := repeat x41 n.


(** ** One schedule of a whole session *)
Module Session.

(** Everything the worker appends is there when the loop first looks. *)
Definition all_at_once (q : list segment) (i : nat) : list segment :=
  match i with O => q | S _ => [] end.

Section Model.
Context {T : Type} `{InputStream T} `{OggProbe}.
Variable clock : nat -> Z.
Variable signals : nat -> option Player.signal.
Variable fetch : option Py.dict -> bool -> option Py.dict * bool.
Variable debug_mstream : Z.
Variable load : Py.value -> bool -> Access.quality -> Access.loading T.
Variable _user : option Access.user.

(** [bool(halt_marker)] while the calling thread has not touched the
    flag: the caller's marker, or the fresh [MutableBool(False)]. *)
Definition seen (stop_marker0 : option Utils.MutableBool) : bool :=
  match stop_marker0 with Some m => Utils.to_bool m | None => false end.

(** [play] under the schedule in which the worker thread, once started,
    runs to its end before the calling thread enters its loop: the
    worker sees the flag as the caller passed it and the loop finds the
    whole list.  When [play] is left before the thread is started there
    is no worker run, and nothing is handed over. *)
Definition worker_first (fuel : nat) (popen : bool) (i : Access.item T)
           (chunk_size skip_at_end_bytes : Z)
           (stop_marker0 : option Utils.MutableBool)
  : option (option (exit * Worker.state T) * (exit * Player.state T)) :=
  match Player.start fetch debug_mstream load _user popen i with
  | (inr _, _) =>
      match Player.play clock (all_at_once []) signals fetch debug_mstream load _user
                        fuel popen i stop_marker0 with
      | None => None
      | Some r => Some (None, r)
      end
  | (inl media_stream, _) =>
      match Worker.fetch_thread_worker (fun _ => seen stop_marker0) [] media_stream
                                       chunk_size skip_at_end_bytes with
      | None => None
      | Some (wexit, w) =>
          match Player.play clock (all_at_once (Worker.media_container w)) signals
                            fetch debug_mstream load _user
                            fuel popen i stop_marker0 with
          | None => None
          | Some r => Some (Some (wexit, w), r)
          end
      end
  end.

End Model.

End Session.



(** ** [pick_thumbnail] ([common/utils.py]) *)
Module Thumbs.

(** An entry of [covers].  [height] and [width] are numbers, or [None]
    for a value such as JSON [null], on which [*] raises [TypeError]. *)
Record cover := {
  height : option Z;
  width : option Z;
  url : string
}.

(** [image['height'] * image['width']]; [None] is the [TypeError]. *)
Definition area (c : cover) : option Z :=
  match height c, width c with
  | Some h, Some w => Some (h * w)
  | _, _ => None
  end.

(** The key under which the loop files a cover: its area, or [0] in the
    [except] branch. *)
Definition key_of (c : cover) : Z :=
  match area c with Some a => a | None => 0 end.

(** The dict [images], its items in insertion order: [images[k] = v]. *)
Fixpoint set_item (k : Z) (v : string) (images : list (Z * string)) : list (Z * string) :=
  match images with
  | [] => [(k, v)]
  | (k', v') :: rest =>
      if k' =? k then (k, v) :: rest else (k', v') :: set_item k v rest
  end.

(** [images[k]]; [None] would be a [KeyError]. *)
Fixpoint get_item (k : Z) (images : list (Z * string)) : option string :=
  match images with
  | [] => None
  | (k', v') :: rest => if k' =? k then Some v' else get_item k rest
  end.

(** The first loop (lines 201-207). *)
Definition collect (covers : list cover) : list (Z * string) :=
  fold_left (fun images image => set_item (key_of image) (url image) images) covers [].

Fixpoint insert (x : Z) (l : list Z) : list Z :=
  match l with
  | [] => [x]
  | y :: rest => if x <=? y then x :: l else y :: insert x rest
  end.

(** [sorted(images)]: the keys in ascending order. *)
Definition sorted (keys : list Z) : list Z := fold_right insert [] keys.

(** The second loop (lines 209-211): the first size that is enough. *)
Fixpoint first_at_least (preferred_size : Z) (available_sizes : list Z) : option Z :=
  match available_sizes with
  | [] => None
  | size :: rest =>
      if size >=? preferred_size then Some size
      else first_at_least preferred_size rest
  end.

Definition lookup (k : Z) (images : list (Z * string)) : string :=
  match get_item k images with Some v => v | None => EmptyString end.

Definition pick_thumbnail (covers : list cover) (preferred_size : Z) : string :=
  let images := collect covers in
  let available_sizes := sorted (map fst images) in
  match first_at_least preferred_size available_sizes with
  | Some size => lookup size images
  | None =>
      if len available_sizes >? 0
      then lookup (last available_sizes 0) images
      else EmptyString
  end.

(** The default [preferred_size]. *)
Definition default_size : Z := 640000.

End Thumbs.

(** ** [flatten_dictionary] ([common/utils.py]) *)
Module Flatten.
Import Py.

(** [f"{parent_key}{sep}{key}" if parent_key else key] *)
Definition new_key (parent_key sep key : string) : string :=
  if String.eqb parent_key EmptyString then key
  else (parent_key ++ sep ++ key)%string.

(** What the loop body does with one value filed under [key]: a nested
    dict is flattened on its own, from an empty dict, and merged in with
    [update]; anything else is stored. *)
Fixpoint flatten_value (v : value) (key sep : string) (flattened_dict : dict) : dict :=
  match v with
  | VDict d =>
      update flattened_dict
             ((fix items (l : list (string * value)) (inner : dict) : dict :=
                 match l with
                 | [] => inner
                 | (k, v') :: rest =>
                     items rest (flatten_value v' (new_key key sep k) sep inner)
                 end) d [])
  | _ => set_item key v flattened_dict
  end.

(** The loop over [input_dict.items()]. *)
Fixpoint flatten_items (l : list (string * value)) (parent_key sep : string)
         (flattened_dict : dict) : dict :=
  match l with
  | [] => flattened_dict
  | (k, v) :: rest =>
      flatten_items rest parent_key sep
                    (flatten_value v (new_key parent_key sep k) sep flattened_dict)
  end.

Definition flatten_dictionary (input_dict : dict) (parent_key sep : string) : dict :=
  flatten_items input_dict parent_key sep [].

End Flatten.

(** ** [get_thumbnail_url], [get_thumbnail] ([core/__base__.py]) *)
Module Artwork.

(** [self._covers], [self._thumbnail] (the content of the [BytesIO], or
    [None]), and a ghost count of the downloads. *)
Record state := {
  _covers : list Thumbs.cover;
  _thumbnail : option bytes;
  downloads : nat
}.

Inductive failure := ThumbnailUnavailableException.

Section Model.

(** What ends up in the buffer for a url: the image downloaded with
    [requests.get], turned to RGB and saved as png. *)
Variable render : string -> bytes.

(** [get_thumbnail_url] *)
Definition get_thumbnail_url (preferred_size : Z) (a : state) : string :=
  Thumbs.pick_thumbnail (_covers a) preferred_size.

(** [get_thumbnail]: the buffer is created before the url is looked at. *)
Definition get_thumbnail (preferred_size : Z) (a : state) : (bytes + failure) * state :=
  match _thumbnail a with
  | None =>
      let a1 := {| _covers := _covers a; _thumbnail := Some []; downloads := downloads a |} in
      let thumbnail_url := get_thumbnail_url preferred_size a1 in
      if String.eqb thumbnail_url EmptyString then
        (inr ThumbnailUnavailableException, a1)
      else
        let png := render thumbnail_url in
        (inl png,
         {| _covers := _covers a; _thumbnail := Some png; downloads := S (downloads a) |})
  | Some content => (inl content, a)
  end.

(** The property [hq_thumbnail]. *)
Definition hq_thumbnail (a : state) : (bytes + failure) * state :=
  get_thumbnail Thumbs.default_size a.

End Model.

End Artwork.
(** ** Measures on the hand-off list *)

(** The sum of the durations of a list of segments. *)
Definition total_duration (q : list segment) : Z :=
  fold_right Z.add 0 (map fst q).

(** The payloads of a list of segments, in order. *)
Definition payload (q : list segment) : bytes := List.concat (map snd q).

(** ** Case analysis and invariants of the worker *)
Module WorkerSpec.
Import Worker.

Section Spec.
Context {T : Type} `{InputStream T} `{OggProbe}.
Variable halt : nat -> bool.
Variables total_size skip_at_end : Z.

Local Abbreviation pass := (Worker.pass halt total_size skip_at_end).
Local Abbreviation running := (Worker.running halt total_size).
Local Abbreviation shrink := (Worker.shrink total_size).

(** The four ways through [pass], with the bytes read made explicit. *)
Inductive pass_spec (w : state T) : next T -> Prop :=
| PassIdle :
    running w = false ->
    pass_spec w (Stop Returned (append sentinel (tick w)))
| PassBreak s' :
    running w = true ->
    read (chunk w) (stream w) = ([], s') ->
    chunk w <= skip_at_end ->
    pass_spec w (Stop Returned (append sentinel (snd (do_read (tick w)))))
| PassRaise s' :
    running w = true ->
    read (chunk w) (stream w) = ([], s') ->
    skip_at_end < chunk w ->
    skip_at_end < chunk (shrink (snd (do_read (tick w)))) ->
    pass_spec w (Stop (Raised StreamReadException)
                      (append sentinel (shrink (snd (do_read (tick w))))))
| PassAgain data s' :
    running w = true ->
    read (chunk w) (stream w) = (data, s') ->
    (data = [] -> skip_at_end < chunk w
                  /\ chunk (shrink (snd (do_read (tick w)))) <= skip_at_end) ->
    pass_spec w (Again (account data (shrink (snd (do_read (tick w)))))).

End Spec.

(** At the loop head: what has been appended to the given list [q0] adds
    up to the duration attributed so far, and together with the pending
    bytes it is everything read. *)
Definition consistent {T : Type} (q0 : list segment) (w : state T) : Prop :=
  exists pub,
    media_container w = q0 ++ pub
    /\ total_duration pub = length_till_last_segment w
    /\ payload pub ++ pending_data w = full_data w.

(** The same once the worker has stopped, the end marker appended. *)
Definition finished {T : Type} (q0 : list segment) (w : state T) : Prop :=
  exists pub,
    media_container w = q0 ++ pub ++ [sentinel]
    /\ total_duration pub = length_till_last_segment w
    /\ payload pub ++ pending_data w = full_data w.

(** The duration attributed so far is that of the bytes read so far,
    whenever those bytes can be probed. *)
Definition decoded {T : Type} `{OggProbe} (w : state T) : Prop :=
  forall l, ogg_length (full_data w) = Some l -> length_till_last_segment w = l.

(** One read per evaluation of the loop condition, [k] evaluations at most. *)
Definition within {T : Type} (k : nat) (w : state T) : Prop :=
  List.length (requests w) = checks w /\ (checks w <= k)%nat.

End WorkerSpec.

(** ** Schedules and clocks *)

(** What the worker thread hands over during passes [i], ..., [i + n - 1]. *)
Fixpoint arrived (arrivals : nat -> list segment) (i n : nat) : list segment :=
  match n with
  | O => []
  | S n' => arrivals i ++ arrived arrivals (S i) n'
  end.

(** The passes are handed the list [q], piece after piece in its order. *)
Definition delivers (arrivals : nat -> list segment) (q : list segment) : Prop :=
  forall n, exists tl, arrived arrivals 0 n ++ tl = q.

(** A clock that never goes back and moves at most a second between two
    reads. *)
Definition steady (clock : nat -> Z) : Prop :=
  forall n, clock n <= clock (S n) <= clock n + 1000.

(** No [KeyboardInterrupt] and no [BrokenPipeError]. *)
Definition quiet (signals : nat -> option Player.signal) : Prop :=
  forall i, signals i = None.

(** The last frame was noted at most six clock reads ago. *)
Definition recent {T : Type} (clock : nat -> Z) (p : Player.state T) : Prop :=
  exists k0, Player.last_frame_on p = clock k0 ÷ 1000
             /\ (k0 <= Player.ticks p <= k0 + 6)%nat.

(** In [get_media]: a chunk size within the tolerance comes from a remainder
    within the tolerance. *)
Definition settled {T : Type} (total_size skip_at_end_bytes : Z) (g : Bulk.state T) : Prop :=
  Bulk.chunk_size g <= skip_at_end_bytes ->
  total_size - len (Bulk.raw_media g) <= skip_at_end_bytes.

(** A user is set and passes the test of line 296 of
    [media_stream_as_user]. *)
Definition admitted (debug_mstream : Z) (_user : option Access.user) : Prop :=
  exists u, _user = Some u
            /\ negb (Access.is_premium u) && (debug_mstream =? 0) = false.

(** ** Case analysis of a pass of the scheduling loop *)
Module PlayerSpec.
Import Player.

Section Spec.
Context {T : Type}.
Variable clock : nat -> Z.
Variable arrivals : nat -> list segment.
Variable signals : nat -> option signal.

(** The state once the head of [seg :: rest] has been popped. *)
Definition taken (seg : segment) (rest : list segment) (p : state T) : state T :=
  receive clock rest (upd_container (seg :: rest) (snd (now clock (next_round p)))).

(** Line 437. *)
Definition counted (seg : segment) (p : state T) : state T :=
  upd_end_on (estimated_playback_end_on p + fst seg) p.

(** The watchdog of line 419 lets the pass go on. *)
Definition alive (p : state T) : Prop :=
  clock (ticks p) ÷ 1000 - last_frame_on p <= 15.

Inductive step_spec (p : state T) : flow * state T -> Prop :=
| StepInterrupt :
    signals (rounds p) = Some KeyboardInterrupt ->
    step_spec p (Leave Interrupted, halt_thread (next_round p))
| StepStall :
    signals (rounds p) <> Some KeyboardInterrupt ->
    ~ alive p ->
    step_spec p (Leave Stalled, halt_thread (snd (now clock (next_round p))))
| StepIdle :
    signals (rounds p) <> Some KeyboardInterrupt ->
    alive p ->
    container p ++ arrivals (rounds p) = [] ->
    step_spec p (Continue,
                 sleep 100 (upd_container [] (snd (now clock (next_round p)))))
| StepBreak seg rest :
    signals (rounds p) <> Some KeyboardInterrupt ->
    alive p ->
    container p ++ arrivals (rounds p) = seg :: rest ->
    snd seg = [] ->
    step_spec p (Leave Break, taken seg rest p)
| StepPipe seg rest :
    signals (rounds p) = Some BrokenPipeError ->
    alive p ->
    container p ++ arrivals (rounds p) = seg :: rest ->
    snd seg <> [] ->
    step_spec p (Leave Interrupted, halt_thread (counted seg (taken seg rest p)))
| StepDeliver seg rest :
    signals (rounds p) = None ->
    alive p ->
    container p ++ arrivals (rounds p) = seg :: rest ->
    snd seg <> [] ->
    step_spec p (Continue, deliver clock seg (counted seg (taken seg rest p))).

End Spec.
End PlayerSpec.

(** ** Case analysis of a pass of [get_media] *)
Module BulkSpec.
Import Bulk.

Section Spec.
Context {T : Type} `{InputStream T}.
Variable fetch : option Py.dict -> bool -> option Py.dict * bool.
Variable debug_mstream : Z.
Variable load : Py.value -> bool -> Access.quality -> Access.loading T.
Variable _user : option Access.user.
Variable id : string.
Variable pg_notify : option (Z -> Z -> phase -> list string -> list string).
Variable skip_at_end_bytes : Z.
Variable total_size : Z.

(** The user may stream and the item holds a stream. *)
Definition ready (g : state T) : Prop :=
  admitted debug_mstream _user /\ exists s, stream g = Some s.

(** The state after the read and the progress call of lines 266-270. *)
Definition noted (g : state T) : state T :=
  let g1 := snd (do_read fetch debug_mstream load _user g) in
  notify pg_notify (len (raw_media g1)) total_size Downloading g1.

Inductive pass_spec (g : state T) : next T -> Prop :=
| PassIdle :
    running id total_size g = false ->
    pass_spec g (Stop Returned g)
| PassDenied e g1 :
    running id total_size g = true ->
    media_stream fetch debug_mstream load _user g = (inr e, g1) ->
    pass_spec g (Stop (Raised e) g1)
| PassBreak s g1 s' :
    running id total_size g = true ->
    media_stream fetch debug_mstream load _user g = (inl s, g1) ->
    read (chunk_size g) s = ([], s') ->
    chunk_size g <= skip_at_end_bytes ->
    pass_spec g (Stop Returned (noted g))
| PassRaise s g1 s' g4 :
    running id total_size g = true ->
    media_stream fetch debug_mstream load _user g = (inl s, g1) ->
    read (chunk_size g) s = ([], s') ->
    skip_at_end_bytes < chunk_size g ->
    skip_at_end_bytes < chunk_size (shrink total_size (noted g)) ->
    call pg_notify 0 1 ReadError (shrink total_size (noted g)) = Some g4 ->
    pass_spec g (Stop (Raised StreamReadException) (reset_stream g4))
| PassUncallable s g1 s' :
    running id total_size g = true ->
    media_stream fetch debug_mstream load _user g = (inl s, g1) ->
    read (chunk_size g) s = ([], s') ->
    skip_at_end_bytes < chunk_size g ->
    skip_at_end_bytes < chunk_size (shrink total_size (noted g)) ->
    call pg_notify 0 1 ReadError (shrink total_size (noted g)) = None ->
    pass_spec g (Stop (Raised TypeError) (shrink total_size (noted g)))
| PassAgain s g1 data s' :
    running id total_size g = true ->
    media_stream fetch debug_mstream load _user g = (inl s, g1) ->
    read (chunk_size g) s = (data, s') ->
    (data = [] -> skip_at_end_bytes < chunk_size g
                  /\ chunk_size (shrink total_size (noted g)) <= skip_at_end_bytes) ->
    pass_spec g (Again (shrink total_size (noted g))).

End Spec.
End BulkSpec.

(** ** Concrete inputs *)
Module Examples.

(** A prober that wants four bytes and counts 10 ms a byte. *)
Definition probe : OggProbe := toy_probe 4 10.

(** A clock read every 10 ms. *)
Definition ticking (k : nat) : Z := 1000 + 10 * Z.of_nat k.

(** A clock read every 100 ms, as when each pass sleeps [0.1]. *)
Definition waiting (k : nat) : Z := 100 * Z.of_nat k.

(** A clock standing at 10.2 s. *)
Definition late (k : nat) : Z := 10200.

Definition no_signal (i : nat) : option Player.signal := None.

Definition nothing (i : nat) : list segment := [].

Definition never (k : nat) : bool := false.

(** 1000 bytes declared; 500 arrive, then the transport stays mute. *)
Definition broken : Scripted :=
  {| declared := 1000; content := blob 1000; script := [500; 0] |}.

(** 1000 bytes declared; the transport is mute from the start. *)
Definition mute : Scripted :=
  {| declared := 1000; content := blob 1000; script := [] |}.

(** 1124 bytes; the second read comes back empty, the third does not. *)
Definition stuttering : Scripted :=
  {| declared := 1124; content := blob 1124; script := [1024; 0; 1024] |}.

(** 2500 bytes, delivered as fast as they are asked for. *)
Definition fluent : Scripted :=
  {| declared := 2500; content := blob 2500; script := [5000; 5000; 5000; 5000] |}.

(** Three bytes: too few for the prober. *)
Definition stub : Scripted :=
  {| declared := 3; content := blob 3; script := [3] |}.

(** A track of which the id is known, holding the stream [s]. *)
Definition holder (s : Scripted) : Access.item Scripted :=
  {| Access.meta :=
       {| Meta._metadata :=
            Some [("scraped_id", Py.VStr "4uLU6hMCjMI75M1A2tKUQC")]%string;
          Meta._FULL_METADATA_ACQUIRED := false;
          Meta.fetches := 0 |};
     Access.media_type := 0;
     Access.use_audio_quality := Some Access.HIGH;
     Access.stream := Some s;
     Access.loads := 1 |}.

(** A callback that leaves the stop list alone. *)
Definition silent (a b : Z) (ph : Bulk.phase) (l : list string) : list string := l.


(** A pass about to start 200 ms after the deadline [10000]: one second
    of audio waits in the list, playback so far ends at [20000]. *)
Definition lagging : Player.state Scripted :=
  {| Player.item := holder fluent;
     Player.container := [(1000, blob 4)];
     Player.stop_marker := Utils.new false;
     Player.estimated_playback_end_on := 20000;
     Player.next_frame_critical_time := 10000;
     Player.last_frame_on := 9;
     Player.stdin := [];
     Player.slept := [];
     Player.ticks := 40;
     Player.rounds := 7 |}.

End Examples.

(** ** More concrete inputs *)
Module Scenario.

(** The flag is seen set from the third look at it on. *)
Definition from_third (k : nat) : bool := (2 <=? k)%nat.

(** A [KeyboardInterrupt] as the second pass starts. *)
Definition ctrl_c (i : nat) : option Player.signal :=
  match i with 1%nat => Some Player.KeyboardInterrupt | _ => None end.

(** What [play] starts from, the caller passing no marker. *)
Definition entered : Player.state Scripted :=
  Player.enter Examples.ticking (Examples.holder Examples.fluent) None.

(** A clock standing at 10.02 s. *)
Definition on_time (k : nat) : Z := 10020.

(** One second of audio, there at the first look. *)
Definition one_second : nat -> list segment :=
  Session.all_at_once [(1000, blob 4)].

(** Half a second of audio, the end marker, and a straggler. *)
Definition with_straggler : nat -> list segment :=
  Session.all_at_once [(500, blob 2); sentinel; (500, blob 3)].

End Scenario.

(** ** Passes counted one by one *)
Module Passes.

(** The state of [get_media] after [n] full passes of its loop, if the
    loop goes on that long. *)
Fixpoint bulk_after {T : Type} `{InputStream T}
         (fetch : option Py.dict -> bool -> option Py.dict * bool)
         (debug_mstream : Z)
         (load : Py.value -> bool -> Access.quality -> Access.loading T)
         (_user : option Access.user) (id : string)
         (pg_notify : option (Z -> Z -> Bulk.phase -> list string -> list string))
         (skip_at_end_bytes total_size : Z) (n : nat) (g : Bulk.state T)
  : option (Bulk.state T) :=
  match n with
  | O => Some g
  | S n' =>
      match Bulk.pass fetch debug_mstream load _user id pg_notify
                      skip_at_end_bytes total_size g with
      | Bulk.Again g' =>
          bulk_after fetch debug_mstream load _user id pg_notify
                     skip_at_end_bytes total_size n' g'
      | Bulk.Stop _ _ => None
      end
  end.

(** In the worker: a chunk size within the tolerance comes from a
    remainder within the tolerance. *)
Definition worker_settled {T : Type} (total_size skip_at_end : Z)
           (w : Worker.state T) : Prop :=
  Worker.chunk w <= skip_at_end ->
  total_size - Worker.size_fetched w <= skip_at_end.

End Passes.

(** ** Covers to pick from *)
Module Gallery.

Definition small : Thumbs.cover :=
  {| Thumbs.height := Some 64; Thumbs.width := Some 64; Thumbs.url := "s" |}.

Definition medium : Thumbs.cover :=
  {| Thumbs.height := Some 300; Thumbs.width := Some 300; Thumbs.url := "m" |}.

Definition large : Thumbs.cover :=
  {| Thumbs.height := Some 640; Thumbs.width := Some 640; Thumbs.url := "l" |}.

(** A cover whose height is [null]. *)
Definition unsized : Thumbs.cover :=
  {| Thumbs.height := None; Thumbs.width := Some 640; Thumbs.url := "n" |}.

Definition covers : list Thumbs.cover := [small; medium; large; unsized].

End Gallery.

(** ** Flat dicts *)
Module FlattenSpec.

(** No value of the dict is a dict. *)
Definition flat (d : Py.dict) : Prop :=
  Forall (fun kv => Py.is_dict (snd kv) = false) d.

End FlattenSpec.

(** ** Items and their metadata *)
Module Library.
Import Py.

(** What a caller knows of a track before any fetch. *)
Definition partial : dict := [("name", VStr "Song"); ("duration", VInt 215)]%string.

(** An item as [__init__] leaves it. *)
Definition blank : Meta.property :=
  {| Meta._metadata := Some [];
     Meta._FULL_METADATA_ACQUIRED := false;
     Meta.fetches := 0 |}.

(** An item whose metadata has been fetched in full. *)
Definition complete : Meta.property :=
  {| Meta._metadata := Some [("name", VStr "Old"); ("is_playable", VBool true)]%string;
     Meta._FULL_METADATA_ACQUIRED := true;
     Meta.fetches := 1 |}.

(** A [_fetch_metadata] that stores the name and marks the item complete. *)
Definition fetch_name (m : option dict) (f : bool) : option dict * bool :=
  (Some (set_item "name" (VStr "Fetched") (match m with Some d => d | None => [] end)),
   true).

(** The blank item after one fetch. *)
Definition fetched : Meta.property :=
  {| Meta._metadata := Some [("name", VStr "Fetched")]%string;
     Meta._FULL_METADATA_ACQUIRED := true;
     Meta.fetches := 1 |}.

End Library.

(** ** Users, items and content feeders *)
Module Studio.
Import Py.

Definition premium : Access.user :=
  {| Access.is_premium := true; Access.type_premium := true |}.

Definition free : Access.user :=
  {| Access.is_premium := false; Access.type_premium := false |}.

(** A track of which only the id is known, as after [__init__] and
    [set_partial_meta]. *)
Definition track : Access.item Scripted :=
  {| Access.meta :=
       {| Meta._metadata := Some [("scraped_id", VStr "4uLU6hMCjMI75M1A2tKUQC")]%string;
          Meta._FULL_METADATA_ACQUIRED := false;
          Meta.fetches := 0 |};
     Access.media_type := 0;
     Access.use_audio_quality := Some Access.HIGH;
     Access.stream := None;
     Access.loads := 0 |}.

(** The same track holding a stream that has been used. *)
Definition playing : Access.item Scripted :=
  {| Access.meta := Access.meta track;
     Access.media_type := 0;
     Access.use_audio_quality := Some Access.HIGH;
     Access.stream := Some Examples.stub;
     Access.loads := 1 |}.

(** A content feeder that delivers, and one that finds no alternative
    track. *)
Definition feeder (scraped_id : value) (is_track : bool) (q : Access.quality)
  : Access.loading Scripted := Access.Loaded Examples.fluent.

Definition refusing (scraped_id : value) (is_track : bool) (q : Access.quality)
  : Access.loading Scripted := Access.CannotGetAlternativeTrack.

(** A content feeder that delivers the stream [s]. *)
Definition serving (s : Scripted) (scraped_id : value) (is_track : bool)
           (q : Access.quality) : Access.loading Scripted := Access.Loaded s.

End Studio.


(** ** Artwork *)
Module Frames.

(** A rendering that turns a url into four bytes. *)
Definition render (u : string) : bytes := blob 4.

(** An item with covers and no thumbnail yet, and one without covers. *)
Definition fresh : Artwork.state :=
  {| Artwork._covers := Gallery.covers; Artwork._thumbnail := None;
     Artwork.downloads := 0 |}.

Definition bare : Artwork.state :=
  {| Artwork._covers := []; Artwork._thumbnail := None; Artwork.downloads := 0 |}.

End Frames.
(** * Facts *)

Lemma len_app {A : Type} (a b : list A) : len (a ++ b) = len a + len b.
Proof. unfold len. rewrite length_app. lia. Qed.

Lemma len_nonneg {A : Type} (a : list A) : 0 <= len a.
Proof. unfold len. lia. Qed.

Lemma len_zero {A : Type} (a : list A) : len a = 0 -> a = [].
Proof. destruct a; [reflexivity | unfold len; simpl; lia]. Qed.

Lemma total_duration_app (a b : list segment) :
  total_duration (a ++ b) = total_duration a + total_duration b.
Proof.
  unfold total_duration. induction a as [|x a IH]; simpl; [reflexivity|].
  rewrite IH. lia.
Qed.

Lemma payload_app (a b : list segment) : payload (a ++ b) = payload a ++ payload b.
Proof. unfold payload. rewrite map_app. apply concat_app. Qed.

(** ** The worker *)
Module WorkerFacts.
Import Worker WorkerSpec.

Section Facts.
Context {T : Type} `{InputStream T} `{OggProbe}.
Variable halt : nat -> bool.
Variables total_size skip_at_end : Z.

Local Abbreviation pass := (Worker.pass halt total_size skip_at_end).
Local Abbreviation loop := (Worker.loop halt total_size skip_at_end).
Local Abbreviation running := (Worker.running halt total_size).
Local Abbreviation shrink := (Worker.shrink total_size).
Local Abbreviation measure := (Worker.measure total_size skip_at_end).
Local Abbreviation pass_spec := (WorkerSpec.pass_spec halt total_size skip_at_end).

Lemma pass_inv w : pass_spec w (pass w).
Proof.
  unfold Worker.pass.
  destruct (running w) eqn:Hrun; [|now constructor].
  destruct (do_read (tick w)) as [data w1] eqn:Hdo.
  assert (Hw1 : w1 = snd (do_read (tick w))) by now rewrite Hdo.
  assert (Hc1 : chunk w1 = chunk w).
  { subst w1. unfold do_read. cbn. destruct (read (chunk w) (stream w)). reflexivity. }
  assert (Hrd : read (chunk w) (stream w) = (data, stream w1)).
  { revert Hdo. unfold do_read. cbn. destruct (read (chunk w) (stream w)).
    intros [= <- <-]. reflexivity. }
  destruct (len data =? 0) eqn:Hz; cbn [andb].
  - apply Z.eqb_eq, len_zero in Hz. subst data.
    destruct (chunk w1 <=? skip_at_end) eqn:Hle.
    + rewrite Hw1. eapply PassBreak; eauto. lia.
    + destruct (chunk (shrink w1) >? skip_at_end) eqn:Hgt.
      * rewrite Hw1 in *. eapply PassRaise; eauto; lia.
      * rewrite Hw1 in *. eapply PassAgain; eauto. intros _. lia.
  - rewrite Hw1. eapply PassAgain; eauto.
    intros ->. discriminate.
Qed.


(** *** What each building block leaves alone *)

Lemma shrink_chunk_le (w : state T) : chunk (shrink w) <= chunk w.
Proof. unfold Worker.shrink. destruct (_ <? _) eqn:E; cbn; lia. Qed.

Lemma shrink_frame (w : state T) :
  size_fetched (shrink w) = size_fetched w
  /\ pending_data (shrink w) = pending_data w
  /\ full_data (shrink w) = full_data w
  /\ length_till_last_segment (shrink w) = length_till_last_segment w
  /\ media_container (shrink w) = media_container w
  /\ requests (shrink w) = requests w
  /\ checks (shrink w) = checks w.
Proof. unfold Worker.shrink. destruct (_ <? _); cbn; repeat split. Qed.

Lemma do_read_frame (w : state T) data s' :
  read (chunk w) (stream w) = (data, s') ->
  let w1 := snd (do_read (tick w)) in
  chunk w1 = chunk w
  /\ size_fetched w1 = size_fetched w
  /\ pending_data w1 = pending_data w ++ data
  /\ full_data w1 = full_data w
  /\ length_till_last_segment w1 = length_till_last_segment w
  /\ media_container w1 = media_container w
  /\ requests w1 = requests w ++ [chunk w]
  /\ checks w1 = S (checks w).
Proof. intros Hr. unfold do_read. cbn. rewrite Hr. cbn. repeat split. Qed.

Lemma account_frame data (w : state T) :
  chunk (account data w) = chunk w
  /\ size_fetched (account data w) = size_fetched w + len data
  /\ full_data (account data w) = full_data w ++ data
  /\ requests (account data w) = requests w
  /\ checks (account data w) = checks w.
Proof. unfold account. destruct (ogg_length _); cbn; repeat split. Qed.

(** *** Termination *)

Lemma pass_measure (w w' : state T) : pass w = Again w' -> (measure w' < measure w)%nat.
Proof.
  intros Hp. pose proof (pass_inv w) as Hi. rewrite Hp in Hi.
  inversion Hi as [| | |data s' Hrun Hread Hzero Heq]; subst; clear Hi.
  destruct (do_read_frame w data s' Hread) as (Hc & Hs & _).
  set (w1 := snd (do_read (tick w))) in *.
  destruct (shrink_frame w1) as (Hs2 & _).
  destruct (account_frame data (shrink w1)) as (Hc3 & Hs3 & _).
  pose proof (shrink_chunk_le w1) as Hle.
  unfold Worker.running in Hrun. apply andb_prop in Hrun as [Hlt _].
  apply Z.ltb_lt in Hlt.
  unfold Worker.measure. rewrite Hc3, Hs3, Hs2, Hs.
  destruct data as [|b data].
  - destruct (Hzero eq_refl) as [Hgt Hsm].
    replace (len (@nil byte)) with 0 by reflexivity.
    replace (size_fetched w + 0) with (size_fetched w) by lia.
    destruct (chunk (shrink w1) >? skip_at_end) eqn:E1; [lia|].
    destruct (chunk w >? skip_at_end) eqn:E2; lia.
  - assert (0 < len (b :: data)) by (unfold len; simpl; lia).
    destruct (chunk (shrink w1) >? skip_at_end) eqn:E1;
      destruct (chunk w >? skip_at_end) eqn:E2; lia.
Qed.

Lemma loop_total fuel (w : state T) : (measure w < fuel)%nat -> exists r, loop fuel w = Some r.
Proof.
  revert w. induction fuel as [|fuel IH]; intros w Hm; [lia|].
  cbn. destruct (pass w) as [w'|e w'] eqn:Hp.
  - apply IH. apply pass_measure in Hp. lia.
  - eauto.
Qed.

(** *** Invariants of the loop *)

Lemma loop_inv (I : state T -> Prop) (Q : exit -> state T -> Prop) :
  (forall w w', I w -> pass w = Again w' -> I w') ->
  (forall w e w', I w -> pass w = Stop e w' -> Q e w') ->
  forall fuel w e w', I w -> loop fuel w = Some (e, w') -> Q e w'.
Proof.
  intros Hstep Hstop. induction fuel as [|fuel IH]; intros w e w' Hi Hl; [discriminate|].
  cbn in Hl. destruct (pass w) as [w1|e1 w1] eqn:Hp.
  - eapply IH; [|exact Hl]. eauto.
  - injection Hl as <- <-. eauto.
Qed.


Ltac pass_cases w Hp :=
  let Hi := fresh "Hi" in
  pose proof (pass_inv w) as Hi; rewrite Hp in Hi;
  inversion Hi as [Hrun|s' Hrun Hread Hsmall|s' Hrun Hread Hbig Hbig'
                   |data s' Hrun Hread Hzero]; subst; clear Hi.

Ltac frames w data s' Hread :=
  let w1 := fresh "w1" in
  pose proof (do_read_frame w data s' Hread) as (?Hc1 & ?Hs1 & ?Hp1 & ?Hf1 & ?Hl1 & ?Hm1 & ?Hr1 & ?Hk1);
  set (w1 := snd (do_read (tick w))) in *;
  pose proof (shrink_frame w1) as (?Hs2 & ?Hp2 & ?Hf2 & ?Hl2 & ?Hm2 & ?Hr2 & ?Hk2).

Lemma pass_consistent q0 (w w' : state T) :
  consistent q0 w -> pass w = Again w' -> consistent q0 w'.
Proof.
  intros (pub & Hq & Hd & Hb) Hp. pass_cases w Hp. frames w data s' Hread.
  unfold consistent, account. rewrite Hp2, Hf2, Hl2, Hm2, Hp1, Hf1, Hl1, Hm1.
  destruct (ogg_length (full_data w ++ data)) as [l|]; cbn.
  - exists (pub ++ [(l - length_till_last_segment w, pending_data w ++ data)]).
    rewrite Hq, app_assoc, total_duration_app, payload_app, <- Hb, Hd.
    unfold total_duration, payload. cbn.
    rewrite !app_nil_r, app_assoc. repeat split. lia.
  - exists pub. rewrite <- Hb, app_assoc. auto.
Qed.

Lemma pass_finished q0 (w w' : state T) e :
  consistent q0 w -> pass w = Stop e w' -> finished q0 w'.
Proof.
  intros (pub & Hq & Hd & Hb) Hp. exists pub. pass_cases w Hp.
  - cbn. rewrite Hq, app_assoc. auto.
  - frames w (@nil byte) s' Hread. cbn.
    rewrite Hm1, Hl1, Hp1, Hf1, Hq, app_nil_r, app_assoc. auto.
  - frames w (@nil byte) s' Hread. cbn.
    rewrite Hm2, Hl2, Hp2, Hf2, Hm1, Hl1, Hp1, Hf1, Hq, app_nil_r, app_assoc. auto.
Qed.

Lemma loop_finished q0 fuel (w w' : state T) e :
  consistent q0 w -> loop fuel w = Some (e, w') -> finished q0 w'.
Proof.
  apply (loop_inv (consistent q0) (fun _ w' => finished q0 w')).
  - apply pass_consistent.
  - intros; eapply pass_finished; eauto.
Qed.

Lemma init_consistent (s : T) chunk0 q0 : consistent q0 (init s chunk0 q0).
Proof. exists []. cbn. rewrite app_nil_r. auto. Qed.

(** *** Probing *)

Lemma pass_decoded (w w' : state T) : pass w = Again w' -> decoded w'.
Proof.
  intros Hp. pass_cases w Hp. frames w data s' Hread.
  unfold decoded, account. rewrite Hf2, Hf1.
  destruct (ogg_length (full_data w ++ data)) as [l|] eqn:E; cbn; rewrite E.
  - now intros ? [= <-].
  - discriminate.
Qed.

Lemma pass_stop_keeps (w w' : state T) e :
  pass w = Stop e w' ->
  size_fetched w' = size_fetched w
  /\ full_data w' = full_data w
  /\ length_till_last_segment w' = length_till_last_segment w.
Proof.
  intros Hp. pass_cases w Hp.
  - cbn. auto.
  - frames w (@nil byte) s' Hread. cbn. auto.
  - frames w (@nil byte) s' Hread. cbn. rewrite Hs2, Hf2, Hl2. auto.
Qed.

Lemma loop_decoded fuel (w w' : state T) e :
  decoded w -> loop fuel w = Some (e, w') -> decoded w'.
Proof.
  apply (loop_inv decoded (fun _ w' => decoded w')).
  - intros; eapply pass_decoded; eauto.
  - intros w0 e0 w0' Hd Hp. apply pass_stop_keeps in Hp as (_ & Hf & Hl).
    unfold decoded. rewrite Hf, Hl. exact Hd.
Qed.

(** *** Reads against evaluations of the loop condition *)

Lemma running_not_halted (w : state T) : running w = true -> halt (checks w) = false.
Proof.
  unfold Worker.running. intros Hr. apply andb_prop in Hr as [_ Hh].
  now apply negb_true_iff in Hh.
Qed.

Lemma pass_within k (w w' : state T) :
  halt k = true -> within k w -> pass w = Again w' -> within k w'.
Proof.
  intros Hk [Hlen Hle] Hp. pass_cases w Hp. frames w data s' Hread.
  destruct (account_frame data (shrink w1)) as (_ & _ & _ & Hr3 & Hk3).
  apply running_not_halted in Hrun.
  assert (checks w <> k) by (intros E; rewrite E in Hrun; congruence).
  unfold within. rewrite Hr3, Hk3, Hr2, Hk2, Hr1, Hk1, length_app, Hlen. cbn. lia.
Qed.

Lemma pass_within_stop k (w w' : state T) e :
  halt k = true -> within k w -> pass w = Stop e w' ->
  (List.length (requests w') <= k)%nat.
Proof.
  intros Hk [Hlen Hle] Hp. pass_cases w Hp.
  - cbn. lia.
  - frames w (@nil byte) s' Hread. apply running_not_halted in Hrun.
    assert (checks w <> k) by (intros E; rewrite E in Hrun; congruence).
    cbn. rewrite Hr1, length_app, Hlen. cbn. lia.
  - frames w (@nil byte) s' Hread. apply running_not_halted in Hrun.
    assert (checks w <> k) by (intros E; rewrite E in Hrun; congruence).
    cbn. rewrite Hr2, Hr1, length_app, Hlen. cbn. lia.
Qed.

Lemma loop_within k fuel (w w' : state T) e :
  halt k = true -> within k w -> loop fuel w = Some (e, w') ->
  (List.length (requests w') <= k)%nat.
Proof.
  intros Hk.
  apply (loop_inv (within k) (fun _ w' => (List.length (requests w') <= k)%nat)).
  - intros; eapply pass_within; eauto.
  - intros; eapply pass_within_stop; eauto.
Qed.


End Facts.

(** *** The call as a whole *)

Lemma fetch_thread_worker_total {T : Type} `{InputStream T} `{OggProbe}
      halt q0 (s : T) chunk0 skip_at_end :
  exists e w, fetch_thread_worker halt q0 s chunk0 skip_at_end = Some (e, w).
Proof.
  unfold fetch_thread_worker.
  destruct (loop_total halt (size s) skip_at_end
              (S (Worker.measure (size s) skip_at_end (init s chunk0 q0)))
              (init s chunk0 q0))
    as [[e w] Hr]; [lia|eauto].
Qed.

Lemma fetch_thread_worker_finished {T : Type} `{InputStream T} `{OggProbe}
      halt q0 (s : T) chunk0 skip_at_end e w :
  fetch_thread_worker halt q0 s chunk0 skip_at_end = Some (e, w) ->
  finished q0 w.
Proof. intros Hw. eapply loop_finished; [|exact Hw]. apply init_consistent. Qed.

End WorkerFacts.

(** ** Obtaining the stream *)
Module AccessFacts.

Section Facts.
Context {T : Type}.
Variable fetch : option Py.dict -> bool -> option Py.dict * bool.
Variable debug_mstream : Z.
Variable load : Py.value -> bool -> Access.quality -> Access.loading T.

Local Abbreviation media_stream_as_user :=
  (@Access.media_stream_as_user T fetch debug_mstream load).
Local Abbreviation load_stream := (@Access.load_stream T fetch load).

Lemma load_stream_frame u (i i1 : Access.item T) r :
  load_stream u i = (r, i1) ->
  Access.media_type i1 = Access.media_type i
  /\ Access.use_audio_quality i1 = Access.use_audio_quality i
  /\ (Access.loads i1 <= S (Access.loads i))%nat
  /\ match r with
     | inl s => Access.stream i1 = Some s /\ Access.loads i1 = S (Access.loads i)
     | inr _ => Access.stream i1 = Access.stream i
     end.
Proof.
  unfold Access.load_stream.
  destruct (Meta.meta_attribute fetch "scraped_id" (Access.meta i)) as [[sid|e] m].
  - cbn.
    destruct (load sid (Access.media_type i =? 0)
                   (Access.pick_quality u _)) as [s| |]; cbn.
    + intros [= <- <-]. cbn. auto.
    + destruct (Meta._FULL_METADATA_ACQUIRED m); cbn; intros [= <- <-]; cbn; auto.
    + intros [= <- <-]. cbn. auto.
  - intros [= <- <-]. cbn. auto.
Qed.

Lemma access_frame u (i : Access.item T) :
  let r := fst (media_stream_as_user u i) in
  let i1 := snd (media_stream_as_user u i) in
  Access.media_type i1 = Access.media_type i
  /\ Access.use_audio_quality i1 = Access.use_audio_quality i
  /\ (Access.loads i <= Access.loads i1 <= S (Access.loads i))%nat
  /\ match r with
     | inl s => Access.stream i1 = Some s
     | inr _ => Access.stream i1 = Access.stream i
     end.
Proof.
  cbv zeta.
  assert (Hgen : forall m,
    let j := Access.with_meta m i in
    let r := fst (load_stream u j) in
    let i1 := snd (load_stream u j) in
    Access.media_type i1 = Access.media_type i
    /\ Access.use_audio_quality i1 = Access.use_audio_quality i
    /\ (Access.loads i <= Access.loads i1 <= S (Access.loads i))%nat
    /\ match r with
       | inl s => Access.stream i1 = Some s
       | inr _ => Access.stream i1 = Access.stream i
       end).
  { intros m. cbv zeta.
    destruct (load_stream u (Access.with_meta m i)) as [r i1] eqn:Hl.
    destruct (load_stream_frame _ _ _ _ Hl) as (H1 & H2 & H3 & H4). cbn in *.
    repeat split; auto.
    - destruct r as [s|f]; [destruct H4 as [_ H4]; lia|].
      revert Hl. unfold Access.load_stream.
      destruct (Meta.meta_attribute fetch "scraped_id" _) as [[sid|e] m']; cbn.
      + destruct (load _ _ _); cbn; try discriminate.
        * destruct (Meta._FULL_METADATA_ACQUIRED m'); intros [= _ <-]; cbn; lia.
        * intros [= _ <-]. cbn. lia.
      + intros [= _ <-]. cbn. lia.
    - destruct r; [tauto|exact H4]. }
  unfold Access.media_stream_as_user.
  destruct (negb (Access.is_premium u) && (debug_mstream =? 0)); cbn;
    [repeat split; lia|].
  destruct (Access.stream i) as [s|] eqn:Hs; cbn; [repeat split; auto; lia|].
  destruct (negb ((Access.media_type i =? 0) || (Access.media_type i =? 1))); cbn;
    [repeat split; auto; lia|].
  destruct (Meta._FULL_METADATA_ACQUIRED (Access.meta i)).
  - destruct (Meta.meta_attribute fetch "is_playable" (Access.meta i)) as [[v|e] m].
    + destruct (negb (Access.truthy v)); cbn; [repeat split; auto; lia|].
      apply (Hgen m).
    + cbn. repeat split; auto; lia.
  - specialize (Hgen (Access.meta i)).
    replace (Access.with_meta (Access.meta i) i) with i in Hgen
      by (destruct i; reflexivity).
    exact Hgen.
Qed.


Lemma granted u (i i1 : Access.item T) s :
  media_stream_as_user u i = (inl s, i1) ->
  negb (Access.is_premium u) && (debug_mstream =? 0) = false
  /\ Access.stream i1 = Some s.
Proof.
  intros Hcall. split.
  - revert Hcall. unfold Access.media_stream_as_user.
    destruct (negb (Access.is_premium u) && (debug_mstream =? 0));
      [discriminate|reflexivity].
  - pose proof (access_frame u i) as Hf. cbv zeta in Hf. rewrite Hcall in Hf.
    cbn in Hf. tauto.
Qed.

Lemma held u (i : Access.item T) s :
  negb (Access.is_premium u) && (debug_mstream =? 0) = false ->
  Access.stream i = Some s ->
  media_stream_as_user u i = (inl s, i).
Proof.
  intros Hg Hs. unfold Access.media_stream_as_user. now rewrite Hg, Hs.
Qed.

Variable _user : option Access.user.

Local Abbreviation media_stream :=
  (@Item.media_stream T fetch debug_mstream load _user).

Lemma media_stream_granted (i i1 : Access.item T) s :
  media_stream i = (inl s, i1) ->
  admitted debug_mstream _user /\ Access.stream i1 = Some s.
Proof.
  unfold Item.media_stream, admitted. destruct _user as [u|]; [|discriminate].
  destruct (media_stream_as_user u i) as [[s0|f] i0] eqn:Hcall; [|discriminate].
  intros [= <- <-]. destruct (granted u i i0 s0 Hcall). eauto.
Qed.

Lemma media_stream_held (i : Access.item T) s :
  admitted debug_mstream _user ->
  Access.stream i = Some s ->
  media_stream i = (inl s, i).
Proof.
  intros (u & Hu & Hg) Hs. unfold Item.media_stream. rewrite Hu.
  now rewrite (held u i s Hg Hs).
Qed.

Lemma media_stream_refused (i i1 : Access.item T) e :
  media_stream i = (inr e, i1) ->
  Access.stream i1 = Access.stream i.
Proof.
  unfold Item.media_stream. destruct _user as [u|]; [|now intros [= _ <-]].
  pose proof (access_frame u i) as Hf. cbv zeta in Hf.
  destruct (media_stream_as_user u i) as [[s0|f] i0]; [discriminate|].
  intros [= _ <-]. cbn in Hf. tauto.
Qed.

End Facts.
End AccessFacts.

(** ** The bulk fetcher *)
Module BulkFacts.
Import Bulk BulkSpec.


Section Facts.
Context {T : Type} `{InputStream T}.
Variable fetch : option Py.dict -> bool -> option Py.dict * bool.
Variable debug_mstream : Z.
Variable load : Py.value -> bool -> Access.quality -> Access.loading T.
Variable _user : option Access.user.
Variable id : string.
Variable pg_notify : option (Z -> Z -> phase -> list string -> list string).
Variable skip_at_end_bytes : Z.
Variable total_size : Z.

Local Abbreviation media_stream := (Bulk.media_stream fetch debug_mstream load _user).
Local Abbreviation do_read := (Bulk.do_read fetch debug_mstream load _user).
Local Abbreviation pass :=
  (Bulk.pass fetch debug_mstream load _user id pg_notify skip_at_end_bytes total_size).
Local Abbreviation loop :=
  (fun fuel => Bulk.loop fetch debug_mstream load _user id pg_notify skip_at_end_bytes
                         fuel total_size).
Local Abbreviation measure := (Bulk.measure skip_at_end_bytes total_size).
Local Abbreviation noted :=
  (BulkSpec.noted fetch debug_mstream load _user pg_notify total_size).
Local Abbreviation pass_spec :=
  (BulkSpec.pass_spec fetch debug_mstream load _user id pg_notify skip_at_end_bytes
                      total_size).
Local Abbreviation ready := (@BulkSpec.ready T debug_mstream _user).
Local Abbreviation shrink := (@Bulk.shrink T total_size).
Local Abbreviation notify := (@Bulk.notify T pg_notify).
Local Abbreviation call := (@Bulk.call T pg_notify).

(** *** Obtaining the stream *)

Lemma media_stream_frame (g g1 : state T) r :
  media_stream g = (r, g1) -> g1 = with_item (item g1) g.
Proof.
  unfold Bulk.media_stream.
  destruct (Item.media_stream fetch debug_mstream load _user (item g)) as [r0 i].
  now intros [= _ <-].
Qed.

Lemma media_stream_opened (g g1 : state T) s :
  media_stream g = (inl s, g1) -> ready g1 /\ stream g1 = Some s.
Proof.
  unfold Bulk.media_stream, BulkSpec.ready, Bulk.stream.
  destruct (Item.media_stream fetch debug_mstream load _user (item g))
    as [r0 i] eqn:Hm.
  intros [= -> <-]. cbn.
  destruct (AccessFacts.media_stream_granted _ _ _ _ _ _ _ Hm) as [Ha Hs].
  eauto.
Qed.

Lemma media_stream_ready (g : state T) :
  ready g -> exists s, stream g = Some s /\ media_stream g = (inl s, g).
Proof.
  intros (Ha & s & Hs). exists s. split; [exact Hs|].
  unfold Bulk.media_stream, Bulk.stream in *.
  rewrite (AccessFacts.media_stream_held _ _ _ _ _ _ Ha Hs).
  now destruct g.
Qed.

Lemma media_stream_denied (g g1 : state T) e :
  media_stream g = (inr e, g1) -> ~ ready g.
Proof.
  intros Hm Hr. destruct (media_stream_ready g Hr) as (s & _ & Hs). congruence.
Qed.

(** *** What the parts of a pass leave alone *)

Lemma notify_frame a b ph (g : state T) :
  item (notify a b ph g) = item g
  /\ raw_media (notify a b ph g) = raw_media g
  /\ chunk_size (notify a b ph g) = chunk_size g
  /\ requests (notify a b ph g) = requests g
  /\ (pg_notify = None -> notify a b ph g = g).
Proof.
  unfold Bulk.notify, Bulk.call. destruct pg_notify; cbn; repeat split; auto.
  discriminate.
Qed.

Lemma call_some a b ph (g g' : state T) :
  call a b ph g = Some g' -> g' = notify a b ph g /\ pg_notify <> None.
Proof.
  unfold Bulk.notify. intros Hc. rewrite Hc. split; [reflexivity|].
  revert Hc. unfold Bulk.call. destruct pg_notify; discriminate.
Qed.

Lemma call_none a b ph (g : state T) : call a b ph g = None -> pg_notify = None.
Proof. unfold Bulk.call. destruct pg_notify; [discriminate|reflexivity]. Qed.

Lemma fetch_noted_frame (g g1 : state T) s data s' :
  media_stream g = (inl s, g1) ->
  read (chunk_size g) s = (data, s') ->
  chunk_size (noted g) = chunk_size g
  /\ raw_media (noted g) = raw_media g ++ data
  /\ stream (noted g) = Some s'
  /\ requests (noted g) = requests g ++ [chunk_size g]
  /\ do_read g = (inl data, snd (do_read g)).
Proof.
  intros Hm Hr. pose proof (media_stream_frame g g1 _ Hm) as Hg1.
  assert (Hc1 : chunk_size g1 = chunk_size g) by (rewrite Hg1; reflexivity).
  assert (Hr1 : raw_media g1 = raw_media g) by (rewrite Hg1; reflexivity).
  assert (Hq1 : requests g1 = requests g) by (rewrite Hg1; reflexivity).
  unfold BulkSpec.noted, Bulk.do_read. rewrite Hm, Hc1, Hr.
  cbn [snd].
  match goal with |- context [Bulk.notify pg_notify ?a ?b ?ph ?g0] =>
    destruct (notify_frame a b ph g0) as (Ni & Nr & Nc & Nq & _)
  end.
  unfold Bulk.stream. rewrite Nc, Nr, Nq, Ni. cbn. rewrite ?Hc1, ?Hr1, ?Hq1.
  repeat split. destruct (len data =? 0) eqn:E; cbn; [|reflexivity].
  apply Z.eqb_eq, len_zero in E. subst. now rewrite app_nil_r.
Qed.

Lemma fetch_shrink_frame (g : state T) :
  raw_media (shrink g) = raw_media g
  /\ stream (shrink g) = stream g
  /\ stop_check_list (shrink g) = stop_check_list g
  /\ chunk_size (shrink g) = Z.min (chunk_size g) (total_size - len (raw_media g)).
Proof.
  unfold Bulk.shrink. destruct (_ <? _) eqn:E; cbn; repeat split; lia.
Qed.

(** *** The ways through a pass *)

Lemma fetch_pass_inv (g : state T) : pass_spec g (pass g).
Proof.
  unfold Bulk.pass.
  destruct (running id total_size g) eqn:Hrun; [|now constructor].
  destruct (media_stream g) as [[s|e] g1] eqn:Hm.
  2:{ unfold Bulk.do_read. rewrite Hm. now apply PassDenied. }
  destruct (read (chunk_size g) s) as [data s'] eqn:Hr.
  destruct (fetch_noted_frame g g1 s data s' Hm Hr) as (Hc & _ & _ & _ & Hdo).
  rewrite Hdo. cbv beta iota zeta.
  change (Bulk.notify pg_notify (len (raw_media (snd (do_read g)))) total_size
                      Downloading (snd (do_read g))) with (noted g).
  destruct (len data =? 0) eqn:Hz; cbn [andb].
  - apply Z.eqb_eq, len_zero in Hz. subst data. rewrite Hc.
    destruct (chunk_size g <=? skip_at_end_bytes) eqn:Hle.
    + eapply PassBreak; eauto. lia.
    + destruct (chunk_size (shrink (noted g)) >? skip_at_end_bytes) eqn:Hgt.
      * destruct (call 0 1 ReadError (shrink (noted g))) as [g4|] eqn:Hcb.
        -- eapply PassRaise; eauto; lia.
        -- eapply PassUncallable; eauto; lia.
      * eapply PassAgain; eauto. intros _. lia.
  - eapply PassAgain; eauto. intros ->. discriminate.
Qed.

Ltac pass_cases g Hp :=
  let Hi := fresh "Hi" in
  pose proof (fetch_pass_inv g) as Hi; rewrite Hp in Hi;
  inversion Hi as [Hrun|e1 g1 Hrun Hopen|s g1 s' Hrun Hopen Hread Hsmall
                   |s g1 s' g4 Hrun Hopen Hread Hbig Hbig' Hcb
                   |s g1 s' Hrun Hopen Hread Hbig Hbig' Hcb
                   |s g1 data s' Hrun Hopen Hread Hzero]; subst; clear Hi.

(** *** Termination *)

Lemma fetch_pass_measure (g g' : state T) : pass g = Again g' -> (measure g' < measure g)%nat.
Proof.
  intros Hp. pass_cases g Hp.
  destruct (fetch_noted_frame g g1 s data s' Hopen Hread) as (Hc & Hraw & _).
  destruct (fetch_shrink_frame (noted g)) as (Hraw2 & _ & _ & Hle).
  unfold Bulk.running in Hrun. apply andb_prop in Hrun as [Hlt _].
  apply Z.ltb_lt in Hlt.
  unfold Bulk.measure. rewrite Hraw2, Hraw, len_app.
  destruct data as [|b data].
  - destruct (Hzero eq_refl) as [Hgt Hsm].
    replace (len (@nil byte)) with 0 by reflexivity.
    destruct (chunk_size (shrink (noted g)) >? skip_at_end_bytes) eqn:E1; [lia|].
    destruct (chunk_size g >? skip_at_end_bytes) eqn:E2; [|lia].
    replace (total_size - (len (raw_media g) + 0)) with (total_size - len (raw_media g)) by lia.
    lia.
  - assert (0 < len (b :: data)) by (unfold len; simpl; lia).
    destruct (chunk_size (shrink (noted g)) >? skip_at_end_bytes) eqn:E1;
      destruct (chunk_size g >? skip_at_end_bytes) eqn:E2; lia.
Qed.

Lemma fetch_loop_total fuel (g : state T) : (measure g < fuel)%nat -> exists r, loop fuel g = Some r.
Proof.
  revert g. induction fuel as [|fuel IH]; intros g Hm; [lia|].
  cbn. destruct (pass g) as [g'|e g'] eqn:Hp.
  - apply IH. apply fetch_pass_measure in Hp. lia.
  - eauto.
Qed.

Lemma fetch_loop_inv (I : state T -> Prop) (Q : exit -> state T -> Prop) :
  (forall g g', I g -> pass g = Again g' -> I g') ->
  (forall g e g', I g -> pass g = Stop e g' -> Q e g') ->
  forall fuel g e g', I g -> loop fuel g = Some (e, g') -> Q e g'.
Proof.
  intros Hstep Hstop. induction fuel as [|fuel IH]; intros g e g' Hi Hl; [discriminate|].
  cbn in Hl. destruct (pass g) as [g1|e1 g1] eqn:Hp.
  - eapply IH; [|exact Hl]. eauto.
  - injection Hl as <- <-. eauto.
Qed.

(** *** The stream stays held while the loop runs *)

Lemma fetch_pass_ready (g g' : state T) : pass g = Again g' -> ready g'.
Proof.
  intros Hp. pass_cases g Hp.
  destruct (fetch_noted_frame g g1 s data s' Hopen Hread) as (_ & _ & Hst & _).
  destruct (fetch_shrink_frame (noted g)) as (_ & Hst2 & _).
  destruct (media_stream_opened g g1 s Hopen) as [[Ha _] _].
  split; [exact Ha|]. exists s'. now rewrite Hst2.
Qed.

(** How a pass that starts with the stream held ends the loop. *)
Lemma fetch_pass_exits (g g' : state T) e :
  ready g -> pass g = Stop e g' ->
  (e = Returned /\ ready g')
  \/ (e = Raised StreamReadException /\ stream g' = None /\ pg_notify <> None)
  \/ (e = Raised TypeError /\ pg_notify = None /\ ready g').
Proof.
  intros Hr Hp. pose proof Hr as [Ha _]. pass_cases g Hp.
  - left. auto.
  - exfalso. eapply media_stream_denied; eauto.
  - left. split; [reflexivity|].
    destruct (fetch_noted_frame g g1 s [] s' Hopen Hread) as (_ & _ & Hst & _).
    split; [exact Ha|]. eauto.
  - right. left. split; [reflexivity|]. split; [reflexivity|].
    now destruct (call_some _ _ _ _ _ Hcb).
  - right. right. split; [reflexivity|]. split; [now apply call_none in Hcb|].
    destruct (fetch_noted_frame g g1 s [] s' Hopen Hread) as (_ & _ & Hst & _).
    destruct (fetch_shrink_frame (noted g)) as (_ & Hst2 & _).
    split; [exact Ha|]. exists s'. now rewrite Hst2.
Qed.

Lemma fetch_loop_exits fuel (g g' : state T) e :
  ready g -> loop fuel g = Some (e, g') ->
  (e = Returned /\ ready g')
  \/ (e = Raised StreamReadException /\ stream g' = None /\ pg_notify <> None)
  \/ (e = Raised TypeError /\ pg_notify = None /\ ready g').
Proof.
  apply (fetch_loop_inv ready
           (fun e g' =>
              (e = Returned /\ ready g')
              \/ (e = Raised StreamReadException /\ stream g' = None
                  /\ pg_notify <> None)
              \/ (e = Raised TypeError /\ pg_notify = None /\ ready g'))).
  - intros g0 g0' _. apply fetch_pass_ready.
  - intros g0 e0 g0'. apply fetch_pass_exits.
Qed.

(** *** The tolerance *)

Lemma fetch_pass_settled (g g' : state T) :
  settled total_size skip_at_end_bytes g -> pass g = Again g' ->
  settled total_size skip_at_end_bytes g'.
Proof.
  intros Hs Hp. pass_cases g Hp.
  destruct (fetch_noted_frame g g1 s data s' Hopen Hread) as (Hc & Hraw & _).
  destruct (fetch_shrink_frame (noted g)) as (Hraw2 & _ & _ & Hle).
  unfold settled in *. rewrite Hraw2, Hraw, len_app in *.
  pose proof (len_nonneg data). intros Hsm.
  rewrite Hc in *. lia.
Qed.

(** What the loop leaves behind: a [StreamReadException] only with more
    than the tolerance unread and the stream reset; and, when the
    configured chunk size was above the tolerance, an early end without
    cancellation only with at most the tolerance unread. *)
Lemma fetch_pass_tolerance (g g' : state T) e :
  pass g = Stop e g' ->
  (e = Raised StreamReadException ->
   skip_at_end_bytes < total_size - len (raw_media g') /\ stream g' = None)
  /\ (e = Returned -> settled total_size skip_at_end_bytes g ->
      len (raw_media g') < total_size -> mem id (stop_check_list g') = false ->
      total_size - len (raw_media g') <= skip_at_end_bytes).
Proof.
  intros Hp. pass_cases g Hp.
  - split; [discriminate|]. intros _ _ Hlt Hm. unfold Bulk.running in Hrun.
    rewrite Hm in Hrun. cbn in Hrun. rewrite andb_true_r in Hrun.
    apply Z.ltb_ge in Hrun. lia.
  - split; [|discriminate]. intros [= ->].
    exfalso. revert Hopen. unfold Bulk.media_stream, Item.media_stream.
    destruct _user as [u|]; [|discriminate].
    destruct (Access.media_stream_as_user _ _ _ _ _) as [[?|?] ?]; discriminate.
  - split; [discriminate|]. intros _ Hs _ _.
    destruct (fetch_noted_frame g g1 s [] s' Hopen Hread) as (_ & Hraw & _).
    rewrite Hraw, app_nil_r. apply Hs. exact Hsmall.
  - split; [|discriminate]. intros _.
    destruct (fetch_noted_frame g g1 s [] s' Hopen Hread) as (Hc & Hraw & _).
    destruct (fetch_shrink_frame (noted g)) as (Hraw2 & _ & _ & Hle).
    destruct (notify_frame 0 1 ReadError (shrink (noted g))) as (_ & Nr & _).
    destruct (call_some _ _ _ _ _ Hcb) as [-> _].
    cbn. rewrite Nr, Hraw2, Hraw, app_nil_r in *. split; [|reflexivity].
    unfold Bulk.running in Hrun. apply andb_prop in Hrun as [Hlt _].
    apply Z.ltb_lt in Hlt.
    lia.
  - split; discriminate.
Qed.

Lemma fetch_loop_tolerance fuel (g g' : state T) e :
  settled total_size skip_at_end_bytes g ->
  loop fuel g = Some (e, g') ->
  (e = Raised StreamReadException ->
   skip_at_end_bytes < total_size - len (raw_media g') /\ stream g' = None)
  /\ (e = Returned ->
      len (raw_media g') < total_size -> mem id (stop_check_list g') = false ->
      total_size - len (raw_media g') <= skip_at_end_bytes).
Proof.
  apply (fetch_loop_inv (settled total_size skip_at_end_bytes)
           (fun e g' =>
              (e = Raised StreamReadException ->
               skip_at_end_bytes < total_size - len (raw_media g') /\ stream g' = None)
              /\ (e = Returned ->
                  len (raw_media g') < total_size ->
                  mem id (stop_check_list g') = false ->
                  total_size - len (raw_media g') <= skip_at_end_bytes))).
  - apply fetch_pass_settled.
  - intros g0 e0 g0' Hs Hp.
    destruct (fetch_pass_tolerance g0 g0' e0 Hp) as [Ha Hb].
    split; [exact Ha|]. intros He. apply Hb; assumption.
Qed.

(** *** The end of [get_media] *)

Lemma conclude_exits (g : state T) :
  let e := fst (conclude id pg_notify g) in
  let g' := snd (conclude id pg_notify g) in
  raw_media g' = raw_media g
  /\ ((e = Returned /\ mem id (stop_check_list g) = false /\ stream g' = None)
      \/ (e = Raised MediaFetchInterruptedException
          /\ mem id (stop_check_list g) = true
          /\ pg_notify <> None /\ stream g' = None)
      \/ (e = Raised TypeError
          /\ mem id (stop_check_list g) = true
          /\ pg_notify = None /\ stream g' = stream g)).
Proof.
  unfold Bulk.conclude, Bulk.call.
  destruct (mem id (stop_check_list g)) eqn:Hm; cbn.
  - destruct pg_notify; cbn.
    + split; [reflexivity|]. right. left. repeat split. discriminate.
    + split; [reflexivity|]. right. right. auto.
  - split; [reflexivity|]. left. auto.
Qed.

End Facts.

(** With a chunk size above the tolerance, [get_media] keeps to the
    tolerance: it raises [StreamReadException] only with more than the
    tolerance unread, and then the stream is reset; and it returns a
    short buffer only when at most the tolerance is missing. *)
Lemma get_media_respects_tolerance {T : Type} `{InputStream T}
      fetch debug_mstream load _user id pg_notify skip_at_end_bytes
      (i : Access.item T) chunk_size0 stop_check_list0 s g0 e g :
  Bulk.media_stream fetch debug_mstream load _user
                    (init i chunk_size0 stop_check_list0) = (inl s, g0) ->
  skip_at_end_bytes < chunk_size0 ->
  get_media fetch debug_mstream load _user id pg_notify skip_at_end_bytes
            i chunk_size0 stop_check_list0
  = Some (e, g) ->
  (e = Raised StreamReadException ->
   skip_at_end_bytes < size s - len (raw_media g) /\ stream g = None)
  /\ (e = Returned ->
      len (raw_media g) < size s ->
      size s - len (raw_media g) <= skip_at_end_bytes).
Proof.
  intros Hopen Hbig. unfold get_media. rewrite Hopen. cbv zeta.
  pose proof (media_stream_frame _ _ _ _ _ _ _ Hopen) as Hg0.
  assert (Hs : settled (size s) skip_at_end_bytes g0)
    by (unfold settled; rewrite Hg0; cbn; lia).
  destruct (Bulk.loop fetch debug_mstream load _user id pg_notify skip_at_end_bytes
                      _ (size s) g0)
    as [[e1 g1]|] eqn:Hl; [|discriminate].
  destruct (fetch_loop_tolerance _ _ _ _ _ _ _ _ _ _ _ _ Hs Hl) as [Ha Hb].
  destruct e1 as [|x].
  - pose proof (conclude_exits id pg_notify g1) as Hc. cbv zeta in Hc.
    destruct (conclude id pg_notify g1) as [e2 g2]. cbn in Hc.
    intros [= <- <-]. destruct Hc as [Hraw Hc]. rewrite Hraw.
    destruct Hc as [(-> & Hm & _)|[(-> & _)|(-> & _)]].
    + split; [discriminate|]. intros _ Hlt. auto.
    + split; [discriminate|discriminate].
    + split; [discriminate|discriminate].
  - intros [= <- <-]. split; [exact Ha|discriminate].
Qed.

End BulkFacts.

(** ** The scheduling loop *)
Module PlayerFacts.
Import Player PlayerSpec.

Lemma steady_span clock n k :
  steady clock -> clock n <= clock (n + k)%nat <= clock n + 1000 * Z.of_nat k.
Proof.
  intros Hs. induction k as [|k IH].
  - rewrite Nat.add_0_r. lia.
  - replace (n + S k)%nat with (S (n + k)) by lia.
    specialize (Hs (n + k)%nat). lia.
Qed.

Lemma steady_between clock a b :
  steady clock -> (a <= b)%nat -> clock a <= clock b <= clock a + 1000 * Z.of_nat (b - a).
Proof.
  intros Hs Hab. replace b with (a + (b - a))%nat at 1 2 by lia.
  now apply steady_span.
Qed.

Lemma whole_seconds_close a b : a <= b <= a + 6000 -> b ÷ 1000 - a ÷ 1000 <= 15.
Proof.
  intros Hab. Z.to_euclidean_division_equations. lia.
Qed.

Lemma short_wait_not_negative e t : -1000 < e - t -> 0 <= (e - t) ÷ 1000.
Proof.
  intros Hgt. Z.to_euclidean_division_equations. lia.
Qed.

Section Facts.
Context {T : Type}.
Variable clock : nat -> Z.
Variable arrivals : nat -> list segment.
Variable signals : nat -> option signal.

Local Abbreviation step := (@Player.step T clock arrivals signals).
Local Abbreviation loop := (@Player.loop T clock arrivals signals).
Local Abbreviation lag_compensation := (@Player.lag_compensation T clock).
Local Abbreviation start_playback := (@Player.start_playback T clock).
Local Abbreviation receive := (@Player.receive T clock).
Local Abbreviation deliver := (@Player.deliver T clock).
Local Abbreviation finish := (@Player.finish T clock).
Local Abbreviation step_spec := (@PlayerSpec.step_spec T clock arrivals signals).
Local Abbreviation taken := (@PlayerSpec.taken T clock).
Local Abbreviation alive := (@PlayerSpec.alive T clock).

(** *** What each building block leaves alone *)

Lemma lag_frame (p : state T) :
  item (lag_compensation p) = item p
  /\ container (lag_compensation p) = container p
  /\ stop_marker (lag_compensation p) = stop_marker p
  /\ next_frame_critical_time (lag_compensation p) = next_frame_critical_time p
  /\ last_frame_on (lag_compensation p) = last_frame_on p
  /\ stdin (lag_compensation p) = stdin p
  /\ rounds (lag_compensation p) = rounds p
  /\ (ticks p <= ticks (lag_compensation p) <= ticks p + 3)%nat.
Proof.
  unfold Player.lag_compensation.
  destruct (next_frame_critical_time p =? 0); [repeat split; lia|].
  cbn. destruct (_ >? _); cbn; repeat split; lia.
Qed.

Lemma start_frame (p : state T) :
  item (start_playback p) = item p
  /\ container (start_playback p) = container p
  /\ stop_marker (start_playback p) = stop_marker p
  /\ next_frame_critical_time (start_playback p) = next_frame_critical_time p
  /\ last_frame_on (start_playback p) = last_frame_on p
  /\ stdin (start_playback p) = stdin p
  /\ rounds (start_playback p) = rounds p
  /\ (ticks p <= ticks (start_playback p) <= ticks p + 1)%nat.
Proof.
  unfold Player.start_playback.
  destruct (estimated_playback_end_on p =? 0); cbn; repeat split; lia.
Qed.

Lemma receive_frame rest (p : state T) :
  item (receive rest p) = item p
  /\ container (receive rest p) = rest
  /\ stop_marker (receive rest p) = stop_marker p
  /\ next_frame_critical_time (receive rest p) = next_frame_critical_time p
  /\ last_frame_on (receive rest p) = clock (ticks p) ÷ 1000
  /\ stdin (receive rest p) = stdin p
  /\ rounds (receive rest p) = rounds p
  /\ (ticks p + 1 <= ticks (receive rest p) <= ticks p + 5)%nat.
Proof.
  unfold Player.receive. cbn.
  match goal with |- context [start_playback (lag_compensation ?q)] => set (p1 := q) end.
  destruct (lag_frame p1) as (L1 & L2 & L3 & L4 & L5 & L6 & L7 & L8).
  destruct (start_frame (lag_compensation p1)) as (S1 & S2 & S3 & S4 & S5 & S6 & S7 & S8).
  rewrite S1, S3, S4, S5, S6, S7, L1, L3, L4, L5, L6, L7.
  subst p1; cbn in *. repeat split; lia.
Qed.


#[local] Arguments PlayerSpec.taken : simpl never.
#[local] Arguments Player.receive : simpl never.

(** *** The ways through a pass *)

Lemma step_inv (p : state T) : step_spec p (step p).
Proof.
  unfold Player.step.
  destruct (signals (rounds p)) as [[|]|] eqn:Hsig;
    [now constructor| |].
  all: cbn [now next_round fst snd last_frame_on ticks rounds container].
  all: destruct (clock (ticks p) ÷ 1000 - last_frame_on p >? 15) eqn:Hdog;
    [apply StepStall; [congruence|unfold PlayerSpec.alive; lia]|].
  all: assert (Hal : alive p) by (unfold PlayerSpec.alive; lia).
  all: cbn [upd_container container].
  all: destruct (container p ++ arrivals (rounds p)) as [|seg rest] eqn:Hc;
    [apply StepIdle; [congruence|assumption|assumption]|].
  all: destruct (len (snd seg) =? 0) eqn:Hz;
    [apply Z.eqb_eq, len_zero in Hz;
     eapply StepBreak; [congruence|assumption|eassumption|assumption]|].
  all: assert (Hne : snd seg <> []) by (intros E; rewrite E in Hz; discriminate).
  - eapply StepPipe; eauto.
  - eapply StepDeliver; eauto.
Qed.


Lemma taken_frame seg rest (p : state T) :
  item (taken seg rest p) = item p
  /\ container (taken seg rest p) = rest
  /\ stop_marker (taken seg rest p) = stop_marker p
  /\ next_frame_critical_time (taken seg rest p) = next_frame_critical_time p
  /\ last_frame_on (taken seg rest p) = clock (S (ticks p)) ÷ 1000
  /\ stdin (taken seg rest p) = stdin p
  /\ rounds (taken seg rest p) = S (rounds p)
  /\ (ticks p + 2 <= ticks (taken seg rest p) <= ticks p + 6)%nat.
Proof.
  unfold PlayerSpec.taken.
  match goal with |- context [receive rest ?q] =>
    destruct (receive_frame rest q) as (R1 & R2 & R3 & R4 & R5 & R6 & R7 & R8)
  end.
  rewrite R1, R2, R3, R4, R5, R6, R7. cbn in *. repeat split; lia.
Qed.

Ltac step_cases p Hs :=
  let Hi := fresh "Hi" in
  pose proof (step_inv p) as Hi; rewrite Hs in Hi;
  inversion Hi as [Hsig|Hsig Hdog|Hsig Hal Hc|seg rest Hsig Hal Hc Hnil
                   |seg rest Hsig Hal Hc Hne|seg rest Hsig Hal Hc Hne];
  subst; clear Hi.

(** *** The flag *)

Lemma step_flag (p : state T) :
  Utils.to_bool (stop_marker p) = true ->
  Utils.to_bool (stop_marker (snd (step p))) = true.
Proof.
  intros Hf. destruct (step p) as [f p1] eqn:Hs. step_cases p Hs; cbn; auto.
  - destruct (taken_frame seg rest p) as (_ & _ & E & _). now rewrite E.
  - destruct (taken_frame seg rest p) as (_ & _ & E & _). now rewrite E.
Qed.

Lemma finish_frame (p : state T) :
  stop_marker (snd (finish p)) = stop_marker p
  /\ stdin (snd (finish p)) = stdin p
  /\ (fst (finish p) = Returned -> stream (snd (finish p)) = None).
Proof.
  unfold Player.finish. cbn.
  destruct (estimated_playback_end_on p >? clock (ticks p)); cbn;
    destruct (Utils.to_bool (stop_marker p)); cbn; auto.
  - destruct (_ <? 0); cbn; auto. repeat split. discriminate.
Qed.

(** *** The bytes written *)

Lemma step_continue (p p1 : state T) :
  step p = (Continue, p1) ->
  stdin p1 ++ payload (container p1)
  = stdin p ++ payload (container p ++ arrivals (rounds p))
  /\ rounds p1 = S (rounds p).
Proof.
  intros Hs. step_cases p Hs.
  - cbn. rewrite Hc. auto.
  - destruct (taken_frame seg rest p) as (_ & E2 & _ & _ & _ & E6 & E7 & _).
    cbn. rewrite E2, E6, E7, Hc. unfold payload. cbn.
    rewrite <- app_assoc. auto.
Qed.

Lemma step_leave (p p1 : state T) l : step p = (Leave l, p1) -> stdin p1 = stdin p.
Proof.
  intros Hs. step_cases p Hs; cbn; auto.
  - now destruct (taken_frame seg rest p) as (_ & _ & _ & _ & _ & E6 & _).
  - now destruct (taken_frame seg rest p) as (_ & _ & _ & _ & _ & E6 & _).
Qed.

Lemma loop_stdin fuel (p p' : state T) l :
  loop fuel p = Some (l, p') ->
  exists more,
    stdin p' ++ more
    = stdin p ++ payload (container p) ++ payload (arrived arrivals (rounds p) fuel).
Proof.
  revert p. induction fuel as [|fuel IH]; intros p Hl; [discriminate|].
  cbn in Hl. destruct (step p) as [[|l1] p1] eqn:Hs.
  - destruct (IH _ Hl) as [more Hm]. exists more.
    apply step_continue in Hs as [Hb Hr].
    rewrite Hm, Hr. cbn [arrived].
    rewrite app_assoc, Hb, !payload_app, <- !app_assoc. reflexivity.
  - injection Hl as <- <-. apply step_leave in Hs. rewrite Hs. eauto.
Qed.


(** *** A steady clock and no signals *)

Lemma recent_alive (p : state T) : steady clock -> recent clock p -> alive p.
Proof.
  intros Hs (k0 & Hl & Hk). unfold PlayerSpec.alive. rewrite Hl.
  apply whole_seconds_close.
  pose proof (steady_between clock k0 (ticks p) Hs ltac:(lia)). lia.
Qed.

Lemma deliver_recent seg rest (p : state T) :
  recent clock (deliver seg (PlayerSpec.counted seg (taken seg rest p))).
Proof.
  destruct (taken_frame seg rest p) as (_ & _ & _ & _ & E5 & _ & _ & E8).
  exists (S (ticks p)). cbn. rewrite E5. split; [reflexivity|lia].
Qed.

Lemma loop_breaks :
  quiet signals -> steady clock ->
  forall c (p : state T) fuel,
    container p ++ arrivals (rounds p) = c ->
    (forall j, (rounds p < j)%nat -> arrivals j = []) ->
    (exists seg, In seg c /\ snd seg = []) ->
    recent clock p ->
    (List.length c <= fuel)%nat ->
    exists p', loop fuel p = Some (Break, p') /\ stop_marker p' = stop_marker p.
Proof.
  intros Hq Hs. induction c as [|seg0 c IH]; intros p fuel Hcont Hlate (sg & Hin & Hsg) Hrec Hfuel.
  - destruct Hin.
  - destruct fuel as [|fuel]; [cbn in Hfuel; lia|].
    pose proof (recent_alive p Hs Hrec) as Halive.
    cbn [Player.loop]. destruct (step p) as [f p1] eqn:Hstep.
    step_cases p Hstep.
    + rewrite Hq in Hsig. discriminate.
    + contradiction.
    + rewrite Hcont in Hc. discriminate.
    + exists (taken seg rest p). split; [reflexivity|].
      now destruct (taken_frame seg rest p) as (_ & _ & E & _).
    + rewrite Hq in Hsig. discriminate.
    + rewrite Hcont in Hc. injection Hc as <- <-.
      destruct Hin as [->|Hin]; [contradiction|].
      destruct (taken_frame seg0 c p) as (_ & E2 & E3 & _ & _ & _ & E7 & _).
      set (p1 := deliver seg0 (PlayerSpec.counted seg0 (taken seg0 c p))).
      assert (Hr1 : rounds p1 = S (rounds p)) by (subst p1; cbn; exact E7).
      assert (Hc1 : container p1 = c) by (subst p1; cbn; exact E2).
      destruct (IH p1 fuel) as (p' & Hl & Hm).
      * rewrite Hc1, Hr1, (Hlate (S (rounds p))) by lia. apply app_nil_r.
      * intros j Hj. apply Hlate. lia.
      * eauto.
      * apply deliver_recent.
      * cbn in Hfuel. lia.
      * exists p'. split; [exact Hl|]. rewrite Hm. subst p1. cbn. exact E3.
Qed.

Lemma finish_returns (p : state T) : steady clock -> fst (finish p) = Returned.
Proof.
  intros Hs. unfold Player.finish. cbn.
  destruct (estimated_playback_end_on p >? clock (ticks p)) eqn:E; cbn;
    destruct (Utils.to_bool (stop_marker p)); cbn; auto.
  destruct (_ <? 0) eqn:E2; cbn; auto.
  apply Z.ltb_lt in E2. specialize (Hs (ticks p)).
  pose proof (short_wait_not_negative (estimated_playback_end_on p) (clock (S (ticks p)))).
  lia.
Qed.

(** *** Lag compensation *)

Lemma taken_late seg rest (p : state T) :
  next_frame_critical_time p <> 0 ->
  next_frame_critical_time p + 30 < clock (ticks p + 2) ->
  estimated_playback_end_on p + (clock (ticks p + 3) - next_frame_critical_time p) <> 0 ->
  estimated_playback_end_on (taken seg rest p)
  = estimated_playback_end_on p + (clock (ticks p + 3) - next_frame_critical_time p).
Proof.
  replace (ticks p + 2)%nat with (S (S (ticks p))) by lia.
  replace (ticks p + 3)%nat with (S (S (S (ticks p)))) by lia.
  intros Hn Hlate Hnz.
  apply Z.eqb_neq in Hn, Hnz. apply Z.gtb_lt in Hlate.
  unfold PlayerSpec.taken, Player.receive, Player.lag_compensation. cbn.
  rewrite Hn. cbn. rewrite Hlate.
  unfold Player.start_playback. cbn. rewrite Hnz. reflexivity.
Qed.

Lemma taken_in_time seg rest (p : state T) :
  clock (ticks p + 2) <= next_frame_critical_time p + 30 ->
  estimated_playback_end_on p <> 0 ->
  estimated_playback_end_on (taken seg rest p) = estimated_playback_end_on p.
Proof.
  replace (ticks p + 2)%nat with (S (S (ticks p))) by lia.
  intros Hin Hnz. apply Z.eqb_neq in Hnz.
  assert (Hle : (clock (S (S (ticks p))) >? next_frame_critical_time p + 30) = false)
    by lia.
  unfold PlayerSpec.taken, Player.receive, Player.lag_compensation. cbn.
  destruct (next_frame_critical_time p =? 0) eqn:E0; cbn.
  - unfold Player.start_playback. cbn. rewrite Hnz. reflexivity.
  - rewrite Hle. unfold Player.start_playback. cbn. rewrite Hnz. reflexivity.
Qed.

(** *** The item *)

Lemma step_item (p : state T) : item (snd (step p)) = item p.
Proof.
  destruct (step p) as [f p1] eqn:Hs. step_cases p Hs; cbn; auto.
  all: now destruct (taken_frame seg rest p) as (E & _).
Qed.

Lemma loop_item fuel (p p' : state T) l :
  loop fuel p = Some (l, p') -> item p' = item p.
Proof.
  revert p. induction fuel as [|fuel IH]; intros p Hl; [discriminate|].
  cbn in Hl. pose proof (step_item p) as Hs.
  destruct (step p) as [[|l1] p1]; cbn in Hs.
  - rewrite (IH _ Hl). exact Hs.
  - injection Hl as <- <-. exact Hs.
Qed.

(** *** The flag along the passes *)

Lemma run_flag n (p : state T) :
  Utils.to_bool (stop_marker p) = true ->
  Utils.to_bool (stop_marker (snd (Player.run clock arrivals signals n p))) = true.
Proof.
  revert p. induction n as [|n IH]; intros p Hf; [exact Hf|].
  cbn [Player.run]. pose proof (step_flag p Hf) as Hs.
  destruct (step p) as [[|l] p1]; cbn in Hs; auto.
Qed.

Lemma run_flag_later n k (p : state T) :
  Utils.to_bool (stop_marker (snd (Player.run clock arrivals signals n p))) = true ->
  Utils.to_bool (stop_marker (snd (Player.run clock arrivals signals (n + k) p))) = true.
Proof.
  revert p. induction n as [|n IH]; intros p Hf.
  - apply run_flag. exact Hf.
  - cbn [Player.run Nat.add] in *.
    destruct (step p) as [[|l] p1]; auto.
Qed.

End Facts.

Section Play.
Context {T : Type}.
Variable clock : nat -> Z.
Variable arrivals : nat -> list segment.
Variable signals : nat -> option signal.
Variable fetch : option Py.dict -> bool -> option Py.dict * bool.
Variable debug_mstream : Z.
Variable load : Py.value -> bool -> Access.quality -> Access.loading T.
Variable _user : option Access.user.

Local Abbreviation start := (@Player.start T fetch debug_mstream load _user).
Local Abbreviation play :=
  (@Player.play T clock arrivals signals fetch debug_mstream load _user).

(** *** The way into the loop *)

Lemma start_opened popen (i i1 : Access.item T) s :
  start popen i = (inl s, i1) ->
  popen = true /\ admitted debug_mstream _user /\ Access.stream i1 = Some s.
Proof.
  unfold Player.start. destruct popen; [|discriminate].
  intros Hm. split; [reflexivity|].
  exact (AccessFacts.media_stream_granted _ _ _ _ _ _ _ Hm).
Qed.

Lemma start_refused popen (i i1 : Access.item T) e :
  start popen i = (inr e, i1) ->
  e <> RuntimeError /\ e <> ValueError
  /\ (popen = false -> e = OSError /\ i1 = i)
  /\ (popen = true -> e <> OSError /\ Access.stream i1 = None).
Proof.
  unfold Player.start. destruct popen.
  - intros Hm.
    pose proof (AccessFacts.media_stream_refused _ _ _ _ _ _ _ Hm) as Hs.
    revert Hm. unfold Item.media_stream.
    destruct _user as [u|].
    + destruct (Access.media_stream_as_user _ _ _ _ _) as [[s0|f] i0];
        [discriminate|].
      intros [= <- <-]. repeat split; try discriminate. exact Hs.
    + intros [= <- <-]. repeat split; try discriminate.
  - intros [= <- <-]. repeat split; try discriminate.
Qed.

Lemma play_stdin fuel popen (i : Access.item T) flag e p :
  play fuel popen i flag = Some (e, p) ->
  exists more, stdin p ++ more = payload (arrived arrivals 0 fuel).
Proof.
  unfold Player.play.
  destruct (start popen i) as [[s|e0] i1].
  2:{ intros [= _ <-]. cbn. eauto. }
  intros Hp.
  destruct (Player.loop clock arrivals signals fuel (enter clock i1 flag))
    as [[l p1]|] eqn:Hl; [|discriminate].
  apply loop_stdin in Hl as [more Hm]. cbn in Hm.
  assert (Hs : stdin p = stdin p1).
  { destruct (finish_frame clock p1) as (_ & E & _).
    destruct l; injection Hp as Hp; try (rewrite Hp in E; exact E).
    now subst p. }
  exists more. rewrite Hs. exact Hm.
Qed.

Lemma finish_exits (p : state T) :
  fst (finish clock p) = Returned \/ fst (finish clock p) = Raised ValueError.
Proof.
  unfold Player.finish. cbn.
  repeat match goal with |- context [if ?c then _ else _] => destruct c end;
    cbn; auto.
Qed.

Lemma play_stall_keeps_stream fuel popen (i : Access.item T) flag p :
  play fuel popen i flag = Some (Raised RuntimeError, p) ->
  exists s, start popen i = (inl s, item p) /\ stream p = Some s.
Proof.
  unfold Player.play.
  destruct (start popen i) as [[s|e0] i1] eqn:Hst.
  2:{ intros [= -> _]. now destruct (start_refused _ _ _ _ Hst) as (Hne & _). }
  intros Hp.
  destruct (Player.loop clock arrivals signals fuel (enter clock i1 flag))
    as [[l p1]|] eqn:Hl; [|discriminate].
  apply loop_item in Hl. cbn in Hl.
  destruct (start_opened _ _ _ _ Hst) as (_ & _ & Hs).
  destruct l.
  - exfalso. injection Hp as Hp. destruct (finish_exits p1) as [E|E];
      rewrite Hp in E; discriminate.
  - exfalso. injection Hp as Hp. destruct (finish_exits p1) as [E|E];
      rewrite Hp in E; discriminate.
  - injection Hp as <-. exists s. unfold Player.stream. rewrite Hl. auto.
Qed.

End Play.

Lemma play_meets_end_marker {T : Type} clock signals fetch debug_mstream load _user
      q fuel popen (i i1 : Access.item T) s flag :
  quiet signals -> steady clock ->
  (exists seg, In seg q /\ snd seg = []) ->
  (List.length q <= fuel)%nat ->
  Player.start fetch debug_mstream load _user popen i = (inl s, i1) ->
  exists p, Player.play clock (Session.all_at_once q) signals
                        fetch debug_mstream load _user fuel popen i flag
            = Some (Returned, p)
            /\ stream p = None.
Proof.
  intros Hq Hs Hend Hfuel Hst. unfold Player.play. rewrite Hst.
  destruct (loop_breaks clock (Session.all_at_once q) signals Hq Hs q
                        (enter clock i1 flag) fuel) as (p' & Hl & _).
  - reflexivity.
  - intros [|j] Hj; [cbn in Hj; lia|reflexivity].
  - exact Hend.
  - exists 0%nat. cbn. split; [reflexivity|lia].
  - exact Hfuel.
  - rewrite Hl.
    pose proof (finish_returns clock p' Hs) as Hr.
    destruct (finish_frame clock p') as (_ & _ & Hnone).
    destruct (finish clock p') as [e p2]. cbn in *. subst e. eauto.
Qed.

End PlayerFacts.

(** * The claims *)

Section Claim1.
Context {T : Type} `{InputStream T} `{OggProbe}.

(** C1 (as the code has it).  A [StreamReadException] of the worker stays
    on the worker's thread.  Whenever the worker raises it, the end
    marker is in the list; with the list handed over at once, a steady
    clock and no signal, [play] pops up to the marker, leaves its loop
    and returns normally with the stream reset, as after a run of the
    worker that did not fail. *)
Theorem worker_failure_goes_unnoticed
        clock signals fetch debug_mstream load _user fuel
        (i i1 : Access.item T) media_stream
        chunk_size skip_at_end_bytes stop_marker0 w :
  steady clock -> quiet signals ->
  Player.start fetch debug_mstream load _user true i = (inl media_stream, i1) ->
  Worker.fetch_thread_worker (fun _ => Session.seen stop_marker0) [] media_stream
                             chunk_size skip_at_end_bytes
  = Some (Raised StreamReadException, w) ->
  (List.length (Worker.media_container w) <= fuel)%nat ->
  exists p,
    Session.worker_first clock signals fetch debug_mstream load _user
                         fuel true i chunk_size skip_at_end_bytes stop_marker0
    = Some (Some (Raised StreamReadException, w), (Returned, p))
    /\ Player.stream p = None.
Proof.
  intros Hs Hq Hst Hw Hfuel. unfold Session.worker_first. rewrite Hst, Hw.
  pose proof (WorkerFacts.fetch_thread_worker_finished _ _ _ _ _ _ _ Hw) as Hfin.
  destruct Hfin as (pub & Hc & _).
  destruct (PlayerFacts.play_meets_end_marker clock signals
              fetch debug_mstream load _user (Worker.media_container w)
              fuel true i i1 media_stream stop_marker0 Hq Hs) as (p & Hp & Hnone).
  - exists sentinel. split; [|reflexivity].
    rewrite Hc. cbn. apply in_or_app. right. now left.
  - exact Hfuel.
  - exact Hst.
  - rewrite Hp. eauto.
Qed.

End Claim1.

Lemma ticking_steady : steady Examples.ticking.
Proof. intros n. unfold Examples.ticking. lia. Qed.

Lemma no_signal_quiet : quiet Examples.no_signal.
Proof. intros i. reflexivity. Qed.

(** C1, at a concrete input: 500 of 1000 bytes arrive, the worker raises,
    [play] returns. *)
Lemma worker_failure_goes_unnoticed_witness :
  exists w p,
    @Session.worker_first Scripted _ Examples.probe Examples.ticking Examples.no_signal
                          Library.fetch_name 0 (Studio.serving Examples.broken)
                          (Some Studio.premium)
                          5 true Studio.track 500 167 None
    = Some (Some (Raised StreamReadException, w), (Returned, p))
    /\ Player.stream p = None.
Proof.
  eexists.
  eapply (@worker_failure_goes_unnoticed Scripted _ Examples.probe).
  - exact ticking_steady.
  - exact no_signal_quiet.
  - vm_compute. reflexivity.
  - vm_compute. reflexivity.
  - vm_compute. lia.
Defined.

(** C1 (as stated) fails: the worker raises [StreamReadException] after
    the end marker, and the call of [play] ends as a normal return. *)
Lemma worker_failure_reported_as_completion :
  exists w p,
    @Session.worker_first Scripted _ Examples.probe Examples.ticking Examples.no_signal
                          Library.fetch_name 0 (Studio.serving Examples.broken)
                          (Some Studio.premium)
                          5 true Studio.track 500 167 None
    = Some (Some (Raised StreamReadException, w), (Returned, p))
    /\ Worker.media_container w = [(5000, blob 500); sentinel]
    /\ Player.stdin p = blob 500.
Proof.
  eexists. eexists. split; [vm_compute; reflexivity|]. split; reflexivity.
Qed.

(** C2 (the code falls short of it).  The queue stays empty and the clock
    is read every 100 ms: after 16 s the watchdog sets the flag and
    raises [RuntimeError], and the stream handle [play] loaded is still
    held: [reset_stream] of line 460 is never reached. *)
Theorem stall_leaves_stream_held :
  exists p,
    Player.play Examples.waiting Examples.nothing Examples.no_signal
                Library.fetch_name 0 (Studio.serving Examples.mute)
                (Some Studio.premium)
                200 true Studio.track None
    = Some (Raised RuntimeError, p)
    /\ Player.stream p = Some Examples.mute
    /\ Utils.to_bool (Player.stop_marker p) = true
    /\ Player.rounds p = 160%nat.
Proof.
  eexists. split; [vm_compute; reflexivity|].
  repeat split; vm_compute; reflexivity.
Qed.

(** C3 (the code falls short of it).  With the defaults of [play] (chunk
    1024, tolerance 167) and 1124 bytes declared, an empty second read
    leaves 100 bytes unread: the chunk is cut to 100, nothing is raised,
    the unchanged buffer is probed again and [(0.0, b'')] is published.
    The worker goes on, publishes the last 100 bytes and appends the end
    marker: two such tuples, the first of them not last. *)
Theorem end_marker_published_twice :
  exists w,
    @Worker.fetch_thread_worker Scripted _ Examples.probe Examples.never
                                [] Examples.stuttering 1024 167
    = Some (Returned, w)
    /\ Worker.media_container w
       = [(10240, blob 1024); sentinel; (1000, blob 100); sentinel]
    /\ List.length (filter is_sentinel (Worker.media_container w)) = 2%nat
    /\ Worker.requests w = [1024; 1024; 100].
Proof.
  eexists. split; [vm_compute; reflexivity|]. repeat split.
Qed.

(** C5 (the code falls short of it).  With a chunk size of 100, below the
    tolerance of 167, the first read returns nothing while all 1000
    bytes are unread, and [get_media] returns the empty buffer instead
    of raising [StreamReadException]. *)
Theorem small_chunk_hides_read_failure :
  exists g,
    @Bulk.get_media Scripted _ Library.fetch_name 0 (Studio.serving Examples.mute)
                    (Some Studio.premium) "t1" (Some Examples.silent) 167
                    Studio.track 100 None
    = Some (Returned, g)
    /\ Bulk.raw_media g = []
    /\ 167 < size Examples.mute - len (Bulk.raw_media g)
    /\ Bulk.progress g = [(0, 1000, Bulk.Downloading)].
Proof.
  eexists. split; [vm_compute; reflexivity|].
  repeat split; vm_compute; reflexivity.
Qed.

(** C7 (the code falls short of it).  2500 bytes with chunk 1024: the
    worker cuts the chunk by the count from before the read, so its
    third read still asks for 1024 bytes when 452 are left; [get_media],
    which counts the bytes first, asks for 452. *)
Theorem worker_last_read_overshoots :
  exists w g,
    @Worker.fetch_thread_worker Scripted _ Examples.probe Examples.never
                                [] Examples.fluent 1024 167
    = Some (Returned, w)
    /\ Worker.requests w = [1024; 1024; 1024]
    /\ Worker.size_fetched w = 2500
    /\ @Bulk.get_media Scripted _ Library.fetch_name 0 (Studio.serving Examples.fluent)
                       (Some Studio.premium) "t1" (Some Examples.silent) 167
                       Studio.track 1024 None
       = Some (Returned, g)
    /\ Bulk.requests g = [1024; 1024; 452].
Proof.
  eexists. eexists. split; [vm_compute; reflexivity|].
  split; [reflexivity|]. split; [reflexivity|].
  split; [vm_compute; reflexivity|]. reflexivity.
Qed.

(** C6 (as the code has it).  A segment that is not the first and is found
    more than 30 ms after [next_frame_critical_time] moves
    [estimated_playback_end_on] forward by the whole overrun, the clock
    being read again for it (line 428); the 30 ms only decide whether the
    move is made.  The segment's own duration is added on top and its
    bytes are written in full. *)
Theorem late_segment_extends_by_full_overrun {T : Type}
        clock arrivals signals (p : Player.state T) seg rest :
  signals (Player.rounds p) = None ->
  PlayerSpec.alive clock p ->
  Player.container p ++ arrivals (Player.rounds p) = seg :: rest ->
  snd seg <> [] ->
  Player.next_frame_critical_time p <> 0 ->
  Player.next_frame_critical_time p + 30 < clock (Player.ticks p + 2)%nat ->
  Player.estimated_playback_end_on p
  + (clock (Player.ticks p + 3)%nat - Player.next_frame_critical_time p) <> 0 ->
  exists p',
    Player.step clock arrivals signals p = (Player.Continue, p')
    /\ Player.estimated_playback_end_on p'
       = Player.estimated_playback_end_on p
         + (clock (Player.ticks p + 3)%nat - Player.next_frame_critical_time p)
         + fst seg
    /\ Player.stdin p' = Player.stdin p ++ snd seg.
Proof.
  intros Hsig Halive Hcont Hne Hn Hlate Hnz.
  pose proof (PlayerFacts.step_inv clock arrivals signals p) as Hi.
  destruct (Player.step clock arrivals signals p) as [f p1].
  inversion Hi as [Hs|Hs Hdog|Hs Hal Hc|sg rs Hs Hal Hc Hnil
                   |sg rs Hs Hal Hc Hsn|sg rs Hs Hal Hc Hsn]; subst.
  - congruence.
  - contradiction.
  - congruence.
  - rewrite Hcont in Hc. injection Hc as <- <-. contradiction.
  - congruence.
  - rewrite Hcont in Hc. injection Hc as <- <-.
    eexists. split; [reflexivity|].
    pose proof (PlayerFacts.taken_late clock seg rest p Hn Hlate Hnz) as He.
    destruct (PlayerFacts.taken_frame clock seg rest p) as (_ & _ & _ & _ & _ & E6 & _).
    unfold PlayerSpec.counted. cbn -[PlayerSpec.taken]. rewrite He, E6. split; reflexivity.
Qed.

(** C6, at a pass that starts 200 ms after the deadline. *)
Lemma late_segment_extends_by_full_overrun_witness :
  exists p',
    Player.step Examples.late Examples.nothing Examples.no_signal Examples.lagging
    = (Player.Continue, p')
    /\ Player.estimated_playback_end_on p' = 20000 + (10200 - 10000) + 1000
    /\ Player.stdin p' = blob 4.
Proof.
  apply (late_segment_extends_by_full_overrun
           Examples.late Examples.nothing Examples.no_signal Examples.lagging
           (1000, blob 4) []).
  - reflexivity.
  - unfold PlayerSpec.alive. vm_compute. discriminate.
  - reflexivity.
  - discriminate.
  - vm_compute. discriminate.
  - vm_compute. reflexivity.
  - vm_compute. discriminate.
Defined.

(** C6 (as stated) fails: the segment is found 200 ms after its
    deadline and the estimated end moves by 200 ms beyond the segment's
    own second, not by 170 ms. *)
Lemma late_segment_not_extended_by_170 :
  let p' := snd (Player.step Examples.late Examples.nothing Examples.no_signal
                             Examples.lagging) in
  Examples.late 0 - Player.next_frame_critical_time Examples.lagging = 200
  /\ Player.estimated_playback_end_on p'
     - Player.estimated_playback_end_on Examples.lagging - 1000 = 200
  /\ Player.estimated_playback_end_on p'
     - Player.estimated_playback_end_on Examples.lagging - 1000 <> 200 - 30.
Proof.
  vm_compute. repeat split; discriminate.
Qed.

Section WorkerClaims.
Context {T : Type} `{InputStream T} `{OggProbe}.
Variable halt : nat -> bool.
Variable skip_at_end : Z.

(** C4.  The worker always comes to an end.  When it has taken in all
    [total_size] bytes (a non-empty stream) and the whole of what it read
    can be probed, the durations of the segments published before the
    end marker add up to the probed duration of the whole: each segment
    carries the duration of all bytes so far minus what was attributed
    before.  Durations are exact numbers here, so the sum is exact. *)
Theorem durations_telescope (s : T) chunk0 :
  exists e w,
    Worker.fetch_thread_worker halt [] s chunk0 skip_at_end = Some (e, w)
    /\ (0 < size s ->
        size s <= Worker.size_fetched w ->
        forall d, ogg_length (Worker.full_data w) = Some d ->
        exists pub,
          Worker.media_container w = pub ++ [sentinel]
          /\ total_duration pub = d).
Proof.
  destruct (WorkerFacts.fetch_thread_worker_total halt [] s chunk0 skip_at_end)
    as (e & w & Hw).
  exists e, w. split; [exact Hw|]. intros Hpos Hall d Hd.
  destruct (WorkerFacts.fetch_thread_worker_finished _ _ _ _ _ _ _ Hw)
    as (pub & Hc & Hsum & _).
  exists pub. split; [exact Hc|]. rewrite Hsum.
  unfold Worker.fetch_thread_worker in Hw. cbn [Worker.loop] in Hw.
  destruct (Worker.pass halt (size s) skip_at_end (Worker.init s chunk0 []))
    as [w1|e1 w1] eqn:Hp.
  - apply WorkerFacts.pass_decoded in Hp.
    exact (WorkerFacts.loop_decoded _ _ _ _ _ _ _ Hp Hw d Hd).
  - injection Hw as <- <-.
    apply WorkerFacts.pass_stop_keeps in Hp as (Hsz & _). cbn in Hsz. lia.
Qed.

(** C9.  The worker always comes to an end.  When it ends without an
    exception and bytes are still pending, what the list holds and the
    pending bytes together are all that was read, so the list is short
    of them; and whatever [play] writes to the player, however the list
    is handed over, stops before them. *)
Theorem pending_bytes_are_dropped (s : T) chunk0 :
  exists e w,
    Worker.fetch_thread_worker halt [] s chunk0 skip_at_end = Some (e, w)
    /\ (e = Returned ->
        Worker.pending_data w <> [] ->
        payload (Worker.media_container w) ++ Worker.pending_data w = Worker.full_data w
        /\ len (payload (Worker.media_container w)) < len (Worker.full_data w)
        /\ forall clock arrivals signals fetch debug_mstream load _user
                  fuel popen (i : Access.item T) flag x p,
            delivers arrivals (Worker.media_container w) ->
            Player.play clock arrivals signals fetch debug_mstream load _user
                        fuel popen i flag = Some (x, p) ->
            exists more,
              Player.stdin p ++ more ++ Worker.pending_data w = Worker.full_data w).
Proof.
  destruct (WorkerFacts.fetch_thread_worker_total halt [] s chunk0 skip_at_end)
    as (e & w & Hw).
  exists e, w. split; [exact Hw|]. intros _ Hpend.
  destruct (WorkerFacts.fetch_thread_worker_finished _ _ _ _ _ _ _ Hw)
    as (pub & Hc & _ & Hb).
  assert (Hpay : payload (Worker.media_container w) = payload pub).
  { rewrite Hc, app_nil_l, payload_app. unfold sentinel, payload. cbn.
    now rewrite app_nil_r. }
  split; [now rewrite Hpay|]. split.
  - rewrite <- Hb, Hpay, len_app.
    destruct (Worker.pending_data w) as [|b l]; [contradiction|].
    unfold len. cbn. lia.
  - intros clock arrivals signals fetch debug_mstream load _user
           fuel popen i flag x p Hdel Hplay.
    apply PlayerFacts.play_stdin in Hplay as [more Hm].
    destruct (Hdel fuel) as [tl Htl].
    exists (more ++ payload tl).
    rewrite <- Hb, <- Hpay, <- Htl, payload_app, <- Hm, <- !app_assoc. reflexivity.
Qed.

End WorkerClaims.

(** C4, for 2500 bytes read in chunks of 1024 at 10 ms a byte. *)
Lemma durations_telescope_witness :
  exists e w,
    @Worker.fetch_thread_worker Scripted _ Examples.probe Examples.never
                                [] Examples.fluent 1024 167 = Some (e, w)
    /\ exists pub,
         Worker.media_container w = pub ++ [sentinel] /\ total_duration pub = 25000.
Proof.
  destruct (@durations_telescope Scripted _ Examples.probe Examples.never
              167 Examples.fluent 1024) as (e & w & Hw & Hthm).
  exists e, w. split; [exact Hw|].
  vm_compute in Hw. injection Hw as <- <-.
  apply Hthm.
  - vm_compute. reflexivity.
  - vm_compute. discriminate.
  - vm_compute. reflexivity.
Defined.

(** C9, for three bytes that the prober cannot make sense of. *)
Lemma pending_bytes_are_dropped_witness :
  exists e w,
    @Worker.fetch_thread_worker Scripted _ Examples.probe Examples.never
                                [] Examples.stub 1024 167 = Some (e, w)
    /\ Worker.pending_data w = blob 3
    /\ len (payload (Worker.media_container w)) < len (Worker.full_data w).
Proof.
  destruct (@pending_bytes_are_dropped Scripted _ Examples.probe Examples.never
              167 Examples.stub 1024) as (e & w & Hw & Hthm).
  exists e, w. split; [exact Hw|].
  vm_compute in Hw. injection Hw as <- <-.
  split; [reflexivity|].
  apply Hthm.
  - reflexivity.
  - discriminate.
Defined.

(** C8.  The worker always comes to an end, and if the flag is set when it
    looks at it for the [k]-th time (counting from 0), it has issued at
    most the [k] reads made before that look.  In the loop of [play] a
    flag that is set after [n] passes is set after any later pass, and
    what follows the loop leaves the flag as it is: the only writes are
    [stop_marker.set(True)]. *)
Theorem cancellation_stops_reads_and_stays :
  (forall (T : Type) (IS : InputStream T) (OP : OggProbe)
          halt q0 (s : T) chunk0 skip_at_end,
      exists e w,
        Worker.fetch_thread_worker halt q0 s chunk0 skip_at_end = Some (e, w)
        /\ forall k, halt k = true -> (List.length (Worker.requests w) <= k)%nat)
  /\ (forall (T : Type) clock arrivals signals (p : Player.state T) n k,
         Utils.to_bool (Player.stop_marker (snd (Player.run clock arrivals signals n p)))
         = true ->
         Utils.to_bool
           (Player.stop_marker (snd (Player.run clock arrivals signals (n + k) p)))
         = true)
  /\ (forall (T : Type) clock (p : Player.state T),
         Player.stop_marker (snd (Player.finish clock p)) = Player.stop_marker p).
Proof.
  split; [|split].
  - intros T IS OP halt q0 s chunk0 skip_at_end.
    destruct (WorkerFacts.fetch_thread_worker_total halt q0 s chunk0 skip_at_end)
      as (e & w & Hw).
    exists e, w. split; [exact Hw|]. intros k Hk.
    eapply WorkerFacts.loop_within; [exact Hk| |exact Hw].
    split; cbn; lia.
  - intros T clock arrivals signals p n k. apply PlayerFacts.run_flag_later.
  - intros T clock p. now destruct (PlayerFacts.finish_frame clock p) as (E & _).
Qed.

(** C8, for a flag seen set at the third look and for a [KeyboardInterrupt]
    in the second pass. *)
Lemma cancellation_stops_reads_and_stays_witness :
  (exists e w,
      @Worker.fetch_thread_worker Scripted _ Examples.probe Scenario.from_third
                                  [] Examples.fluent 1024 167 = Some (e, w)
      /\ (List.length (Worker.requests w) <= 2)%nat)
  /\ Utils.to_bool
       (Player.stop_marker
          (snd (Player.run Examples.ticking Examples.nothing Scenario.ctrl_c
                           (2 + 5) Scenario.entered)))
     = true.
Proof.
  destruct cancellation_stops_reads_and_stays as (Hreads & Hflag & _).
  split.
  - destruct (Hreads Scripted _ Examples.probe Scenario.from_third
                     [] Examples.fluent 1024 167) as (e & w & Hw & Hk).
    exists e, w. split; [exact Hw|]. apply Hk. reflexivity.
  - apply Hflag. vm_compute. reflexivity.
Defined.

Section BulkClaims.
Context {T : Type} `{InputStream T}.
Variable fetch : option Py.dict -> bool -> option Py.dict * bool.
Variable debug_mstream : Z.
Variable load : Py.value -> bool -> Access.quality -> Access.loading T.
Variable _user : option Access.user.
Variable id : string.
Variable callback : Z -> Z -> Bulk.phase -> list string -> list string.
Variable skip_at_end_bytes : Z.


End BulkClaims.



(** * Further properties *)

(** ** [get_media] *)
Section BulkExtras.
Context {T : Type} `{InputStream T}.
Variable fetch : option Py.dict -> bool -> option Py.dict * bool.
Variable debug_mstream : Z.
Variable load : Py.value -> bool -> Access.quality -> Access.loading T.
Variable _user : option Access.user.
Variable id : string.
Variable pg_notify : option (Z -> Z -> Bulk.phase -> list string -> list string).
Variable skip_at_end_bytes : Z.

Local Abbreviation get_media :=
  (Bulk.get_media fetch debug_mstream load _user id pg_notify skip_at_end_bytes).
Local Abbreviation media_stream := (Bulk.media_stream fetch debug_mstream load _user).

Lemma get_media_ends (i : Access.item T) chunk_size0 stop_check_list0 :
  exists e g,
    get_media i chunk_size0 stop_check_list0 = Some (e, g)
    /\ match fst (media_stream (Bulk.init i chunk_size0 stop_check_list0)) with
       | inr e0 =>
           e = Raised e0 /\ Bulk.requests g = [] /\ Bulk.raw_media g = []
       | inl _ =>
           ((e = Returned \/ e = Raised StreamReadException
             \/ e = Raised MediaFetchInterruptedException)
            /\ Bulk.stream g = None
            /\ (e <> Returned -> pg_notify <> None))
           \/ (e = Raised TypeError /\ pg_notify = None
               /\ exists s, Bulk.stream g = Some s)
       end.
Proof.
  unfold Bulk.get_media.
  destruct (media_stream (Bulk.init i chunk_size0 stop_check_list0))
    as [[s|e0] g0] eqn:Hopen; cbn [fst].
  2:{ exists (Raised e0), g0. split; [reflexivity|].
      pose proof (BulkFacts.media_stream_frame _ _ _ _ _ _ _ Hopen) as Hg0.
      rewrite Hg0. cbn. auto. }
  cbv zeta. set (total_size := size s).
  destruct (BulkFacts.media_stream_opened _ _ _ _ _ _ _ Hopen) as [Hready _].
  destruct (BulkFacts.fetch_loop_total fetch debug_mstream load _user id pg_notify
              skip_at_end_bytes total_size
              (S (Bulk.measure skip_at_end_bytes total_size g0)) g0)
    as [[e g] Hl]; [lia|].
  cbv beta in Hl. rewrite Hl.
  destruct (BulkFacts.fetch_loop_exits _ _ _ _ _ _ _ _ _ _ _ _ Hready Hl)
    as [[-> Hr]|[(-> & Hs & Hcb)|(-> & Hcb & Hr)]].
  - pose proof (BulkFacts.conclude_exits id pg_notify g) as Hc. cbv zeta in Hc.
    destruct (Bulk.conclude id pg_notify g) as [e2 g2]. cbn in Hc.
    exists e2, g2. split; [reflexivity|].
    destruct Hc as [_ [(-> & _ & Hn)|[(-> & _ & Hcb & Hn)|(-> & _ & Hcb & Hn)]]].
    + left. split; [auto|]. split; [exact Hn|]. congruence.
    + left. split; [auto|]. split; [exact Hn|]. intros _. exact Hcb.
    + right. split; [reflexivity|]. split; [exact Hcb|].
      rewrite Hn. now destruct Hr as [_ Hs].
  - eexists. eexists. split; [reflexivity|]. left.
    split; [auto|]. split; [exact Hs|]. intros _. exact Hcb.
  - eexists. eexists. split; [reflexivity|]. right.
    split; [reflexivity|]. split; [exact Hcb|]. now destruct Hr as [_ Hs].
Qed.

(** X1.  [get_media] always comes to an end.  When [self.media_stream]
    raises on line 264, that exception leaves [get_media] before any
    read.  Otherwise it ends by returning, by [StreamReadException] or by
    [MediaFetchInterruptedException], the last two only with a callback,
    and then the item no longer holds a stream; or, [pg_notify] being
    [None], by the [TypeError] of line 276 or 284, and then the stream is
    still held. *)
Theorem get_media_exits (i : Access.item T) chunk_size0 stop_check_list0 :
  exists e g,
    get_media i chunk_size0 stop_check_list0 = Some (e, g)
    /\ match fst (media_stream (Bulk.init i chunk_size0 stop_check_list0)) with
       | inr e0 =>
           e = Raised e0 /\ Bulk.requests g = [] /\ Bulk.raw_media g = []
       | inl _ =>
           ((e = Returned \/ e = Raised StreamReadException
             \/ e = Raised MediaFetchInterruptedException)
            /\ Bulk.stream g = None
            /\ (e <> Returned -> pg_notify <> None))
           \/ (e = Raised TypeError /\ pg_notify = None
               /\ exists s, Bulk.stream g = Some s)
       end.
Proof. apply get_media_ends. Qed.

(** X2.  With a chunk size above the tolerance, [get_media] keeps to the
    tolerance: when it raises [StreamReadException] more than the
    tolerance is unread, and when it returns a buffer shorter than the
    declared size at most the tolerance is missing.  The declared size is
    that of the stream obtained on line 264. *)
Theorem get_media_within_tolerance (i : Access.item T) chunk_size0 stop_check_list0 :
  skip_at_end_bytes < chunk_size0 ->
  exists e g,
    get_media i chunk_size0 stop_check_list0 = Some (e, g)
    /\ forall s g0,
        media_stream (Bulk.init i chunk_size0 stop_check_list0) = (inl s, g0) ->
        let total_size := size s in
        (e = Raised StreamReadException ->
         skip_at_end_bytes < total_size - len (Bulk.raw_media g))
        /\ (e = Returned ->
            len (Bulk.raw_media g) < total_size ->
            total_size - len (Bulk.raw_media g) <= skip_at_end_bytes).
Proof.
  intros Hbig.
  destruct (get_media_ends i chunk_size0 stop_check_list0)
    as (e & g & Hg & _).
  exists e, g. split; [exact Hg|]. intros s g0 Hopen total_size.
  destruct (BulkFacts.get_media_respects_tolerance fetch debug_mstream load _user
              id pg_notify skip_at_end_bytes
              i chunk_size0 stop_check_list0 s g0 e g Hopen Hbig Hg)
    as [Ha Hb].
  split; [|exact Hb]. intros He. now destruct (Ha He).
Qed.

(** X3.  After every full pass of the loop of [get_media] the chunk size
    is at most the number of bytes still missing, so each read after the
    first asks for no more than is left. *)
Theorem get_media_asks_within_remainder total_size n (g g' : Bulk.state T) :
  Passes.bulk_after fetch debug_mstream load _user id pg_notify
                    skip_at_end_bytes total_size (S n) g = Some g' ->
  Bulk.chunk_size g' <= total_size - len (Bulk.raw_media g').
Proof.
  revert g. induction n as [|n IH]; intros g Ha.
  - cbn in Ha.
    destruct (Bulk.pass fetch debug_mstream load _user id pg_notify
                        skip_at_end_bytes total_size g)
      as [g1|e g1] eqn:Hp; [|discriminate].
    injection Ha as <-.
    pose proof (BulkFacts.fetch_pass_inv fetch debug_mstream load _user id pg_notify
                  skip_at_end_bytes total_size g)
      as Hi.
    rewrite Hp in Hi. inversion Hi as [| | | | |s g2 data s' Hrun Hopen Hread Hzero]; subst.
    destruct (BulkFacts.fetch_shrink_frame total_size
                (BulkSpec.noted fetch debug_mstream load _user pg_notify total_size g))
      as (Hraw & _ & _ & Hmin).
    rewrite Hraw, Hmin. lia.
  - cbn [Passes.bulk_after] in Ha.
    destruct (Bulk.pass fetch debug_mstream load _user id pg_notify
                        skip_at_end_bytes total_size g)
      as [g1|e g1] eqn:Hp; [|discriminate].
    eapply IH. exact Ha.
Qed.

End BulkExtras.

(** X2, for 500 of 1000 bytes and then silence, read in chunks of 500. *)
Lemma get_media_within_tolerance_witness :
  exists e g,
    @Bulk.get_media Scripted _ Library.fetch_name 0 (Studio.serving Examples.broken)
                    (Some Studio.premium) "t1" (Some Examples.silent) 167
                    Studio.track 500 None
    = Some (e, g)
    /\ (e = Raised StreamReadException -> 167 < 1000 - len (Bulk.raw_media g))
    /\ (e = Returned -> len (Bulk.raw_media g) < 1000 ->
        1000 - len (Bulk.raw_media g) <= 167).
Proof.
  destruct (@get_media_within_tolerance Scripted _ Library.fetch_name 0
              (Studio.serving Examples.broken) (Some Studio.premium) "t1"
              (Some Examples.silent) 167 Studio.track 500 None ltac:(lia))
    as (e & g & Hg & Hthm).
  exists e, g. split; [exact Hg|].
  eapply (Hthm Examples.broken). vm_compute. reflexivity.
Defined.

(** X3, after two passes over 2500 bytes in chunks of 1024. *)
Lemma get_media_asks_within_remainder_witness :
  exists g',
    Passes.bulk_after Library.fetch_name 0 (Studio.serving Examples.fluent)
                      (Some Studio.premium) "t1" (Some Examples.silent) 167 2500 2
                      (Bulk.init (Examples.holder Examples.fluent) 1024 None) = Some g'
    /\ Bulk.chunk_size g' <= 2500 - len (Bulk.raw_media g').
Proof.
  eexists. split; [vm_compute; reflexivity|].
  eapply (@get_media_asks_within_remainder Scripted _ Library.fetch_name 0
            (Studio.serving Examples.fluent) (Some Studio.premium) "t1"
            (Some Examples.silent) 167 2500 1
            (Bulk.init (Examples.holder Examples.fluent) 1024 None)).
  vm_compute. reflexivity.
Defined.

(** ** The worker *)
Section WorkerExtras.
Context {T : Type} `{InputStream T} `{OggProbe}.
Variable halt : nat -> bool.
Variable skip_at_end : Z.

Lemma worker_shrink_min total_size (w : Worker.state T) :
  Worker.chunk (Worker.shrink total_size w)
  = Z.min (Worker.chunk w) (total_size - Worker.size_fetched w).
Proof. unfold Worker.shrink. destruct (_ <? _) eqn:E; cbn; lia. Qed.

Lemma worker_pass_settled total_size (w w' : Worker.state T) :
  Passes.worker_settled total_size skip_at_end w ->
  Worker.pass halt total_size skip_at_end w = Worker.Again w' ->
  Passes.worker_settled total_size skip_at_end w'.
Proof.
  intros Hs Hp.
  pose proof (WorkerFacts.pass_inv halt total_size skip_at_end w) as Hi.
  rewrite Hp in Hi. inversion Hi as [| | |data s' Hrun Hread Hzero]; subst.
  destruct (WorkerFacts.do_read_frame w data s' Hread) as (Hc1 & Hs1 & _).
  set (w1 := snd (Worker.do_read (Worker.tick w))) in *.
  destruct (WorkerFacts.shrink_frame total_size w1) as (Hs2 & _).
  destruct (WorkerFacts.account_frame data (Worker.shrink total_size w1))
    as (Hc3 & Hs3 & _).
  pose proof (worker_shrink_min total_size w1) as Hmin.
  pose proof (len_nonneg data).
  unfold Passes.worker_settled in *. rewrite Hc3, Hs3, Hs2, Hs1, Hmin, Hc1. lia.
Qed.

Lemma worker_pass_stop total_size (w w' : Worker.state T) e :
  Passes.worker_settled total_size skip_at_end w ->
  Worker.pass halt total_size skip_at_end w = Worker.Stop e w' ->
  (e = Returned \/ e = Raised StreamReadException)
  /\ (e = Raised StreamReadException ->
      skip_at_end < total_size - Worker.size_fetched w')
  /\ (e = Returned -> Worker.size_fetched w' < total_size ->
      (forall k, halt k = false) ->
      total_size - Worker.size_fetched w' <= skip_at_end).
Proof.
  intros Hs Hp.
  pose proof (WorkerFacts.pass_inv halt total_size skip_at_end w) as Hi.
  rewrite Hp in Hi.
  inversion Hi as [Hrun|s' Hrun Hread Hsmall|s' Hrun Hread Hbig Hbig'|]; subst.
  - split; [now left|]. split; [discriminate|]. intros _ Hlt Hh. cbn in *.
    unfold Worker.running in Hrun. rewrite Hh in Hrun. cbn in Hrun.
    rewrite andb_true_r in Hrun. apply Z.ltb_ge in Hrun. lia.
  - destruct (WorkerFacts.do_read_frame w [] s' Hread) as (_ & Hs1 & _).
    split; [now left|]. split; [discriminate|]. intros _ _ _. cbn.
    rewrite Hs1. apply Hs. exact Hsmall.
  - destruct (WorkerFacts.do_read_frame w [] s' Hread) as (Hc1 & Hs1 & _).
    set (w1 := snd (Worker.do_read (Worker.tick w))) in *.
    destruct (WorkerFacts.shrink_frame total_size w1) as (Hs2 & _).
    pose proof (worker_shrink_min total_size w1) as Hmin.
    split; [now right|]. split; [|discriminate]. intros _. cbn.
    rewrite Hs2, Hs1. lia.
Qed.


(** X5.  The worker raises [StreamReadException] only with more than the
    tolerance unread.  Started with a chunk above the tolerance and never
    told to halt, it returns short of the declared size only when at
    most the tolerance is missing. *)
Theorem worker_within_tolerance q0 (s : T) chunk0 :
  exists e w,
    Worker.fetch_thread_worker halt q0 s chunk0 skip_at_end = Some (e, w)
    /\ (e = Raised StreamReadException ->
        skip_at_end < size s - Worker.size_fetched w)
    /\ (skip_at_end < chunk0 ->
        (forall k, halt k = false) ->
        e = Returned ->
        Worker.size_fetched w < size s ->
        size s - Worker.size_fetched w <= skip_at_end).
Proof.
  destruct (WorkerFacts.fetch_thread_worker_total halt q0 s chunk0 skip_at_end)
    as (e & w & Hw).
  exists e, w. split; [exact Hw|]. split.
  - revert Hw. unfold Worker.fetch_thread_worker.
    apply (WorkerFacts.loop_inv halt (size s) skip_at_end (fun _ => True)
             (fun e w => e = Raised StreamReadException ->
                         skip_at_end < size s - Worker.size_fetched w)); auto.
    intros w0 e0 w0' _ Hp.
    pose proof (WorkerFacts.pass_inv halt (size s) skip_at_end w0) as Hi.
    rewrite Hp in Hi.
    inversion Hi as [| |s' Hrun Hread Hbig Hbig'|]; subst; try discriminate.
    intros _.
    destruct (WorkerFacts.do_read_frame w0 [] s' Hread) as (Hc1 & Hs1 & _).
    set (w1 := snd (Worker.do_read (Worker.tick w0))) in *.
    destruct (WorkerFacts.shrink_frame (size s) w1) as (Hs2 & _).
    pose proof (worker_shrink_min (size s) w1) as Hmin.
    cbn. rewrite Hs2, Hs1. lia.
  - intros Hbig Hh He Hlt. revert Hw He Hlt. unfold Worker.fetch_thread_worker.
    intros Hw.
    refine (WorkerFacts.loop_inv halt (size s) skip_at_end
              (Passes.worker_settled (size s) skip_at_end)
              (fun e w => e = Returned -> Worker.size_fetched w < size s ->
                          size s - Worker.size_fetched w <= skip_at_end)
              _ _ _ _ _ _ _ Hw).
    + intros w0 w0'. apply worker_pass_settled.
    + intros w0 e0 w0' Hs0 Hp He0 Hlt0.
      destruct (worker_pass_stop (size s) w0 w0' e0 Hs0 Hp) as (_ & _ & Hr).
      apply Hr; assumption.
    + unfold Passes.worker_settled. cbn. lia.
Qed.

End WorkerExtras.

(** X5, for 500 of 1000 bytes and then silence, read in chunks of 500. *)
Lemma worker_within_tolerance_witness :
  exists e w,
    @Worker.fetch_thread_worker Scripted _ Examples.probe Examples.never
                                [] Examples.broken 500 167 = Some (e, w)
    /\ 167 < size Examples.broken - Worker.size_fetched w.
Proof.
  destruct (@worker_within_tolerance Scripted _ Examples.probe Examples.never 167
              [] Examples.broken 500) as (e & w & Hw & Hraise & _).
  exists e, w. split; [exact Hw|].
  vm_compute in Hw. injection Hw as <- <-.
  apply Hraise. reflexivity.
Defined.

(** ** The scheduling loop *)
Section PlayerExtras.
Context {T : Type}.
Variable clock : nat -> Z.
Variable arrivals : nat -> list segment.
Variable signals : nat -> option Player.signal.

Lemma step_delivers (p : Player.state T) seg rest :
  signals (Player.rounds p) = None ->
  PlayerSpec.alive clock p ->
  Player.container p ++ arrivals (Player.rounds p) = seg :: rest ->
  snd seg <> [] ->
  Player.step clock arrivals signals p
  = (Player.Continue,
     Player.deliver clock seg (PlayerSpec.counted seg (PlayerSpec.taken clock seg rest p))).
Proof.
  intros Hsig Halive Hcont Hne.
  pose proof (PlayerFacts.step_inv clock arrivals signals p) as Hi.
  destruct (Player.step clock arrivals signals p) as [f p1].
  inversion Hi as [Hs|Hs Hdog|Hs Hal Hc|sg rs Hs Hal Hc Hnil
                   |sg rs Hs Hal Hc Hsn|sg rs Hs Hal Hc Hsn]; subst.
  - congruence.
  - contradiction.
  - congruence.
  - rewrite Hcont in Hc. injection Hc as <- <-. contradiction.
  - congruence.
  - rewrite Hcont in Hc. injection Hc as <- <-. reflexivity.
Qed.

(** X9.  A segment that is not the first and is found no more than 30 ms
    after [next_frame_critical_time] moves [estimated_playback_end_on] by
    its own duration and nothing else; it is written in full and the next
    deadline is the time after the write plus its duration. *)
Theorem timely_segment_adds_its_duration (p : Player.state T) seg rest :
  signals (Player.rounds p) = None ->
  PlayerSpec.alive clock p ->
  Player.container p ++ arrivals (Player.rounds p) = seg :: rest ->
  snd seg <> [] ->
  Player.next_frame_critical_time p <> 0 ->
  clock (Player.ticks p + 2)%nat <= Player.next_frame_critical_time p + 30 ->
  Player.estimated_playback_end_on p <> 0 ->
  exists p',
    Player.step clock arrivals signals p = (Player.Continue, p')
    /\ Player.estimated_playback_end_on p'
       = Player.estimated_playback_end_on p + fst seg
    /\ Player.next_frame_critical_time p' = clock (Player.ticks p + 3)%nat + fst seg
    /\ Player.stdin p' = Player.stdin p ++ snd seg.
Proof.
  intros Hsig Halive Hcont Hne Hn Hin Hnz.
  rewrite (step_delivers p seg rest Hsig Halive Hcont Hne).
  eexists. split; [reflexivity|].
  replace (Player.ticks p + 2)%nat with (S (S (Player.ticks p))) in Hin by lia.
  replace (Player.ticks p + 3)%nat with (S (S (S (Player.ticks p)))) by lia.
  apply Z.eqb_neq in Hn, Hnz.
  assert (Hle : (clock (S (S (Player.ticks p)))
                 >? Player.next_frame_critical_time p + 30) = false) by lia.
  unfold PlayerSpec.counted, PlayerSpec.taken, Player.receive, Player.lag_compensation.
  cbn. rewrite Hn. cbn. rewrite Hle.
  unfold Player.start_playback. cbn. rewrite Hnz. cbn. repeat split.
Qed.

(** X10.  The first segment starts the playback clock: with both
    [estimated_playback_end_on] and [next_frame_critical_time] still
    [0.0], no lag is made up for, the estimated end becomes the time of
    the look plus the segment's duration, and the segment is written. *)
Theorem first_segment_starts_playback (p : Player.state T) seg rest :
  signals (Player.rounds p) = None ->
  PlayerSpec.alive clock p ->
  Player.container p ++ arrivals (Player.rounds p) = seg :: rest ->
  snd seg <> [] ->
  Player.next_frame_critical_time p = 0 ->
  Player.estimated_playback_end_on p = 0 ->
  exists p',
    Player.step clock arrivals signals p = (Player.Continue, p')
    /\ Player.estimated_playback_end_on p' = clock (Player.ticks p + 2)%nat + fst seg
    /\ Player.next_frame_critical_time p' = clock (Player.ticks p + 3)%nat + fst seg
    /\ Player.stdin p' = Player.stdin p ++ snd seg.
Proof.
  intros Hsig Halive Hcont Hne Hn Hz.
  rewrite (step_delivers p seg rest Hsig Halive Hcont Hne).
  eexists. split; [reflexivity|].
  replace (Player.ticks p + 2)%nat with (S (S (Player.ticks p))) by lia.
  replace (Player.ticks p + 3)%nat with (S (S (S (Player.ticks p)))) by lia.
  unfold PlayerSpec.counted, PlayerSpec.taken, Player.receive, Player.lag_compensation.
  cbn. rewrite Hn. cbn.
  unfold Player.start_playback. cbn. rewrite Hz. cbn. repeat split.
Qed.

End PlayerExtras.

(** X9, at a pass that starts 20 ms after the deadline. *)
Lemma timely_segment_adds_its_duration_witness :
  exists p',
    Player.step Scenario.on_time Examples.nothing Examples.no_signal Examples.lagging
    = (Player.Continue, p')
    /\ Player.estimated_playback_end_on p' = 20000 + 1000
    /\ Player.next_frame_critical_time p' = 10020 + 1000
    /\ Player.stdin p' = blob 4.
Proof.
  apply (timely_segment_adds_its_duration
           Scenario.on_time Examples.nothing Examples.no_signal Examples.lagging
           (1000, blob 4) []).
  - reflexivity.
  - unfold PlayerSpec.alive. vm_compute. discriminate.
  - reflexivity.
  - discriminate.
  - vm_compute. discriminate.
  - vm_compute. discriminate.
  - vm_compute. discriminate.
Defined.

(** X10, at the first pass of [play]. *)
Lemma first_segment_starts_playback_witness :
  exists p',
    Player.step Examples.ticking Scenario.one_second Examples.no_signal Scenario.entered
    = (Player.Continue, p')
    /\ Player.estimated_playback_end_on p' = 1030 + 1000
    /\ Player.next_frame_critical_time p' = 1040 + 1000
    /\ Player.stdin p' = blob 4.
Proof.
  apply (first_segment_starts_playback
           Examples.ticking Scenario.one_second Examples.no_signal Scenario.entered
           (1000, blob 4) []).
  - reflexivity.
  - unfold PlayerSpec.alive. vm_compute. discriminate.
  - reflexivity.
  - discriminate.
  - reflexivity.
  - reflexivity.
Defined.

Section PlayerRuns.
Context {T : Type}.
Variable clock : nat -> Z.
Variable arrivals : nat -> list segment.
Variable signals : nat -> option Player.signal.

Lemma loop_break_exact fuel (p p' : Player.state T) :
  Player.loop clock arrivals signals fuel p = Some (Player.Break, p') ->
  exists pre marker tail,
    Player.container p ++ arrived arrivals (Player.rounds p) fuel
    = pre ++ marker :: tail
    /\ snd marker = []
    /\ Forall (fun s => snd s <> []) pre
    /\ Player.stdin p' = Player.stdin p ++ payload pre.
Proof.
  revert p. induction fuel as [|fuel IH]; intros p Hl; [discriminate|].
  cbn [Player.loop] in Hl.
  pose proof (PlayerFacts.step_inv clock arrivals signals p) as Hi.
  destruct (Player.step clock arrivals signals p) as [f p1].
  inversion Hi as [Hs|Hs Hdog|Hs Hal Hc|sg rs Hs Hal Hc Hnil
                   |sg rs Hs Hal Hc Hsn|sg rs Hs Hal Hc Hsn]; subst;
    try discriminate.
  - destruct (IH _ Hl) as (pre & marker & tail & Hsplit & Hm & Hpre & Hout).
    cbn in Hsplit, Hout.
    exists pre, marker, tail. cbn [arrived].
    rewrite app_assoc, Hc. cbn. auto.
  - injection Hl as <-.
    destruct (PlayerFacts.taken_frame clock sg rs p) as (_ & _ & _ & _ & _ & E6 & _).
    exists [], sg, (rs ++ arrived arrivals (S (Player.rounds p)) fuel).
    cbn [arrived]. rewrite app_assoc, Hc, E6. cbn.
    rewrite app_nil_r. repeat split; auto.
  - destruct (IH _ Hl) as (pre & marker & tail & Hsplit & Hm & Hpre & Hout).
    destruct (PlayerFacts.taken_frame clock sg rs p)
      as (_ & E2 & _ & _ & _ & E6 & E7 & _).
    cbn -[PlayerSpec.taken] in Hsplit, Hout.
    rewrite E2, E7 in Hsplit. rewrite E6 in Hout.
    exists (sg :: pre), marker, tail. cbn [arrived].
    rewrite app_assoc, Hc. cbn. rewrite Hsplit.
    split; [reflexivity|]. split; [exact Hm|]. split; [now constructor|].
    rewrite Hout. unfold payload. cbn. now rewrite <- app_assoc.
Qed.

Lemma loop_leave_flag fuel (p p' : Player.state T) l :
  Player.loop clock arrivals signals fuel p = Some (l, p') ->
  (l = Player.Break -> True)
  /\ (l <> Player.Break -> Utils.to_bool (Player.stop_marker p') = true)
  /\ (l = Player.Interrupted -> exists i, signals i <> None).
Proof.
  revert p. induction fuel as [|fuel IH]; intros p Hl; [discriminate|].
  cbn [Player.loop] in Hl.
  pose proof (PlayerFacts.step_inv clock arrivals signals p) as Hi.
  destruct (Player.step clock arrivals signals p) as [f p1].
  inversion Hi as [Hs|Hs Hdog|Hs Hal Hc|sg rs Hs Hal Hc Hnil
                   |sg rs Hs Hal Hc Hsn|sg rs Hs Hal Hc Hsn]; subst.
  - injection Hl as <- <-. repeat split; auto.
    intros _. exists (Player.rounds p). congruence.
  - injection Hl as <- <-. repeat split; auto. discriminate.
  - eauto.
  - injection Hl as <- <-. repeat split; try discriminate. congruence.
  - injection Hl as <- <-. repeat split; auto.
    intros _. exists (Player.rounds p). congruence.
  - eauto.
Qed.

End PlayerRuns.

Section PlayExtras.
Context {T : Type}.
Variable clock : nat -> Z.
Variable arrivals : nat -> list segment.
Variable signals : nat -> option Player.signal.
Variable fetch : option Py.dict -> bool -> option Py.dict * bool.
Variable debug_mstream : Z.
Variable load : Py.value -> bool -> Access.quality -> Access.loading T.
Variable _user : option Access.user.

Local Abbreviation start := (@Player.start T fetch debug_mstream load _user).
Local Abbreviation play :=
  (@Player.play T clock arrivals signals fetch debug_mstream load _user).

(** X6.  With no interrupt and no broken pipe, when [play] returns it has
    written, in the order they were handed over and without a gap, the
    payloads of exactly the segments that came before the first empty
    payload, and nothing of what came after it. *)
Theorem play_writes_up_to_first_marker fuel popen (i : Access.item T) flag p :
  quiet signals ->
  play fuel popen i flag = Some (Returned, p) ->
  exists pre marker tail,
    arrived arrivals 0 fuel = pre ++ marker :: tail
    /\ snd marker = []
    /\ Forall (fun s => snd s <> []) pre
    /\ Player.stdin p = payload pre.
Proof.
  intros Hq. unfold Player.play.
  destruct (start popen i) as [[s|e0] i1]; [|discriminate].
  destruct (Player.loop clock arrivals signals fuel (Player.enter clock i1 flag))
    as [[l p1]|] eqn:Hl; [|discriminate].
  destruct l.
  - intros Hf. injection Hf as Hf.
    destruct (loop_break_exact clock arrivals signals fuel _ _ Hl)
      as (pre & marker & tail & Hsplit & Hm & Hpre & Hout).
    destruct (PlayerFacts.finish_frame clock p1) as (_ & Hs & _).
    rewrite Hf in Hs. cbn in Hs, Hsplit, Hout.
    exists pre, marker, tail. rewrite Hs, Hout. auto.
  - intros _. exfalso.
    destruct (loop_leave_flag clock arrivals signals fuel _ _ _ Hl) as (_ & _ & Hi).
    destruct (Hi eq_refl) as [j Hne]. apply Hne. apply Hq.
  - discriminate.
Qed.

(** X7.  What [play] leaves behind, by the way it ends.  When
    [subprocess.Popen] fails, its [OSError] leaves [play] with the item
    as it was; when [self.media_stream] raises on line 406, that
    exception leaves [play] and the item holds no stream, having been
    reset on line 405; in both cases nothing has been written.  When
    [play] returns, the item holds no stream.  When the watchdog's
    [RuntimeError] leaves it, the flag has been set and the stream
    obtained on line 406 is still held; when the [ValueError] of a
    negative sleep leaves it, the flag is not set and that stream is
    still held. *)
Theorem play_outcomes fuel popen (i : Access.item T) flag e p :
  play fuel popen i flag = Some (e, p) ->
  (popen = false ->
   e = Raised OSError /\ Player.item p = i /\ Player.stdin p = [])
  /\ (popen = true ->
      forall e0 i1,
        Item.media_stream fetch debug_mstream load _user (Access.reset_stream i)
        = (inr e0, i1) ->
        e = Raised e0 /\ Player.item p = i1
        /\ Player.stream p = None /\ Player.stdin p = [])
  /\ (e = Returned -> Player.stream p = None)
  /\ (e = Raised RuntimeError ->
      Utils.to_bool (Player.stop_marker p) = true
      /\ exists s, start popen i = (inl s, Player.item p)
                   /\ Player.stream p = Some s)
  /\ (e = Raised ValueError ->
      Utils.to_bool (Player.stop_marker p) = false
      /\ exists s, start popen i = (inl s, Player.item p)
                   /\ Player.stream p = Some s).
Proof.
  unfold Player.play.
  destruct (start popen i) as [[s|e0] i1] eqn:Hst.
  2:{ intros [= <- <-].
      destruct (PlayerFacts.start_refused _ _ _ _ _ _ _ _ Hst)
        as (Hn1 & Hn2 & Hoff & Hon).
      split; [|split; [|split; [discriminate|split; intros [= E]; congruence]]].
      - intros Hp. destruct (Hoff Hp) as [-> ->]. auto.
      - intros Hp e1 i2 Hm. destruct (Hon Hp) as [_ Hs].
        unfold Player.start in Hst. rewrite Hp, Hm in Hst.
        injection Hst as <- <-. cbn. auto. }
  destruct (PlayerFacts.start_opened _ _ _ _ _ _ _ _ Hst) as (Hpop & _ & Hheld).
  assert (Hearly :
    (popen = false ->
     e = Raised OSError /\ Player.item p = i /\ Player.stdin p = [])
    /\ (popen = true ->
        forall e0 i2,
          Item.media_stream fetch debug_mstream load _user (Access.reset_stream i)
          = (inr e0, i2) ->
          e = Raised e0 /\ Player.item p = i2
          /\ Player.stream p = None /\ Player.stdin p = [])).
  { split; [congruence|]. intros Hp e0 i2 Hm.
    unfold Player.start in Hst. rewrite Hp, Hm in Hst. discriminate. }
  destruct Hearly as [Hoff Hon].
  destruct (Player.loop clock arrivals signals fuel (Player.enter clock i1 flag))
    as [[l p1]|] eqn:Hl; [|discriminate].
  pose proof (PlayerFacts.loop_item clock arrivals signals fuel _ _ _ Hl) as Hit.
  cbn in Hit.
  assert (Hfin : forall e p, Player.finish clock p1 = (e, p) ->
                 (e = Returned /\ Player.stream p = None)
                 \/ (e = Raised ValueError
                     /\ Utils.to_bool (Player.stop_marker p) = false
                     /\ Player.item p = i1)).
  { intros e1 p0. unfold Player.finish. cbn.
    destruct (Player.estimated_playback_end_on p1 >? clock (Player.ticks p1)); cbn;
      destruct (Utils.to_bool (Player.stop_marker p1)) eqn:Hb; cbn;
      try (intros [= <- <-]; left; split; reflexivity).
    destruct (_ <? 0); cbn; intros [= <- <-]; [right|left]; cbn; auto. }
  assert (Hheld' : Player.item p = i1 ->
                   exists s0, (@inl T exn s, i1) = (inl s0, Player.item p)
                              /\ Player.stream p = Some s0).
  { intros Hi. exists s. unfold Player.stream. rewrite Hi. auto. }
  intros Hend. split; [exact Hoff|]. split; [exact Hon|].
  assert (Hcases : (e = Returned /\ Player.stream p = None)
                   \/ (e = Raised ValueError
                       /\ Utils.to_bool (Player.stop_marker p) = false
                       /\ Player.item p = i1)
                   \/ (e = Raised RuntimeError
                       /\ Utils.to_bool (Player.stop_marker p) = true
                       /\ Player.item p = i1)).
  { destruct l.
    - injection Hend as Hf. destruct (Hfin _ _ Hf) as [?|?]; auto.
    - injection Hend as Hf. destruct (Hfin _ _ Hf) as [?|?]; auto.
    - injection Hend as <- <-. right. right.
      split; [reflexivity|]. split; [|exact Hit].
      destruct (loop_leave_flag clock arrivals signals fuel _ _ _ Hl)
        as (_ & Hflag & _).
      apply Hflag. discriminate. }
  destruct Hcases as [(-> & Hn)|[(-> & Hf & Hi)|(-> & Hf & Hi)]].
  - split; [auto|]. split; discriminate.
  - split; [discriminate|]. split; [discriminate|]. auto.
  - split; [discriminate|]. split; [auto|discriminate].
Qed.

(** X8.  When the loop is left through the [except] branch
    ([KeyboardInterrupt] or [BrokenPipeError]), the flag is set and [play]
    returns without waiting for the estimated end of the playback, the
    stream reset. *)
Theorem interrupted_play_does_not_wait fuel popen (i i1 : Access.item T) s flag p1 :
  start popen i = (inl s, i1) ->
  Player.loop clock arrivals signals fuel (Player.enter clock i1 flag)
  = Some (Player.Interrupted, p1) ->
  exists p,
    play fuel popen i flag = Some (Returned, p)
    /\ Utils.to_bool (Player.stop_marker p) = true
    /\ Player.slept p = Player.slept p1
    /\ Player.stream p = None.
Proof.
  intros Hst Hl. unfold Player.play. rewrite Hst, Hl.
  destruct (loop_leave_flag clock arrivals signals fuel _ _ _ Hl) as (_ & Hflag & _).
  specialize (Hflag ltac:(discriminate)).
  unfold Player.finish. cbn.
  destruct (Player.estimated_playback_end_on p1 >? clock (Player.ticks p1)); cbn;
    rewrite Hflag; cbn; eexists; split; try reflexivity; cbn; auto.
Qed.

End PlayExtras.

(** X6, for half a second of audio, the end marker and a straggler. *)
Lemma play_writes_up_to_first_marker_witness :
  exists p pre marker tail,
    Player.play Examples.ticking Scenario.with_straggler Examples.no_signal
                Library.fetch_name 0 (Studio.serving Examples.fluent)
                (Some Studio.premium)
                10 true Studio.track None = Some (Returned, p)
    /\ arrived Scenario.with_straggler 0 10 = pre ++ marker :: tail
    /\ snd marker = []
    /\ Forall (fun s => snd s <> []) pre
    /\ Player.stdin p = payload pre.
Proof.
  eexists.
  edestruct (@play_writes_up_to_first_marker Scripted
               Examples.ticking Scenario.with_straggler Examples.no_signal
               Library.fetch_name 0 (Studio.serving Examples.fluent)
               (Some Studio.premium)
               10 true Studio.track None)
    as (pre & marker & tail & H1 & H2 & H3 & H4).
  - exact no_signal_quiet.
  - vm_compute. reflexivity.
  - exists pre, marker, tail. split; [vm_compute; reflexivity|]. auto.
Defined.

(** X7, for a queue that stays empty, and for a user without premium. *)
Lemma play_outcomes_witness :
  (exists p,
      Player.play Examples.waiting Examples.nothing Examples.no_signal
                  Library.fetch_name 0 (Studio.serving Examples.mute)
                  (Some Studio.premium)
                  200 true Studio.track None = Some (Raised RuntimeError, p)
      /\ Utils.to_bool (Player.stop_marker p) = true
      /\ Player.stream p = Some Examples.mute)
  /\ (exists p,
        Player.play Examples.waiting Examples.nothing Examples.no_signal
                    Library.fetch_name 0 (Studio.serving Examples.mute)
                    (Some Studio.free)
                    200 true Studio.playing None
        = Some (Raised (StreamUnavailable Access.PremiumRequiredException), p)
        /\ Player.stream p = None /\ Player.stdin p = []).
Proof.
  split.
  - eexists. split; [vm_compute; reflexivity|].
    edestruct (@play_outcomes Scripted Examples.waiting Examples.nothing
                 Examples.no_signal Library.fetch_name 0
                 (Studio.serving Examples.mute) (Some Studio.premium)
                 200 true Studio.track None)
      as (_ & _ & _ & Hstall & _).
    + vm_compute. reflexivity.
    + destruct (Hstall eq_refl) as (Hflag & s & Hs & Hheld).
      split; [exact Hflag|]. rewrite Hheld. f_equal.
      vm_compute in Hs. now injection Hs as <-.
  - eexists. split; [vm_compute; reflexivity|].
    edestruct (@play_outcomes Scripted Examples.waiting Examples.nothing
                 Examples.no_signal Library.fetch_name 0
                 (Studio.serving Examples.mute) (Some Studio.free)
                 200 true Studio.playing None)
      as (_ & Hrefused & _).
    + vm_compute. reflexivity.
    + edestruct (Hrefused eq_refl) as (_ & _ & Hnone & Hin).
      * vm_compute. reflexivity.
      * split; assumption.
Defined.

(** X8, for a [KeyboardInterrupt] as the second pass starts. *)
Lemma interrupted_play_does_not_wait_witness :
  exists p,
    Player.play Examples.ticking Examples.nothing Scenario.ctrl_c
                Library.fetch_name 0 (Studio.serving Examples.fluent)
                (Some Studio.premium)
                5 true Studio.track None = Some (Returned, p)
    /\ Utils.to_bool (Player.stop_marker p) = true
    /\ Player.slept p = [100]
    /\ Player.stream p = None.
Proof.
  edestruct (@interrupted_play_does_not_wait Scripted
               Examples.ticking Examples.nothing Scenario.ctrl_c
               Library.fetch_name 0 (Studio.serving Examples.fluent)
               (Some Studio.premium)
               5 true Studio.track) as (p & Hp & Hf & Hs & Hn).
  - vm_compute. reflexivity.
  - vm_compute. reflexivity.
  - exists p. split; [exact Hp|]. split; [exact Hf|]. split; [|exact Hn].
    rewrite Hs. reflexivity.
Defined.

(** ** [pick_thumbnail] *)
Module ThumbsFacts.
Import Thumbs.

Lemma get_set_same k v images : get_item k (set_item k v images) = Some v.
Proof.
  induction images as [|[k' v'] rest IH]; cbn.
  - now rewrite Z.eqb_refl.
  - destruct (k' =? k) eqn:E; cbn; rewrite ?Z.eqb_refl, ?E; auto.
Qed.

Lemma get_set_other k k' v images :
  k <> k' -> get_item k (set_item k' v images) = get_item k images.
Proof.
  intros Hne. induction images as [|[k0 v0] rest IH]; cbn.
  - destruct (k' =? k) eqn:E; [apply Z.eqb_eq in E; congruence|reflexivity].
  - destruct (k0 =? k') eqn:E; cbn.
    + apply Z.eqb_eq in E. subst k0.
      destruct (k' =? k) eqn:E2; [apply Z.eqb_eq in E2; congruence|reflexivity].
    + destruct (k0 =? k); auto.
Qed.

Lemma keys_set k k' v images :
  In k (map fst (set_item k' v images)) <-> k = k' \/ In k (map fst images).
Proof.
  induction images as [|[k0 v0] rest IH]; cbn.
  - intuition.
  - destruct (k0 =? k') eqn:E; cbn.
    + apply Z.eqb_eq in E. subst k0. intuition.
    + rewrite IH. intuition.
Qed.

Lemma get_of_key k images :
  In k (map fst images) -> exists v, get_item k images = Some v.
Proof.
  induction images as [|[k0 v0] rest IH]; cbn; [contradiction|].
  intros [->|Hin].
  - rewrite Z.eqb_refl. eauto.
  - destruct (k0 =? k); eauto.
Qed.

Lemma collect_snoc covers c :
  collect (covers ++ [c]) = set_item (key_of c) (url c) (collect covers).
Proof. unfold collect. now rewrite fold_left_app. Qed.

Lemma get_collect k covers u :
  get_item k (collect covers) = Some u ->
  exists l1 c l2,
    covers = l1 ++ c :: l2 /\ key_of c = k /\ url c = u
    /\ Forall (fun c' => key_of c' <> k) l2.
Proof.
  induction covers as [|c covers IH] using rev_ind; [discriminate|].
  rewrite collect_snoc.
  destruct (Z.eq_dec (key_of c) k) as [E|E].
  - rewrite E, get_set_same. intros [= <-].
    exists covers, c, []. auto.
  - rewrite get_set_other by congruence. intros Hg.
    destruct (IH Hg) as (l1 & c0 & l2 & -> & Hk & Hu & Hall).
    exists l1, c0, (l2 ++ [c]). rewrite <- app_assoc. cbn.
    repeat split; auto. apply Forall_app. split; auto.
Qed.

Lemma keys_collect k covers :
  In k (map fst (collect covers)) <-> exists c, In c covers /\ key_of c = k.
Proof.
  induction covers as [|c covers IH] using rev_ind.
  - cbn. split; [contradiction|]. intros (c & [] & _).
  - rewrite collect_snoc, keys_set, IH. split.
    + intros [->|(c0 & Hin & Hk)].
      * exists c. split; [apply in_or_app; right; now left|reflexivity].
      * exists c0. split; [apply in_or_app; now left|exact Hk].
    + intros (c0 & Hin & Hk). apply in_app_or in Hin as [Hin|[->|[]]].
      * right. eauto.
      * left. now symmetry.
Qed.

Lemma insert_in x y l : In x (insert y l) <-> x = y \/ In x l.
Proof.
  induction l as [|z l IH]; cbn; [intuition|].
  destruct (y <=? z); cbn; [intuition|]. rewrite IH. intuition.
Qed.

Lemma sorted_in x l : In x (sorted l) <-> In x l.
Proof.
  induction l as [|y l IH]; cbn; [reflexivity|].
  rewrite insert_in, IH. intuition.
Qed.

Lemma insert_sorted y l : StronglySorted Z.le l -> StronglySorted Z.le (insert y l).
Proof.
  induction 1 as [|z l Hs IH Hall]; cbn.
  - constructor; constructor.
  - destruct (y <=? z) eqn:E.
    + apply Z.leb_le in E. constructor; [now constructor|].
      constructor; [exact E|]. eapply Forall_impl; [|exact Hall].
      intros a Ha. cbn in *. lia.
    + apply Z.leb_gt in E. constructor; [exact IH|].
      apply Forall_forall. intros a Ha. apply insert_in in Ha as [->|Ha]; [lia|].
      rewrite Forall_forall in Hall. auto.
Qed.

Lemma sorted_ascending l : StronglySorted Z.le (sorted l).
Proof.
  induction l as [|y l IH]; cbn; [constructor|]. now apply insert_sorted.
Qed.

Lemma first_at_least_some p l s :
  StronglySorted Z.le l -> first_at_least p l = Some s ->
  In s l /\ p <= s /\ forall x, In x l -> p <= x -> s <= x.
Proof.
  induction 1 as [|z l Hs IH Hall]; cbn; [discriminate|].
  destruct (z >=? p) eqn:E.
  - intros [= <-]. split; [now left|]. split; [lia|].
    intros x [->|Hin] _; [lia|]. rewrite Forall_forall in Hall. auto.
  - intros Hf. destruct (IH Hf) as (Hin & Hp & Hmin).
    split; [now right|]. split; [exact Hp|].
    intros x [->|Hx] Hpx; [lia|auto].
Qed.

Lemma first_at_least_none p l :
  first_at_least p l = None -> forall x, In x l -> x < p.
Proof.
  induction l as [|z l IH]; cbn; [contradiction|].
  destruct (z >=? p) eqn:E; [discriminate|].
  intros Hf x [->|Hin]; [lia|auto].
Qed.

Lemma last_of_ascending l :
  StronglySorted Z.le l -> l <> [] ->
  In (last l 0) l /\ forall x, In x l -> x <= last l 0.
Proof.
  induction 1 as [|z l Hs IH Hall]; [congruence|]. intros _.
  destruct l as [|y l].
  - cbn. split; [now left|]. intros x [->|[]]. lia.
  - destruct (IH ltac:(discriminate)) as [Hin Hmax].
    change (last (z :: y :: l) 0) with (last (y :: l) 0).
    split; [now right|]. intros x [->|Hx]; [|auto].
    rewrite Forall_forall in Hall. apply Hall. exact Hin.
Qed.

End ThumbsFacts.

(** X11.  When some cover is at least as large as [preferred_size],
    [pick_thumbnail] returns the url of a cover of the smallest area
    that is enough; of several covers with that area the last in the
    list wins.  A cover whose height or width is not a number counts as
    area 0. *)
Theorem pick_thumbnail_smallest_sufficient covers preferred_size :
  (exists c, In c covers /\ preferred_size <= Thumbs.key_of c) ->
  exists l1 c l2,
    covers = l1 ++ c :: l2
    /\ Thumbs.pick_thumbnail covers preferred_size = Thumbs.url c
    /\ preferred_size <= Thumbs.key_of c
    /\ (forall c', In c' covers -> preferred_size <= Thumbs.key_of c' ->
                   Thumbs.key_of c <= Thumbs.key_of c')
    /\ Forall (fun c' => Thumbs.key_of c' <> Thumbs.key_of c) l2.
Proof.
  intros (c0 & Hin0 & Hbig0). unfold Thumbs.pick_thumbnail.
  set (images := Thumbs.collect covers).
  set (sizes := Thumbs.sorted (map fst images)).
  assert (Hkeys : forall k, In k sizes <-> exists c, In c covers /\ Thumbs.key_of c = k).
  { intros k. unfold sizes. rewrite ThumbsFacts.sorted_in. apply ThumbsFacts.keys_collect. }
  destruct (Thumbs.first_at_least preferred_size sizes) as [s|] eqn:Hf.
  - destruct (ThumbsFacts.first_at_least_some _ _ _
                (ThumbsFacts.sorted_ascending _) Hf) as (Hin & Hp & Hmin).
    assert (Hk : In s (map fst images))
      by (apply ThumbsFacts.sorted_in; exact Hin).
    destruct (ThumbsFacts.get_of_key _ _ Hk) as [u Hu].
    destruct (ThumbsFacts.get_collect _ _ _ Hu) as (l1 & c & l2 & Hsplit & Hkc & Huc & Hall).
    exists l1, c, l2. unfold Thumbs.lookup. rewrite Hu, Hkc. subst u.
    repeat split; auto.
    intros c' Hc' Hb. apply Hmin; [|exact Hb]. apply Hkeys. eauto.
  - exfalso. pose proof (ThumbsFacts.first_at_least_none _ _ Hf (Thumbs.key_of c0)) as Hlt.
    specialize (Hlt ltac:(apply Hkeys; eauto)). lia.
Qed.

(** X12.  When no cover reaches [preferred_size] and there is a cover at
    all, [pick_thumbnail] falls back to the url of a cover of the largest
    area, the last such cover in the list; with no cover it returns the
    empty string. *)
Theorem pick_thumbnail_falls_back_to_largest covers preferred_size :
  (forall c, In c covers -> Thumbs.key_of c < preferred_size) ->
  (covers = [] /\ Thumbs.pick_thumbnail covers preferred_size = EmptyString)
  \/ exists l1 c l2,
      covers = l1 ++ c :: l2
      /\ Thumbs.pick_thumbnail covers preferred_size = Thumbs.url c
      /\ (forall c', In c' covers -> Thumbs.key_of c' <= Thumbs.key_of c)
      /\ Forall (fun c' => Thumbs.key_of c' <> Thumbs.key_of c) l2.
Proof.
  intros Hsmall. destruct covers as [|c0 covers0]; [left; split; reflexivity|].
  right. set (covers := c0 :: covers0) in *.
  unfold Thumbs.pick_thumbnail.
  set (images := Thumbs.collect covers).
  set (sizes := Thumbs.sorted (map fst images)).
  assert (Hkeys : forall k, In k sizes <-> exists c, In c covers /\ Thumbs.key_of c = k).
  { intros k. unfold sizes. rewrite ThumbsFacts.sorted_in. apply ThumbsFacts.keys_collect. }
  assert (Hne : sizes <> []).
  { intros E. assert (Hi : In (Thumbs.key_of c0) sizes)
      by (apply Hkeys; exists c0; split; [now left|reflexivity]).
    rewrite E in Hi. destruct Hi. }
  destruct (Thumbs.first_at_least preferred_size sizes) as [s|] eqn:Hf.
  - exfalso.
    destruct (ThumbsFacts.first_at_least_some _ _ _
                (ThumbsFacts.sorted_ascending _) Hf) as (Hin & Hp & _).
    apply Hkeys in Hin as (c & Hc & Hk). specialize (Hsmall c Hc). lia.
  - assert (Hpos : (len sizes >? 0) = true).
    { destruct sizes; [congruence|]. unfold len. cbn. lia. }
    rewrite Hpos.
    destruct (ThumbsFacts.last_of_ascending sizes
                (ThumbsFacts.sorted_ascending _) Hne) as [Hin Hmax].
    assert (Hk : In (last sizes 0) (map fst images))
      by (apply ThumbsFacts.sorted_in; exact Hin).
    destruct (ThumbsFacts.get_of_key _ _ Hk) as [u Hu].
    destruct (ThumbsFacts.get_collect _ _ _ Hu) as (l1 & c & l2 & Hsplit & Hkc & Huc & Hall).
    exists l1, c, l2. unfold Thumbs.lookup. rewrite Hu, Hkc. subst u.
    repeat split; auto.
    intros c' Hc'. apply Hmax. apply Hkeys. eauto.
Qed.

(** X11, asking for at least 5000 pixels. *)
Lemma pick_thumbnail_smallest_sufficient_witness :
  exists l1 c l2,
    Gallery.covers = l1 ++ c :: l2
    /\ Thumbs.pick_thumbnail Gallery.covers 5000 = Thumbs.url c
    /\ 5000 <= Thumbs.key_of c
    /\ (forall c', In c' Gallery.covers -> 5000 <= Thumbs.key_of c' ->
                   Thumbs.key_of c <= Thumbs.key_of c')
    /\ Forall (fun c' => Thumbs.key_of c' <> Thumbs.key_of c) l2.
Proof.
  apply pick_thumbnail_smallest_sufficient.
  exists Gallery.large. split.
  - simpl. auto.
  - vm_compute. discriminate.
Defined.

(** X12, asking for the default size of the two smaller covers. *)
Lemma pick_thumbnail_falls_back_to_largest_witness :
  ([Gallery.small; Gallery.medium] = []
   /\ Thumbs.pick_thumbnail [Gallery.small; Gallery.medium] Thumbs.default_size
      = EmptyString)
  \/ exists l1 c l2,
      [Gallery.small; Gallery.medium] = l1 ++ c :: l2
      /\ Thumbs.pick_thumbnail [Gallery.small; Gallery.medium] Thumbs.default_size
         = Thumbs.url c
      /\ (forall c', In c' [Gallery.small; Gallery.medium] ->
                     Thumbs.key_of c' <= Thumbs.key_of c)
      /\ Forall (fun c' => Thumbs.key_of c' <> Thumbs.key_of c) l2.
Proof.
  apply pick_thumbnail_falls_back_to_largest.
  intros c [<-|[<-|[]]]; vm_compute; reflexivity.
Defined.

(** ** [flatten_dictionary] *)
Module FlattenFacts.
Import Py Flatten FlattenSpec.

(** Induction on a value, through the lists and dicts nested in it. *)
Lemma value_rect_nested (P : value -> Prop) :
  P VNone -> (forall b, P (VBool b)) -> (forall z, P (VInt z)) ->
  (forall s, P (VStr s)) -> (forall l, P (VList l)) ->
  (forall d, Forall (fun kv => P (snd kv)) d -> P (VDict d)) ->
  forall v, P v.
Proof.
  intros HN HB HI HS HL HD.
  fix IH 1. intros v. destruct v as [| b | z | s | l | d].
  - exact HN.
  - apply HB.
  - apply HI.
  - apply HS.
  - apply HL.
  - apply HD.
    exact ((fix go (d : list (string * value)) : Forall (fun kv => P (snd kv)) d :=
              match d with
              | [] => Forall_nil _
              | kv :: rest => Forall_cons kv (IH (snd kv)) (go rest)
              end) d).
Qed.

Lemma set_item_flat k v d : is_dict v = false -> flat d -> flat (set_item k v d).
Proof.
  intros Hv. induction 1 as [|[k' v'] d Hh Ht IH]; cbn.
  - repeat constructor. exact Hv.
  - destruct (String.eqb k' k); constructor; auto.
Qed.

Lemma update_flat d other : flat d -> flat other -> flat (update d other).
Proof.
  intros Hd Ho. revert d Hd. unfold update.
  induction Ho as [|[k v] other Hh Ht IH]; intros d Hd; cbn; [exact Hd|].
  apply IH. now apply set_item_flat.
Qed.

Lemma flatten_value_flat v : forall key sep acc, flat acc -> flat (flatten_value v key sep acc).
Proof.
  induction v as [| b | z | s | l | d IHd] using value_rect_nested;
    intros key sep acc Hacc; cbn; try (apply set_item_flat; [reflexivity|exact Hacc]).
  apply update_flat; [exact Hacc|].
  assert (Hgen : forall inner, flat inner ->
            flat ((fix items (l : list (string * value)) (inner : dict) : dict :=
                     match l with
                     | [] => inner
                     | (k, v') :: rest =>
                         items rest (flatten_value v' (new_key key sep k) sep inner)
                     end) d inner)).
  { induction IHd as [|[k v] d Hh Ht IH]; intros inner Hin; [exact Hin|].
    apply IH. apply Hh. exact Hin. }
  apply Hgen. constructor.
Qed.

Lemma flatten_items_flat l parent sep acc :
  flat acc -> flat (flatten_items l parent sep acc).
Proof.
  revert acc. induction l as [|[k v] l IH]; intros acc Hacc; cbn; [exact Hacc|].
  apply IH. now apply flatten_value_flat.
Qed.

(** Keys stay apart. *)
Lemma set_item_keys k v d x :
  In x (map fst (set_item k v d)) <-> x = k \/ In x (map fst d).
Proof.
  induction d as [|[k' v'] d IH]; cbn; [intuition|].
  destruct (String.eqb k' k) eqn:E; cbn.
  - apply String.eqb_eq in E. subst. intuition.
  - rewrite IH. intuition.
Qed.

Lemma set_item_nodup k v d : NoDup (map fst d) -> NoDup (map fst (set_item k v d)).
Proof.
  induction d as [|[k' v'] d IH]; cbn; intros Hn.
  - repeat constructor. intros [].
  - inversion Hn as [|? ? Hnot Hrest]; subst.
    destruct (String.eqb k' k) eqn:E; cbn.
    + apply String.eqb_eq in E. subst. now constructor.
    + constructor; [|auto]. rewrite set_item_keys. intros [->|Hin]; [|contradiction].
      rewrite String.eqb_refl in E. discriminate.
Qed.

Lemma update_nodup d other : NoDup (map fst d) -> NoDup (map fst (update d other)).
Proof.
  revert d. unfold update. induction other as [|[k v] other IH]; intros d Hd; cbn; [exact Hd|].
  apply IH. now apply set_item_nodup.
Qed.

Lemma flatten_value_nodup v key sep acc :
  NoDup (map fst acc) -> NoDup (map fst (flatten_value v key sep acc)).
Proof.
  destruct v; cbn; intros Hn; try now apply set_item_nodup.
  now apply update_nodup.
Qed.

Lemma flatten_items_nodup l parent sep acc :
  NoDup (map fst acc) -> NoDup (map fst (flatten_items l parent sep acc)).
Proof.
  revert acc. induction l as [|[k v] l IH]; intros acc Hacc; cbn; [exact Hacc|].
  apply IH. now apply flatten_value_nodup.
Qed.

(** A new key goes to the end. *)
Lemma set_item_fresh k v d : ~ In k (map fst d) -> set_item k v d = d ++ [(k, v)].
Proof.
  induction d as [|[k' v'] d IH]; cbn; intros Hn; [reflexivity|].
  destruct (String.eqb k' k) eqn:E.
  - apply String.eqb_eq in E. subst. exfalso. auto.
  - rewrite IH by auto. reflexivity.
Qed.

Lemma flatten_flat_items l sep acc :
  flat l -> NoDup (map fst l) ->
  (forall x, In x (map fst l) -> ~ In x (map fst acc)) ->
  flatten_items l EmptyString sep acc = acc ++ l.
Proof.
  revert acc. induction l as [|[k v] l IH]; intros acc Hf Hn Hd; cbn.
  - now rewrite app_nil_r.
  - inversion Hf as [|? ? Hv Hf']; subst. inversion Hn as [|? ? Hk Hn']; subst.
    cbn in Hv.
    assert (Hstep : flatten_value v k sep acc = acc ++ [(k, v)]).
    { destruct v; try discriminate; cbn; apply set_item_fresh; apply Hd; now left. }
    unfold new_key. cbn. rewrite Hstep, IH; auto.
    + rewrite <- app_assoc. reflexivity.
    + intros x Hx. rewrite map_app, in_app_iff. cbn.
      intros [Hin|[<-|[]]].
      * apply (Hd x); [now right|exact Hin].
      * contradiction.
Qed.

End FlattenFacts.

(** X13.  Whatever is passed in, the dict [flatten_dictionary] returns
    holds no dict as a value and no key twice. *)
Theorem flatten_dictionary_is_flat input_dict parent_key sep :
  Forall (fun kv => Py.is_dict (snd kv) = false)
         (Flatten.flatten_dictionary input_dict parent_key sep)
  /\ NoDup (map fst (Flatten.flatten_dictionary input_dict parent_key sep)).
Proof.
  split.
  - apply FlattenFacts.flatten_items_flat. constructor.
  - apply FlattenFacts.flatten_items_nodup. constructor.
Qed.

(** X14.  Flattening twice is flattening once: called with the default
    empty [parent_key] on its own result, [flatten_dictionary] returns
    that result unchanged, keys, values and order. *)
Theorem flatten_dictionary_idempotent input_dict sep :
  Flatten.flatten_dictionary
    (Flatten.flatten_dictionary input_dict EmptyString sep) EmptyString sep
  = Flatten.flatten_dictionary input_dict EmptyString sep.
Proof.
  unfold Flatten.flatten_dictionary at 1.
  rewrite FlattenFacts.flatten_flat_items; auto.
  - apply FlattenFacts.flatten_items_flat. constructor.
  - apply FlattenFacts.flatten_items_nodup. constructor.
Qed.

(** ** The metadata of an item *)
Module MetaFacts.
Import Py Meta.

Lemma py_get_set_same k v d : get_item k (set_item k v d) = Some v.
Proof.
  induction d as [|[k' v'] d IH]; cbn.
  - now rewrite String.eqb_refl.
  - destruct (String.eqb k' k) eqn:E; cbn; rewrite ?String.eqb_refl, ?E; auto.
Qed.

Lemma py_get_set_other k k' v d :
  k <> k' -> get_item k (set_item k' v d) = get_item k d.
Proof.
  intros Hne. induction d as [|[k0 v0] d IH]; cbn.
  - destruct (String.eqb k' k) eqn:E; [apply String.eqb_eq in E; congruence|reflexivity].
  - destruct (String.eqb k0 k') eqn:E; cbn.
    + apply String.eqb_eq in E. subst k0.
      destruct (String.eqb k' k) eqn:E2; [apply String.eqb_eq in E2; congruence|reflexivity].
    + destruct (String.eqb k0 k); auto.
Qed.

Lemma get_item_key k v d : get_item k d = Some v -> In k (map fst d).
Proof.
  induction d as [|[k' v'] d IH]; cbn; [discriminate|].
  destruct (String.eqb k' k) eqn:E.
  - apply String.eqb_eq in E. auto.
  - auto.
Qed.

Section Copy.
Variable meta_dict : dict.

Local Abbreviation pour :=
  (fold_left (fun acc key =>
                match get_item key meta_dict with
                | Some v => set_item key v acc
                | None => acc
                end)).

Lemma pour_absent k ks d :
  get_item k meta_dict = None -> get_item k (pour ks d) = get_item k d.
Proof.
  intros Hk. revert d. induction ks as [|key ks IH]; intros d; cbn; [reflexivity|].
  rewrite IH. destruct (get_item key meta_dict) as [v|] eqn:E; [|reflexivity].
  apply py_get_set_other. intros ->. congruence.
Qed.

Lemma pour_keeps k v ks d :
  get_item k meta_dict = Some v -> get_item k d = Some v ->
  get_item k (pour ks d) = Some v.
Proof.
  intros Hk. revert d. induction ks as [|key ks IH]; intros d Hd; cbn; [exact Hd|].
  apply IH. destruct (get_item key meta_dict) as [v'|] eqn:E; [|exact Hd].
  destruct (string_dec k key) as [->|Hne].
  - rewrite py_get_set_same. congruence.
  - rewrite py_get_set_other by exact Hne. exact Hd.
Qed.

Lemma pour_present k v ks d :
  get_item k meta_dict = Some v -> In k ks -> get_item k (pour ks d) = Some v.
Proof.
  intros Hk. revert d. induction ks as [|key ks IH]; intros d Hin; [destruct Hin|].
  cbn. destruct Hin as [->|Hin].
  - rewrite Hk. apply pour_keeps; [exact Hk|]. apply py_get_set_same.
  - apply IH. exact Hin.
Qed.

End Copy.

Lemma copy_items_present meta_dict d k v :
  get_item k meta_dict = Some v -> get_item k (copy_items meta_dict d) = Some v.
Proof.
  intros Hk. unfold copy_items. apply pour_present; [exact Hk|].
  eapply get_item_key. exact Hk.
Qed.

Lemma copy_items_absent meta_dict d k :
  get_item k meta_dict = None -> get_item k (copy_items meta_dict d) = get_item k d.
Proof. intros Hk. unfold copy_items. now apply pour_absent. Qed.

Lemma substring_whole s : String.substring 0 (String.length s) s = s.
Proof. induction s as [|a s IH]; cbn; [reflexivity|]. now rewrite IH. Qed.

Lemma meta_key_of_name key :
  key <> EmptyString -> meta_key_of ("meta_" ++ key) = Some key.
Proof.
  intros Hne. unfold meta_key_of. cbn.
  destruct key as [|a key]; [congruence|]. cbn.
  now rewrite substring_whole.
Qed.

End MetaFacts.

Section MetaExtras.
Variable fetch : option Py.dict -> bool -> option Py.dict * bool.

Lemma stored_is_read meta_dict o key v default :
  Py.get_item key meta_dict = Some v ->
  let o' := Meta.set_partial_meta meta_dict o in
  Meta.get_meta fetch key default o' = (Meta.Ok v, o')
  /\ Meta.meta_attribute fetch key o' = (Meta.Ok v, o')
  /\ Meta.fetches o' = Meta.fetches o.
Proof.
  intros Hk o'. subst o'.
  pose proof (MetaFacts.copy_items_present meta_dict
                (match Meta._metadata o with Some d => d | None => [] end) key v Hk)
    as Hg.
  split; [|split; [|reflexivity]].
  - unfold Meta.get_meta, Meta.set_partial_meta, Py.has_key.
    cbn [Meta._metadata Meta._FULL_METADATA_ACQUIRED].
    rewrite Hg. cbn [negb andb Meta._metadata]. rewrite Hg. reflexivity.
  - unfold Meta.meta_attribute, Meta.set_partial_meta, Py.has_key.
    cbn [Meta._metadata Meta._FULL_METADATA_ACQUIRED].
    rewrite Hg. cbn [negb andb]. rewrite orb_false_r.
    destruct (Meta.copy_items meta_dict
                (match Meta._metadata o with Some d => d | None => [] end));
      [discriminate|reflexivity].
Qed.

(** X15.  What [set_partial_meta] stores is found again without a fetch:
    for a key of the dict passed in, [get_meta] returns the value of that
    dict, and so does the attribute [meta_<key>] when the key is not
    empty; the item is left as it is and [_fetch_metadata] is not called.
    The attribute [meta_] itself is no metadata access. *)
Theorem partial_meta_is_found_without_fetch meta_dict o key v default :
  Py.get_item key meta_dict = Some v ->
  let o' := Meta.set_partial_meta meta_dict o in
  Meta.get_meta fetch key default o' = (Meta.Ok v, o')
  /\ (key <> EmptyString ->
      Meta.__getattribute__ fetch ("meta_" ++ key) o'
      = (Meta.Metadata (Meta.Ok v), o'))
  /\ Meta.__getattribute__ fetch "meta_" o' = (Meta.Ordinary, o')
  /\ Meta.fetches o' = Meta.fetches o.
Proof.
  intros Hk o'.
  destruct (stored_is_read meta_dict o key v default Hk) as (Hget & Hattr & Hf).
  split; [exact Hget|]. split; [|split; [reflexivity|exact Hf]].
  intros Hne. unfold Meta.__getattribute__.
  rewrite (MetaFacts.meta_key_of_name key Hne).
  subst o'. now rewrite Hattr.
Qed.

(** X16.  [set_partial_meta] leaves what is stored under other keys as it
    was (an item without metadata counting as empty), and it clears the
    flag. *)
Theorem partial_meta_keeps_other_keys meta_dict o key :
  Py.get_item key meta_dict = None ->
  exists d',
    Meta._metadata (Meta.set_partial_meta meta_dict o) = Some d'
    /\ Py.get_item key d'
       = Py.get_item key (match Meta._metadata o with Some d => d | None => [] end)
    /\ Meta._FULL_METADATA_ACQUIRED (Meta.set_partial_meta meta_dict o) = false.
Proof.
  intros Hk. eexists. split; [reflexivity|]. split; [|reflexivity].
  apply MetaFacts.copy_items_absent. exact Hk.
Qed.

Lemma miss_is_remembered key o o1 :
  Meta.meta_attribute fetch key o = (Meta.Fail Meta.AttributeError, o1) ->
  Meta._metadata o1 <> Some [] ->
  Meta._FULL_METADATA_ACQUIRED o1 = true
  /\ (Meta.fetches o1 <= S (Meta.fetches o))%nat
  /\ Meta.meta_attribute fetch key o1 = (Meta.Fail Meta.AttributeError, o1).
Proof.
  unfold Meta.meta_attribute at 1.
  set (metadata := match Meta._metadata o with Some d => d | None => [] end).
  destruct ((match metadata with [] => true | _ => false end)
            || (negb (Py.has_key key metadata)
                && negb (Meta._FULL_METADATA_ACQUIRED o))) eqn:Hneed.
  - unfold Meta._fetch_metadata.
    destruct (fetch (Meta._metadata o) (Meta._FULL_METADATA_ACQUIRED o)) as [m f].
    cbn. destruct m as [d|]; [|discriminate].
    destruct (Py.get_item key d) eqn:Hg; [discriminate|].
    intros [= <-] Hne. cbn in *. split; [reflexivity|]. split; [lia|].
    unfold Meta.meta_attribute. cbn. unfold Py.has_key. rewrite Hg. cbn.
    destruct d; [exfalso; apply Hne; reflexivity|]. cbn. reflexivity.
  - destruct (Py.get_item key metadata) eqn:Hg; [discriminate|].
    intros [= <-] Hne.
    apply orb_false_iff in Hneed as [Hempty Hkey].
    unfold Py.has_key in Hkey. rewrite Hg in Hkey. cbn in Hkey.
    apply negb_false_iff in Hkey.
    split; [exact Hkey|]. split; [lia|].
    unfold Meta.meta_attribute. fold metadata. unfold Py.has_key.
    rewrite Hempty, Hg, Hkey. cbn. reflexivity.
Qed.

(** X17.  A miss is remembered: when reading an attribute [meta_<key>]
    ends in the [AttributeError] of the metadata branch and the metadata
    is not left empty, the flag is set, at most one fetch was made, and
    reading the same attribute again gives [AttributeError] at once,
    without a fetch and without a change. *)
Theorem missing_attribute_is_remembered name o o1 :
  Meta.__getattribute__ fetch name o
  = (Meta.Metadata (Meta.Fail Meta.AttributeError), o1) ->
  Meta._metadata o1 <> Some [] ->
  Meta._FULL_METADATA_ACQUIRED o1 = true
  /\ (Meta.fetches o1 <= S (Meta.fetches o))%nat
  /\ Meta.__getattribute__ fetch name o1
     = (Meta.Metadata (Meta.Fail Meta.AttributeError), o1).
Proof.
  unfold Meta.__getattribute__.
  destruct (Meta.meta_key_of name) as [key|]; [|discriminate].
  destruct (Meta.meta_attribute fetch key o) as [r o2] eqn:Hattr.
  intros [= -> ->] Hne.
  destruct (miss_is_remembered key o o1 Hattr Hne) as (Hflag & Hf & Hagain).
  split; [exact Hflag|]. split; [exact Hf|]. now rewrite Hagain.
Qed.

(** X18.  [set_partial_meta] makes a complete item incomplete again:
    after it, reading an attribute [meta_<key>] whose key (not empty) is
    in neither dict calls [_fetch_metadata] exactly once, whatever the
    flag was before. *)
Theorem partial_meta_reopens_fetching meta_dict o key :
  key <> EmptyString ->
  Py.get_item key meta_dict = None ->
  Py.get_item key (match Meta._metadata o with Some d => d | None => [] end) = None ->
  Meta.fetches (snd (Meta.__getattribute__ fetch ("meta_" ++ key)
                                           (Meta.set_partial_meta meta_dict o)))
  = S (Meta.fetches o).
Proof.
  intros Hne Hk Hold.
  pose proof (MetaFacts.copy_items_absent meta_dict
                (match Meta._metadata o with Some d => d | None => [] end) key Hk)
    as Hg.
  rewrite Hold in Hg.
  unfold Meta.__getattribute__. rewrite (MetaFacts.meta_key_of_name key Hne).
  unfold Meta.meta_attribute, Meta.set_partial_meta, Py.has_key, Meta._fetch_metadata.
  cbn [Meta._metadata Meta._FULL_METADATA_ACQUIRED Meta.fetches].
  rewrite Hg. cbn [negb andb]. rewrite orb_true_r.
  destruct (fetch _ _) as [m f]. cbn.
  destruct m as [d'|]; [|reflexivity].
  destruct (Py.get_item key d'); reflexivity.
Qed.

End MetaExtras.

(** X15, for the duration of a track set on a blank item. *)
Lemma partial_meta_is_found_without_fetch_witness :
  let o' := Meta.set_partial_meta Library.partial Library.blank in
  Meta.get_meta Library.fetch_name "duration" Py.VNone o' = (Meta.Ok (Py.VInt 215), o')
  /\ Meta.__getattribute__ Library.fetch_name "meta_duration" o'
     = (Meta.Metadata (Meta.Ok (Py.VInt 215)), o')
  /\ Meta.fetches o' = Meta.fetches Library.blank.
Proof.
  destruct (partial_meta_is_found_without_fetch Library.fetch_name Library.partial
              Library.blank "duration" (Py.VInt 215) Py.VNone)
    as (Hget & Hattr & _ & Hf).
  - reflexivity.
  - split; [exact Hget|]. split; [|exact Hf]. apply Hattr. discriminate.
Defined.

(** X16, for [is_playable] of a complete item given a new name. *)
Lemma partial_meta_keeps_other_keys_witness :
  exists d',
    Meta._metadata (Meta.set_partial_meta Library.partial Library.complete) = Some d'
    /\ Py.get_item "is_playable" d' = Some (Py.VBool true)
    /\ Meta._FULL_METADATA_ACQUIRED
         (Meta.set_partial_meta Library.partial Library.complete) = false.
Proof.
  destruct (partial_meta_keeps_other_keys Library.partial Library.complete "is_playable")
    as (d' & H1 & H2 & H3).
  - reflexivity.
  - exists d'. split; [exact H1|]. split; [|exact H3]. rewrite H2. reflexivity.
Defined.

(** X17, for the artist of an item whose fetch only brings the name. *)
Lemma missing_attribute_is_remembered_witness :
  Meta._FULL_METADATA_ACQUIRED Library.fetched = true
  /\ (Meta.fetches Library.fetched <= S (Meta.fetches Library.blank))%nat
  /\ Meta.__getattribute__ Library.fetch_name "meta_artist" Library.fetched
     = (Meta.Metadata (Meta.Fail Meta.AttributeError), Library.fetched).
Proof.
  apply (missing_attribute_is_remembered Library.fetch_name "meta_artist"
           Library.blank Library.fetched).
  - reflexivity.
  - discriminate.
Defined.

(** X18, for the artist of a complete item given a new name. *)
Lemma partial_meta_reopens_fetching_witness :
  Meta.fetches
    (snd (Meta.__getattribute__ Library.fetch_name "meta_artist"
            (Meta.set_partial_meta Library.partial Library.complete)))
  = S (Meta.fetches Library.complete).
Proof.
  apply (partial_meta_reopens_fetching Library.fetch_name Library.partial
           Library.complete "artist").
  - discriminate.
  - reflexivity.
  - reflexivity.
Defined.

Lemma get_item_in k v d : Py.get_item k d = Some v -> In (k, v) d.
Proof.
  induction d as [|[k' v'] d IH]; cbn; [discriminate|].
  destruct (String.eqb k' k) eqn:E.
  - apply String.eqb_eq in E. intros [= <-]. subst. now left.
  - intros Hg. right. auto.
Qed.

(** X23.  What [set_partial_meta] stores shows up in [get_meta_keys]:
    every key of the dict passed in is listed when the filters are off,
    and when they are on it is listed if its value is a [bool], an [int]
    or a [str]. *)
Theorem stored_keys_are_listed meta_dict o key v :
  Py.get_item key meta_dict = Some v ->
  exists every chosen,
    Meta.get_meta_keys true (Meta.set_partial_meta meta_dict o) = Meta.Ok every
    /\ Meta.get_meta_keys false (Meta.set_partial_meta meta_dict o) = Meta.Ok chosen
    /\ In key every
    /\ (Meta.plain v = true -> In key chosen).
Proof.
  intros Hk.
  pose proof (MetaFacts.copy_items_present meta_dict
                (match Meta._metadata o with Some d => d | None => [] end) key v Hk)
    as Hg.
  apply get_item_in in Hg.
  unfold Meta.get_meta_keys, Meta.set_partial_meta. cbn [Meta._metadata].
  eexists. eexists. split; [reflexivity|]. split; [reflexivity|]. split.
  - change key with (fst (key, v)). apply in_map.
    apply filter_In. split; [exact Hg|]. apply orb_true_r.
  - intros Hp. change key with (fst (key, v)). apply in_map.
    apply filter_In. split; [exact Hg|]. cbn. rewrite Hp. reflexivity.
Qed.

(** X23, for the name of a track. *)
Lemma stored_keys_are_listed_witness :
  exists every chosen,
    Meta.get_meta_keys true (Meta.set_partial_meta Library.partial Library.blank)
    = Meta.Ok every
    /\ Meta.get_meta_keys false (Meta.set_partial_meta Library.partial Library.blank)
       = Meta.Ok chosen
    /\ In "name"%string every
    /\ In "name"%string chosen.
Proof.
  destruct (stored_keys_are_listed Library.partial Library.blank "name"
              (Py.VStr "Song")) as (every & chosen & H1 & H2 & H3 & H4).
  - reflexivity.
  - exists every, chosen. split; [exact H1|]. split; [exact H2|].
    split; [exact H3|]. apply H4. reflexivity.
Defined.

(** X24.  The attribute name [meta_<key>] stands for the key: for every
    non-empty key, the name made of ["meta_"] and the key is taken as a
    metadata access to exactly that key. *)
Theorem meta_name_gives_key key :
  key <> EmptyString ->
  Meta.meta_key_of ("meta_" ++ key) = Some key.
Proof.
  apply MetaFacts.meta_key_of_name.
Qed.

(** X24, for the key [name]. *)
Lemma meta_name_gives_key_witness :
  Meta.meta_key_of "meta_name" = Some "name"%string.
Proof.
  apply (meta_name_gives_key "name"). discriminate.
Defined.

(** ** [media_stream_as_user] *)
Section AccessExtras.
Context {T : Type}.
Variable fetch : option Py.dict -> bool -> option Py.dict * bool.
Variable debug_mstream : Z.
Variable load : Py.value -> bool -> Access.quality -> Access.loading T.

Local Abbreviation media_stream_as_user :=
  (@Access.media_stream_as_user T fetch debug_mstream load).
Local Abbreviation load_stream := (@Access.load_stream T fetch load).

Local Abbreviation load_stream_frame :=
  (@AccessFacts.load_stream_frame T fetch load).
Local Abbreviation access_frame :=
  (@AccessFacts.access_frame T fetch debug_mstream load).

(** X20.  Whatever the outcome, [media_stream_as_user] leaves the media
    type and the chosen quality alone and calls the content feeder at
    most once; when it fails the stream held is what it was before, and
    when it succeeds the stream returned is the one held afterwards. *)
Theorem media_stream_as_user_frame u (i : Access.item T) :
  let r := fst (media_stream_as_user u i) in
  let i1 := snd (media_stream_as_user u i) in
  Access.media_type i1 = Access.media_type i
  /\ Access.use_audio_quality i1 = Access.use_audio_quality i
  /\ (Access.loads i <= Access.loads i1 <= S (Access.loads i))%nat
  /\ match r with
     | inl s => Access.stream i1 = Some s
     | inr _ => Access.stream i1 = Access.stream i
     end.
Proof. apply access_frame. Qed.

(** X19.  A stream once loaded is reused: after a successful call any
    later call by a user who passes the premium gate returns the same
    stream and changes nothing, the content feeder not being asked
    again; a user who does not pass the gate is refused although the
    stream is there. *)
Theorem loaded_stream_is_reused u u' (i i1 : Access.item T) s :
  media_stream_as_user u i = (inl s, i1) ->
  (Access.is_premium u' = true \/ debug_mstream <> 0 ->
   media_stream_as_user u' i1 = (inl s, i1))
  /\ (Access.is_premium u' = false -> debug_mstream = 0 ->
      media_stream_as_user u' i1 = (inr Access.PremiumRequiredException, i1)).
Proof.
  intros Hcall.
  pose proof (access_frame u i) as Hf. cbv zeta in Hf. rewrite Hcall in Hf.
  cbn in Hf. destruct Hf as (_ & _ & _ & Hs).
  split.
  - intros Hgate. unfold Access.media_stream_as_user.
    assert (Hg : negb (Access.is_premium u') && (debug_mstream =? 0) = false).
    { destruct Hgate as [->|Hd]; [reflexivity|].
      apply Z.eqb_neq in Hd. rewrite Hd. apply andb_false_r. }
    rewrite Hg, Hs. reflexivity.
  - intros Hp Hd. unfold Access.media_stream_as_user. rewrite Hp, Hd. reflexivity.
Qed.

(** X22.  After [reset_stream] no stream is held, and a call that then
    succeeds has asked the content feeder exactly once and holds the
    stream it returns. *)
Theorem reset_stream_forces_reload u (i i1 : Access.item T) s :
  media_stream_as_user u (Access.reset_stream i) = (inl s, i1) ->
  Access.stream (Access.reset_stream i) = None
  /\ Access.loads i1 = S (Access.loads i)
  /\ Access.stream i1 = Some s.
Proof.
  intros Hcall. split; [reflexivity|].
  revert Hcall. unfold Access.media_stream_as_user.
  destruct (negb (Access.is_premium u) && (debug_mstream =? 0)); [discriminate|].
  cbn [Access.stream Access.reset_stream].
  destruct (negb _); [discriminate|].
  destruct (Meta._FULL_METADATA_ACQUIRED _).
  - destruct (Meta.meta_attribute fetch "is_playable" _) as [[v|e] m]; [|discriminate].
    destruct (negb (Access.truthy v)); [discriminate|].
    intros Hl. destruct (load_stream_frame _ _ _ _ Hl) as (_ & _ & _ & Hs & Hn).
    cbn in Hn. auto.
  - intros Hl. destruct (load_stream_frame _ _ _ _ Hl) as (_ & _ & _ & Hs & Hn).
    cbn in Hn. auto.
Qed.

(** X21.  An item whose metadata is not complete but has its
    [scraped_id], and which holds no stream: when the call ends in
    [UnplayableMediaException], the content feeder was asked once and
    [is_playable] is now stored as [False], to be read as [meta_is_playable]
    without a fetch. *)
Theorem unplayable_is_noted u (i i1 : Access.item T) d sid :
  Access.stream i = None ->
  Meta._metadata (Access.meta i) = Some d ->
  Meta._FULL_METADATA_ACQUIRED (Access.meta i) = false ->
  Py.get_item "scraped_id" d = Some sid ->
  media_stream_as_user u i = (inr Access.UnplayableMediaException, i1) ->
  Access.loads i1 = S (Access.loads i)
  /\ Meta.meta_attribute fetch "is_playable" (Access.meta i1)
     = (Meta.Ok (Py.VBool false), Access.meta i1).
Proof.
  intros Hs Hm Hfull Hsid. unfold Access.media_stream_as_user.
  destruct (negb (Access.is_premium u) && (debug_mstream =? 0)); [discriminate|].
  rewrite Hs. destruct (negb _); [discriminate|].
  rewrite Hfull. unfold Access.load_stream.
  assert (Hattr : Meta.meta_attribute fetch "scraped_id" (Access.meta i)
                  = (Meta.Ok sid, Access.meta i)).
  { unfold Meta.meta_attribute, Py.has_key. rewrite Hm, Hsid, Hfull.
    destruct d; [discriminate|]. reflexivity. }
  rewrite Hattr. cbn.
  destruct (load sid _ _); cbn; try discriminate.
  rewrite Hfull. cbn. intros [= <-]. cbn. split; [reflexivity|].
  destruct (stored_is_read fetch
              [("is_playable"%string, Py.VBool false)] (Access.meta i)
              "is_playable" (Py.VBool false) Py.VNone eq_refl) as (_ & Ha & _).
  exact Ha.
Qed.

End AccessExtras.

(** X19, for a premium user asking twice. *)
Lemma loaded_stream_is_reused_witness :
  exists i1,
    Access.media_stream_as_user Library.fetch_name 0 Studio.feeder
                                Studio.premium Studio.track
    = (inl Examples.fluent, i1)
    /\ Access.media_stream_as_user Library.fetch_name 0 Studio.feeder
                                   Studio.premium i1
       = (inl Examples.fluent, i1).
Proof.
  eexists. split; [reflexivity|].
  apply (loaded_stream_is_reused Library.fetch_name 0 Studio.feeder
           Studio.premium Studio.premium Studio.track).
  - reflexivity.
  - left. reflexivity.
Defined.

(** X22, for a track that was playing. *)
Lemma reset_stream_forces_reload_witness :
  exists i1,
    Access.media_stream_as_user Library.fetch_name 0 Studio.feeder
                                Studio.premium (Access.reset_stream Studio.playing)
    = (inl Examples.fluent, i1)
    /\ Access.loads i1 = S (Access.loads Studio.playing)
    /\ Access.stream i1 = Some Examples.fluent.
Proof.
  eexists. split; [reflexivity|].
  apply (reset_stream_forces_reload Library.fetch_name 0 Studio.feeder
           Studio.premium Studio.playing).
  reflexivity.
Defined.

(** X21, for a content feeder that finds no alternative track. *)
Lemma unplayable_is_noted_witness :
  exists i1,
    Access.media_stream_as_user Library.fetch_name 0 Studio.refusing
                                Studio.premium Studio.track
    = (inr Access.UnplayableMediaException, i1)
    /\ Access.loads i1 = S (Access.loads Studio.track)
    /\ Meta.meta_attribute Library.fetch_name "is_playable" (Access.meta i1)
       = (Meta.Ok (Py.VBool false), Access.meta i1).
Proof.
  eexists. split; [reflexivity|].
  eapply (unplayable_is_noted Library.fetch_name 0 Studio.refusing
            Studio.premium Studio.track).
  - reflexivity.
  - reflexivity.
  - reflexivity.
  - reflexivity.
  - reflexivity.
Defined.

(** ** [get_thumbnail] *)
Section ArtworkExtras.
Variable render : string -> bytes.

(** X25.  A thumbnail once made is kept: after a call of [get_thumbnail]
    that returns bytes, every later call returns the same bytes,
    whatever size is asked for, and downloads nothing. *)
Theorem thumbnail_is_kept preferred_size a content a1 :
  Artwork.get_thumbnail render preferred_size a = (inl content, a1) ->
  forall other_size,
    Artwork.get_thumbnail render other_size a1 = (inl content, a1).
Proof.
  unfold Artwork.get_thumbnail.
  destruct (Artwork._thumbnail a) as [c|] eqn:Ht.
  - intros [= <- <-] other. rewrite Ht. reflexivity.
  - cbn. destruct (String.eqb _ EmptyString); [discriminate|].
    intros [= <- <-] other. reflexivity.
Qed.

(** X26.  The empty buffer is created before the url is looked at: with
    no thumbnail yet and no cover, the first call of [get_thumbnail]
    raises [ThumbnailUnavailableException], and every later call returns
    the empty bytes instead of raising, downloading nothing. *)
Theorem unavailable_thumbnail_turns_empty preferred_size a :
  Artwork._thumbnail a = None ->
  Artwork._covers a = [] ->
  exists a1,
    Artwork.get_thumbnail render preferred_size a
    = (inr Artwork.ThumbnailUnavailableException, a1)
    /\ Artwork.downloads a1 = Artwork.downloads a
    /\ forall other_size,
        Artwork.get_thumbnail render other_size a1 = (inl [], a1).
Proof.
  intros Ht Hc. unfold Artwork.get_thumbnail, Artwork.get_thumbnail_url.
  rewrite Ht. cbn. rewrite Hc. cbn.
  eexists. split; [reflexivity|]. split; reflexivity.
Qed.

End ArtworkExtras.

(** X25, for an item with covers. *)
Lemma thumbnail_is_kept_witness :
  exists a1,
    Artwork.get_thumbnail Frames.render Thumbs.default_size Frames.fresh
    = (inl (blob 4), a1)
    /\ Artwork.get_thumbnail Frames.render 100 a1 = (inl (blob 4), a1).
Proof.
  eexists. split; [reflexivity|].
  apply (thumbnail_is_kept Frames.render Thumbs.default_size Frames.fresh).
  reflexivity.
Defined.

(** X26, for an item without covers. *)
Lemma unavailable_thumbnail_turns_empty_witness :
  exists a1,
    Artwork.get_thumbnail Frames.render Thumbs.default_size Frames.bare
    = (inr Artwork.ThumbnailUnavailableException, a1)
    /\ Artwork.downloads a1 = Artwork.downloads Frames.bare
    /\ forall other_size,
        Artwork.get_thumbnail Frames.render other_size a1 = (inl [], a1).
Proof.
  apply (unavailable_thumbnail_turns_empty Frames.render Thumbs.default_size Frames.bare).
  - reflexivity.
  - reflexivity.
Defined.
